(** * mudrockdbcompare: schema comparison and data verification

    A shallow embedding of the Go sources (compare.go, util.go, types.go,
    the three engine adapters and the data-verification part of main)
    together with the properties of the comparison engine.

    Conventions of the embedding:
    - Go [map[string]V] is a [gmap string V]; [m[k]] on a missing key
      yields the zero value ([goIndex]).
    - [for k, v := range m] visits the entries in an order Go leaves
      unspecified.  The order is supplied by a [MapRange] oracle, which is
      only known to enumerate the entries of the map once each; the proofs
      use nothing else about it, so they cover every order a run may take.
    - Go [int] / [int64] are [Z] ([int] taken as 64 bits wide); the one
      place where arithmetic could leave the range (the progress
      percentage) wraps explicitly.
    - [database/sql] handles are records of answers to [QueryRow(..).Scan],
      one field per scanned row shape; every query issued and every line
      printed is logged in order as an [Effect].
    - A formatted message is kept as the arguments of its format call
      ([Difference], [Line]) next to the function that formats it
      ([Difference_render], [Line_render]). *)

From Stdlib Require Import ZArith Lia Ascii String Sorted.
From stdpp Require Import base option list gmap fin_maps strings pretty.

Open Scope string_scope.
Open Scope list_scope.
Open Scope Z_scope.

(** ** Strings and formatting *)

(** The double-quote character, used by the SQLite and PostgreSQL
    identifier quoting. *)
Definition dquote : string := String "034"%char EmptyString.

(** The line feed that opens some of the headers. *)
Definition newline : string := String "010"%char EmptyString.

(** [strings.Join]. *)
Fixpoint join (sep : string) (l : list string) : string :=
  match l with
  | [] => EmptyString
  | [x] => x
  | x :: rest => x +:+ sep +:+ join sep rest
  end.

(** [%v] of a [[]string]. *)
Definition fmt_slice (l : list string) : string := "[" +:+ join " " l +:+ "]".

(** [%v] of a [bool]. *)
Definition fmt_bool (b : bool) : string := if b then "true" else "false".

(** [%d] of an [int]. *)
Definition fmt_int (z : Z) : string := pretty z.

(** ** types.go *)

Module NullString.
Record t := mk { String : string; Valid : bool }.
End NullString.

Module NullInt64.
Record t := mk { Int64 : Z; Valid : bool }.
(** What [Scan] stores for a SQL value: NULL clears the struct. *)
Definition scan (v : option Z) : t :=
  match v with
  | Some z => mk z true
  | None => mk 0 false
  end.
End NullInt64.

Module ColumnSchema.
Record t := mk {
  Name : string;
  DataType : string;
  Nullable : string;
  Key : string;
  Default : NullString.t;
  Extra : string
}.
End ColumnSchema.

Module IndexSchema.
Record t := mk {
  Name : string;
  ColumnName : string;
  NonUnique : Z
}.
End IndexSchema.

Module ForeignKeySchema.
Record t := mk {
  Name : string;
  ColumnName : string;
  ReferencedTable : string;
  ReferencedColumn : string
}.
End ForeignKeySchema.

Module TableSchema.
Record t := mk {
  Name : string;
  Columns : list ColumnSchema.t;
  Indexes : list IndexSchema.t;
  ForeignKeys : list ForeignKeySchema.t;
  PrimaryKeys : list string
}.
(** The zero value of the struct. *)
Definition zero : t := mk EmptyString [] [] [] [].
End TableSchema.

Module ComparisonSummary.
Record t := mk {
  DifferentTables : list string;
  DifferentRowCounts : gmap string (Z * Z);
  TotalTablesChecked : Z;
  SchemaOnly : bool
}.
End ComparisonSummary.

(** ** Go maps *)

(** [m[k]]: the stored value, or the zero value of the element type. *)
Definition goIndex {V} (zero : V) (m : gmap string V) (k : string) : V :=
  default zero (m !! k).

(** The iteration order of [range] over a map. *)
Class MapRange := {
  rangeOf : forall {V}, gmap string V -> list (string * V);
  rangeOf_perm : forall V (m : gmap string V), rangeOf m ≡ₚ map_to_list m
}.

(** One admissible order: the one stdpp enumerates the map in. *)
Definition canonicalRange : MapRange :=
  {| rangeOf := fun V m => map_to_list m;
     rangeOf_perm := fun V m => reflexivity (map_to_list m) |}.

(** Another admissible order: the reverse of it. *)
Definition reversedRange : MapRange :=
  {| rangeOf := fun V m => reverse (map_to_list m);
     rangeOf_perm := fun V m => reverse_Permutation (map_to_list m) |}.

(** ** util.go *)

Fixpoint contains (slice : list string) (item : string) : bool :=
  match slice with
  | [] => false
  | a :: rest => if bool_decide (a = item) then true else contains rest item
  end.

(** The [map[string]bool] built by [for _, val := range a { m[val] = true }]. *)
Definition sliceSet (a : list string) : gmap string bool :=
  foldl (fun m val => <[val := true]> m) ∅ a.

Section Util.
Context {R : MapRange}.

Definition compareStringSlices (a b : list string) : bool :=
  if negb (Nat.eqb (length a) (length b)) then false
  else
    let mapA := sliceSet a in
    let mapB := sliceSet b in
    if existsb (fun '(val, _) => negb (goIndex false mapB val)) (rangeOf mapA)
    then false
    else if existsb (fun '(val, _) => negb (goIndex false mapA val)) (rangeOf mapB)
    then false
    else true.
End Util.

(** ** compare.go: table schemas *)

(** One constructor per [fmt.Sprintf] call of [compareTableSchema], carrying
    the arguments of the call; [Difference_render] is the formatted entry. *)
Inductive Difference :=
| ColumnOnlyInSource (tableName colName : string)
| ColumnDataType (tableName colName source target : string)
| ColumnNullable (tableName colName source target : string)
| ColumnOnlyInTarget (tableName colName : string)
| PrimaryKeysDiffer (tableName : string) (source target : list string).

Definition Difference_render (d : Difference) : string :=
  match d with
  | ColumnOnlyInSource t c =>
      "Column '" +:+ t +:+ "." +:+ c +:+ "' exists in source but not in target"
  | ColumnDataType t c s g =>
      "Column '" +:+ t +:+ "." +:+ c +:+ "' has different data type: source='"
        +:+ s +:+ "', target='" +:+ g +:+ "'"
  | ColumnNullable t c s g =>
      "Column '" +:+ t +:+ "." +:+ c +:+ "' has different nullable property: source='"
        +:+ s +:+ "', target='" +:+ g +:+ "'"
  | ColumnOnlyInTarget t c =>
      "Column '" +:+ t +:+ "." +:+ c +:+ "' exists in target but not in source"
  | PrimaryKeysDiffer t s g =>
      "Table '" +:+ t +:+ "' has different primary keys: source=" +:+ fmt_slice s
        +:+ ", target=" +:+ fmt_slice g
  end.

(** The [map[string]ColumnSchema] built by
    [for _, col := range cols { m[col.Name] = col }]. *)
Definition columnMap (cols : list ColumnSchema.t) : gmap string ColumnSchema.t :=
  foldl (fun m col => <[ColumnSchema.Name col := col]> m) ∅ cols.

(** The pair of locals [(hasDifferences, differences)]. *)
Definition DiffState : Type := bool * list Difference.

(** [differences = append(differences, d); hasDifferences = true]. *)
Definition report (d : Difference) (st : DiffState) : DiffState :=
  (true, st.2 ++ [d]).

(** Body of the loop over [sourceColumns]. *)
Definition sourceColumnStep (tableName : string)
    (targetColumns : gmap string ColumnSchema.t)
    (st : DiffState) (entry : string * ColumnSchema.t) : DiffState :=
  let '(colName, sourceCol) := entry in
  match targetColumns !! colName with
  | None => report (ColumnOnlyInSource tableName colName) st
  | Some targetCol =>
      let st1 :=
        if bool_decide (ColumnSchema.DataType sourceCol ≠ ColumnSchema.DataType targetCol)
        then report (ColumnDataType tableName colName
                       (ColumnSchema.DataType sourceCol) (ColumnSchema.DataType targetCol)) st
        else st in
      if bool_decide (ColumnSchema.Nullable sourceCol ≠ ColumnSchema.Nullable targetCol)
      then report (ColumnNullable tableName colName
                     (ColumnSchema.Nullable sourceCol) (ColumnSchema.Nullable targetCol)) st1
      else st1
  end.

(** Body of the loop over [targetColumns]. *)
Definition targetColumnStep (tableName : string)
    (sourceColumns : gmap string ColumnSchema.t)
    (st : DiffState) (entry : string * ColumnSchema.t) : DiffState :=
  let '(colName, _) := entry in
  match sourceColumns !! colName with
  | None => report (ColumnOnlyInTarget tableName colName) st
  | Some _ => st
  end.

Section Compare.
Context {R : MapRange}.

(** [compareTableSchema] up to the formatting of the entries. *)
Definition compareTableSchema_entries (tableName : string)
    (sourceSchema targetSchema : TableSchema.t) : DiffState :=
  let st0 : DiffState := (false, []) in
  let sourceColumns := columnMap (TableSchema.Columns sourceSchema) in
  let targetColumns := columnMap (TableSchema.Columns targetSchema) in
  let st1 := foldl (sourceColumnStep tableName targetColumns) st0 (rangeOf sourceColumns) in
  let st2 := foldl (targetColumnStep tableName sourceColumns) st1 (rangeOf targetColumns) in
  if negb (compareStringSlices (TableSchema.PrimaryKeys sourceSchema)
                               (TableSchema.PrimaryKeys targetSchema))
  then report (PrimaryKeysDiffer tableName (TableSchema.PrimaryKeys sourceSchema)
                                 (TableSchema.PrimaryKeys targetSchema)) st2
  else st2.

Definition compareTableSchema (tableName : string)
    (sourceSchema targetSchema : TableSchema.t) : bool * list string :=
  let '(hasDifferences, differences) :=
    compareTableSchema_entries tableName sourceSchema targetSchema in
  (hasDifferences, Difference_render <$> differences).

(** ** compare.go: databases *)

(** The locals [(missingTables, commonTables, schemaDifferences)] of the
    first loop of [compareDatabases]. *)
Definition DbState : Type := list string * list string * gmap string (list string).

Definition sourceTableStep (sourceSchemas targetSchemas : gmap string TableSchema.t)
    (st : DbState) (entry : string * TableSchema.t) : DbState :=
  let '(missingTables, commonTables, schemaDifferences) := st in
  let '(tableName, _) := entry in
  match targetSchemas !! tableName with
  | None => (missingTables ++ [tableName], commonTables, schemaDifferences)
  | Some _ =>
      let '(hasDiffs, diffs) :=
        compareTableSchema tableName
          (goIndex TableSchema.zero sourceSchemas tableName)
          (goIndex TableSchema.zero targetSchemas tableName) in
      (missingTables, commonTables ++ [tableName],
       if hasDiffs then <[tableName := diffs]> schemaDifferences else schemaDifferences)
  end.

Definition targetTableStep (sourceSchemas : gmap string TableSchema.t)
    (extraTables : list string) (entry : string * TableSchema.t) : list string :=
  let '(tableName, _) := entry in
  match sourceSchemas !! tableName with
  | None => extraTables ++ [tableName]
  | Some _ => extraTables
  end.

(** Returns [(missingTables, extraTables, commonTables, schemaDifferences)]. *)
Definition compareDatabases (sourceSchemas targetSchemas : gmap string TableSchema.t)
    : list string * list string * list string * gmap string (list string) :=
  let '(missingTables, commonTables, schemaDifferences) :=
    foldl (sourceTableStep sourceSchemas targetSchemas) ([], [], ∅) (rangeOf sourceSchemas) in
  let extraTables := foldl (targetTableStep sourceSchemas) [] (rangeOf targetSchemas) in
  (missingTables, extraTables, commonTables, schemaDifferences).

End Compare.

(** ** Console output and database queries *)

Inductive Side := Source | Target.

(** One constructor per print statement, carrying its arguments. *)
Inductive Line :=
(* compareIndexes *)
| IndexOnlyInSource (name : string) (columns : list string) (tableName : string)
| IndexColumnOnlyInSource (col name tableName : string)
| IndexUniqueness (name col tableName : string) (source target : bool)
| IndexColumnOnlyInTarget (col name tableName : string)
| IndexOnlyInTarget (name : string) (columns : list string) (tableName : string)
(* compareForeignKeys *)
| ForeignKeyOnlyInSource (name tableName col refTable refCol : string)
| ForeignKeyOnlyInTarget (name tableName col refTable refCol : string)
(* MySQLAdapter.CompareTableDataByChecksum *)
| ErrorSourceChecksum (err : string)
| ErrorTargetChecksum (err : string)
| ChecksumsNotAvailable (tableName : string)
| ChecksumValidityDiffers (tableName : string)
(* PostgreSQLAdapter.CompareTableDataByChecksum *)
| ComparingByHash (tableName : string)
| ErrorSourceHash (err : string)
| ErrorTargetHash (err : string)
| HashNotAvailable (tableName : string)
| HashValidityDiffers (tableName : string)
| HashesDiffer (tableName : string)
| HashIdentical (tableName : string)
(* SQLiteAdapter.CompareTableDataByChecksum *)
| ComparingData (tableName : string)
| ErrorSourceSum (err : string)
| ErrorTargetSum (err : string)
| RowSumsDiffer (tableName : string)
| LikelyIdentical (tableName : string)
(* SQLiteAdapter.CompareTableDataByChecksum and main *)
| RowCountsDiffer (tableName : string) (source target : Z)
(* main *)
| DataDifferencesHeader
| ComparingTables (n : Z)
| Progress (percent : Z)
| RowCountError (tableName err : string)
| ProgressComplete.

Definition Line_render (l : Line) : string :=
  match l with
  | IndexOnlyInSource n cs t =>
      "Index '" +:+ n +:+ "' on columns " +:+ fmt_slice cs
        +:+ " exists in source but not in target for table '" +:+ t +:+ "'"
  | IndexColumnOnlyInSource c n t =>
      "Column '" +:+ c +:+ "' of index '" +:+ n
        +:+ "' exists in source but not in target for table '" +:+ t +:+ "'"
  | IndexUniqueness n c t s g =>
      "Index '" +:+ n +:+ "' on column '" +:+ c
        +:+ "' has different uniqueness in table '" +:+ t +:+ "': source="
        +:+ fmt_bool s +:+ ", target=" +:+ fmt_bool g
  | IndexColumnOnlyInTarget c n t =>
      "Column '" +:+ c +:+ "' of index '" +:+ n
        +:+ "' exists in target but not in source for table '" +:+ t +:+ "'"
  | IndexOnlyInTarget n cs t =>
      "Index '" +:+ n +:+ "' on columns " +:+ fmt_slice cs
        +:+ " exists in target but not in source for table '" +:+ t +:+ "'"
  | ForeignKeyOnlyInSource n t c rt rc =>
      "Foreign key '" +:+ n +:+ "' from '" +:+ t +:+ "." +:+ c +:+ "' to '"
        +:+ rt +:+ "." +:+ rc +:+ "' exists in source but not in target"
  | ForeignKeyOnlyInTarget n t c rt rc =>
      "Foreign key '" +:+ n +:+ "' from '" +:+ t +:+ "." +:+ c +:+ "' to '"
        +:+ rt +:+ "." +:+ rc +:+ "' exists in target but not in source"
  | ErrorSourceChecksum e => "Error getting source checksum: " +:+ e
  | ErrorTargetChecksum e => "Error getting target checksum: " +:+ e
  | ChecksumsNotAvailable t => "Checksums not available for table '" +:+ t +:+ "'"
  | ChecksumValidityDiffers t =>
      "Table '" +:+ t +:+ "' has different data (checksum validity differs)"
  | ComparingByHash t => "Comparing data for table '" +:+ t +:+ "' by hash..."
  | ErrorSourceHash e => "Error getting source hash: " +:+ e
  | ErrorTargetHash e => "Error getting target hash: " +:+ e
  | HashNotAvailable t => "Hash not available for table '" +:+ t +:+ "'"
  | HashValidityDiffers t =>
      "Table '" +:+ t +:+ "' has different data (hash validity differs)"
  | HashesDiffer t => "Table '" +:+ t +:+ "' has different data (hashes differ)"
  | HashIdentical t => "Table '" +:+ t +:+ "' has identical data according to hash"
  | ComparingData t => "Comparing data for table '" +:+ t +:+ "'..."
  | ErrorSourceSum e => "Error getting source sum: " +:+ e
  | ErrorTargetSum e => "Error getting target sum: " +:+ e
  | RowSumsDiffer t => "Table '" +:+ t +:+ "' has different data (row sums differ)"
  | LikelyIdentical t =>
      "Table '" +:+ t +:+ "' has likely identical data (same row count and sums)"
  | RowCountsDiffer t s g =>
      "Table '" +:+ t +:+ "' has different row counts: source=" +:+ fmt_int s
        +:+ ", target=" +:+ fmt_int g
  | DataDifferencesHeader => newline +:+ "=== Data Differences ==="
  | ComparingTables n => "Comparing data for " +:+ fmt_int n +:+ " tables..."
  | Progress p => "Progress: " +:+ fmt_int p +:+ "%"
  | RowCountError t e => "Error comparing row counts for table " +:+ t +:+ ": " +:+ e
  | ProgressComplete => "Progress: 100%"
  end.

(** What a run does to the outside world, in order. *)
Inductive Effect :=
| Printf (l : Line)
| QueryRow (db : Side) (query : string).

(** A computation that logs its effects. *)
Definition IO (A : Type) : Type := list Effect * A.

Definition IO_ret {A} (a : A) : IO A := ([], a).

Definition IO_bind {A B} (m : IO A) (k : A -> IO B) : IO B :=
  let '(log1, a) := m in
  let '(log2, b) := k a in
  (log1 ++ log2, b).

#[global] Instance IO_mret : MRet IO := @IO_ret.
#[global] Instance IO_mbind : MBind IO := fun A B k m => IO_bind m k.

Definition print (l : Line) : IO unit := ([Printf l], tt).

(** [for _, x := range l { body x }]. *)
Fixpoint forEach {A} (l : list A) (body : A -> IO unit) : IO unit :=
  match l with
  | [] => mret tt
  | x :: rest => body x ;; forEach rest body
  end.

Definition stdout {A} (m : IO A) : list Line :=
  omap (fun e => match e with Printf l => Some l | QueryRow _ _ => None end) m.1.

Definition queries {A} (m : IO A) : list (Side * string) :=
  omap (fun e => match e with Printf _ => None | QueryRow s q => Some (s, q) end) m.1.

(** The outcome of [QueryRow(q).Scan(..)]. *)
Inductive result (A : Type) :=
| Ok (a : A)
| Err (e : string).
Arguments Ok {A} a.
Arguments Err {A} e.

(** A [*sql.DB]: what the database answers to a single-row query, by the
    shape of the destination the row is scanned into. *)
Record DB := {
  scanInt : string -> result Z;
  scanNamedNullInt64 : string -> result (string * option Z);
  scanNullString : string -> result (option string)
}.

Definition queryInt (side : Side) (db : DB) (q : string) : IO (result Z) :=
  ([QueryRow side q], scanInt db q).

Definition queryNamedNullInt64 (side : Side) (db : DB) (q : string)
    : IO (result (string * NullInt64.t)) :=
  ([QueryRow side q],
   match scanNamedNullInt64 db q with
   | Ok (name, v) => Ok (name, NullInt64.scan v)
   | Err e => Err e
   end).

Definition scanNullStringValue (v : option string) : NullString.t :=
  match v with
  | Some s => NullString.mk s true
  | None => NullString.mk EmptyString false
  end.

Definition queryNullString (side : Side) (db : DB) (q : string)
    : IO (result NullString.t) :=
  ([QueryRow side q],
   match scanNullString db q with
   | Ok v => Ok (scanNullStringValue v)
   | Err e => Err e
   end).

(** ** compare.go: indexes and foreign keys *)

(** [map[string]map[string]IndexSchema], keyed by index name, then column. *)
Definition indexMap (indexes : list IndexSchema.t)
    : gmap string (gmap string IndexSchema.t) :=
  foldl (fun m idx =>
           let inner := default ∅ (m !! IndexSchema.Name idx) in
           <[IndexSchema.Name idx := <[IndexSchema.ColumnName idx := idx]> inner]> m)
        ∅ indexes.

(** [fmt.Sprintf("%s_%s_%s_%s", fk.Name, fk.ColumnName, fk.ReferencedTable,
    fk.ReferencedColumn)]. *)
Definition fkKey (fk : ForeignKeySchema.t) : string :=
  ForeignKeySchema.Name fk +:+ "_" +:+ ForeignKeySchema.ColumnName fk +:+ "_"
    +:+ ForeignKeySchema.ReferencedTable fk +:+ "_"
    +:+ ForeignKeySchema.ReferencedColumn fk.

Definition fkMap (fks : list ForeignKeySchema.t) : gmap string ForeignKeySchema.t :=
  foldl (fun m fk => <[fkKey fk := fk]> m) ∅ fks.

Section CompareIndexes.
Context {R : MapRange}.

(** [columns := []string{}; for col := range idx { columns = append(columns, col) }]. *)
Definition indexColumns (idx : gmap string IndexSchema.t) : list string :=
  foldl (fun columns entry => columns ++ [entry.1]) [] (rangeOf idx).

Definition compareIndexes (tableName : string)
    (sourceIndexes targetIndexes : list IndexSchema.t) : IO bool :=
  let hasDifferences := false in
  let sourceIndexMap := indexMap sourceIndexes in
  let targetIndexMap := indexMap targetIndexes in
  forEach (rangeOf sourceIndexMap) (fun '(name, sourceIdx) =>
    match targetIndexMap !! name with
    | None => print (IndexOnlyInSource name (indexColumns sourceIdx) tableName)
    | Some targetIdx =>
        forEach (rangeOf sourceIdx) (fun '(col, srcIdxCol) =>
          match targetIdx !! col with
          | None => print (IndexColumnOnlyInSource col name tableName)
          | Some tgtIdxCol =>
              if bool_decide (IndexSchema.NonUnique srcIdxCol ≠ IndexSchema.NonUnique tgtIdxCol)
              then print (IndexUniqueness name col tableName
                            (bool_decide (IndexSchema.NonUnique srcIdxCol = 0))
                            (bool_decide (IndexSchema.NonUnique tgtIdxCol = 0)))
              else mret tt
          end) ;;
        forEach (rangeOf targetIdx) (fun '(col, _) =>
          match sourceIdx !! col with
          | None => print (IndexColumnOnlyInTarget col name tableName)
          | Some _ => mret tt
          end)
    end) ;;
  forEach (rangeOf targetIndexMap) (fun '(name, targetIdx) =>
    match sourceIndexMap !! name with
    | None => print (IndexOnlyInTarget name (indexColumns targetIdx) tableName)
    | Some _ => mret tt
    end) ;;
  mret hasDifferences.

Definition compareForeignKeys (tableName : string)
    (sourceFKs targetFKs : list ForeignKeySchema.t) : IO bool :=
  let hasDifferences := false in
  let sourceFKMap := fkMap sourceFKs in
  let targetFKMap := fkMap targetFKs in
  forEach (rangeOf sourceFKMap) (fun '(key, fk) =>
    match targetFKMap !! key with
    | None => print (ForeignKeyOnlyInSource (ForeignKeySchema.Name fk) tableName
                       (ForeignKeySchema.ColumnName fk)
                       (ForeignKeySchema.ReferencedTable fk)
                       (ForeignKeySchema.ReferencedColumn fk))
    | Some _ => mret tt
    end) ;;
  forEach (rangeOf targetFKMap) (fun '(key, fk) =>
    match sourceFKMap !! key with
    | None => print (ForeignKeyOnlyInTarget (ForeignKeySchema.Name fk) tableName
                       (ForeignKeySchema.ColumnName fk)
                       (ForeignKeySchema.ReferencedTable fk)
                       (ForeignKeySchema.ReferencedColumn fk))
    | Some _ => mret tt
    end) ;;
  mret hasDifferences.

End CompareIndexes.

(** ** util.go: ORDER BY clause of the PostgreSQL hash query *)

Definition getOrderByClause (schema : TableSchema.t) : string :=
  if bool_decide (0 < length (TableSchema.PrimaryKeys schema))%nat
  then join ", " ((fun col => dquote +:+ col +:+ dquote) <$> TableSchema.PrimaryKeys schema)
  else join ", " ((fun col => dquote +:+ ColumnSchema.Name col +:+ dquote)
                    <$> TableSchema.Columns schema).

(** ** The adapters *)

(** The implementations of the [DatabaseAdapter] interface. *)
Inductive DatabaseAdapter := MySQLAdapter | PostgreSQLAdapter | SQLiteAdapter.

(** Returns [(adapter, err)]; [None] is Go's [nil]. *)
Definition GetAdapter (dbType : string) : option DatabaseAdapter * option string :=
  if bool_decide (dbType = "mysql") then (Some MySQLAdapter, None)
  else if bool_decide (dbType = "postgres") then (Some PostgreSQLAdapter, None)
  else if bool_decide (dbType = "sqlite") then (Some SQLiteAdapter, None)
  else (None, Some ("unsupported database type: " +:+ dbType)).

(** The [SELECT COUNT( * )] query of each adapter: MySQL quotes the table
    with backticks, the other two with double quotes. *)
Definition countQuery (a : DatabaseAdapter) (tableName : string) : string :=
  match a with
  | MySQLAdapter => "SELECT COUNT(*) FROM `" +:+ tableName +:+ "`"
  | PostgreSQLAdapter | SQLiteAdapter =>
      "SELECT COUNT(*) FROM " +:+ dquote +:+ tableName +:+ dquote
  end.

(** Returns [(sourceCount, targetCount, err)]. The three adapters differ
    only in the quoting of [countQuery]. *)
Definition CompareRowCounts (a : DatabaseAdapter) (sourceDB targetDB : DB)
    (tableName : string) : IO (Z * Z * option string) :=
  sourceRow ← queryInt Source sourceDB (countQuery a tableName);
  match sourceRow with
  | Err err => mret (0, 0, Some err)
  | Ok sourceCount =>
      targetRow ← queryInt Target targetDB (countQuery a tableName);
      match targetRow with
      | Err err => mret (0, 0, Some err)
      | Ok targetCount => mret (sourceCount, targetCount, None)
      end
  end.

(** The query of each adapter's data check. *)
Definition checksumQuery (tableName : string) : string :=
  "CHECKSUM TABLE `" +:+ tableName +:+ "`".

Definition hashQuery (schema : TableSchema.t) (tableName : string) : string :=
  "SELECT MD5(CAST((array_agg(t.* ORDER BY " +:+ getOrderByClause schema
    +:+ ")) AS text)) FROM " +:+ tableName +:+ " t".

Definition totalRowidQuery (tableName : string) : string :=
  "SELECT total(rowid) FROM " +:+ tableName.

Definition MySQL_CompareTableDataByChecksum (sourceDB targetDB : DB)
    (tableName : string) (schema : TableSchema.t) : IO (bool * option string) :=
  src ← queryNamedNullInt64 Source sourceDB (checksumQuery tableName);
  match src with
  | Err err => print (ErrorSourceChecksum err) ;; mret (false, Some err)
  | Ok (_, sourceChecksum) =>
      tgt ← queryNamedNullInt64 Target targetDB (checksumQuery tableName);
      match tgt with
      | Err err => print (ErrorTargetChecksum err) ;; mret (false, Some err)
      | Ok (_, targetChecksum) =>
          if negb (NullInt64.Valid sourceChecksum) && negb (NullInt64.Valid targetChecksum)
          then print (ChecksumsNotAvailable tableName) ;; mret (true, None)
          else if negb (eqb (NullInt64.Valid sourceChecksum) (NullInt64.Valid targetChecksum))
          then print (ChecksumValidityDiffers tableName) ;; mret (true, None)
          else if bool_decide (NullInt64.Int64 sourceChecksum ≠ NullInt64.Int64 targetChecksum)
          then mret (true, None)
          else mret (false, None)
      end
  end.

Definition PostgreSQL_CompareTableDataByChecksum (sourceDB targetDB : DB)
    (tableName : string) (schema : TableSchema.t) : IO (bool * option string) :=
  print (ComparingByHash tableName) ;;
  let query := hashQuery schema tableName in
  src ← queryNullString Source sourceDB query;
  match src with
  | Err err => print (ErrorSourceHash err) ;; mret (false, Some err)
  | Ok sourceHash =>
      tgt ← queryNullString Target targetDB query;
      match tgt with
      | Err err => print (ErrorTargetHash err) ;; mret (false, Some err)
      | Ok targetHash =>
          if negb (NullString.Valid sourceHash) && negb (NullString.Valid targetHash)
          then print (HashNotAvailable tableName) ;; mret (false, None)
          else if negb (eqb (NullString.Valid sourceHash) (NullString.Valid targetHash))
          then print (HashValidityDiffers tableName) ;; mret (true, None)
          else if bool_decide (NullString.String sourceHash ≠ NullString.String targetHash)
          then print (HashesDiffer tableName) ;; mret (true, None)
          else print (HashIdentical tableName) ;; mret (false, None)
      end
  end.

Definition SQLite_CompareTableDataByChecksum (sourceDB targetDB : DB)
    (tableName : string) (schema : TableSchema.t) : IO (bool * option string) :=
  print (ComparingData tableName) ;;
  '(sourceCount, targetCount, err) ← CompareRowCounts SQLiteAdapter sourceDB targetDB tableName;
  match err with
  | Some e => mret (false, Some e)
  | None =>
      if bool_decide (sourceCount ≠ targetCount)
      then print (RowCountsDiffer tableName sourceCount targetCount) ;; mret (true, None)
      else
        let query := totalRowidQuery tableName in
        src ← queryInt Source sourceDB query;
        match src with
        | Err e => print (ErrorSourceSum e) ;; mret (false, Some e)
        | Ok sourceSum =>
            tgt ← queryInt Target targetDB query;
            match tgt with
            | Err e => print (ErrorTargetSum e) ;; mret (false, Some e)
            | Ok targetSum =>
                if bool_decide (sourceSum ≠ targetSum)
                then print (RowSumsDiffer tableName) ;; mret (true, None)
                else print (LikelyIdentical tableName) ;; mret (false, None)
            end
        end
  end.

(** Method dispatch of [adapter.CompareTableDataByChecksum]. *)
Definition CompareTableDataByChecksum (a : DatabaseAdapter) :=
  match a with
  | MySQLAdapter => MySQL_CompareTableDataByChecksum
  | PostgreSQLAdapter => PostgreSQL_CompareTableDataByChecksum
  | SQLiteAdapter => SQLite_CompareTableDataByChecksum
  end.

(** ** main: data verification *)

(** A Go [int] after an operation that may overflow (64-bit platforms). *)
Definition int_wrap (z : Z) : Z := (z + 2 ^ 63) mod 2 ^ 64 - 2 ^ 63.

Definition set_DifferentTables (l : list string) (s : ComparisonSummary.t)
    : ComparisonSummary.t :=
  ComparisonSummary.mk l (ComparisonSummary.DifferentRowCounts s)
    (ComparisonSummary.TotalTablesChecked s) (ComparisonSummary.SchemaOnly s).

Definition set_DifferentRowCounts (m : gmap string (Z * Z)) (s : ComparisonSummary.t)
    : ComparisonSummary.t :=
  ComparisonSummary.mk (ComparisonSummary.DifferentTables s) m
    (ComparisonSummary.TotalTablesChecked s) (ComparisonSummary.SchemaOnly s).

(** Body of [for tableName := range schemaDifferences]. *)
Definition schemaDiffStep (summary : ComparisonSummary.t)
    (entry : string * list string) : ComparisonSummary.t :=
  let tableName := entry.1 in
  if negb (contains (ComparisonSummary.DifferentTables summary) tableName)
  then set_DifferentTables (ComparisonSummary.DifferentTables summary ++ [tableName]) summary
  else summary.

(** [for i, tableName := range commonTables], from index [i] on, over the
    locals [(lastPercentReported, summary)]. *)
Fixpoint verifyTables (adapter : DatabaseAdapter) (sourceDB targetDB : DB)
    (totalTables : Z) (i : Z) (tables : list string)
    (st : Z * ComparisonSummary.t) : IO (Z * ComparisonSummary.t) :=
  match tables with
  | [] => mret st
  | tableName :: rest =>
      let '(lastPercentReported, summary) := st in
      let currentPercent := Z.quot (int_wrap (i * 100)) totalTables in
      lastPercentReported ←
        (if bool_decide (currentPercent > lastPercentReported)
         then print (Progress currentPercent) ;; mret currentPercent
         else mret lastPercentReported);
      '(sourceCount, targetCount, err) ←
        CompareRowCounts adapter sourceDB targetDB tableName;
      match err with
      | Some e =>
          print (RowCountError tableName e) ;;
          verifyTables adapter sourceDB targetDB totalTables (i + 1) rest
            (lastPercentReported, summary)
      | None =>
          summary ←
            (if bool_decide (sourceCount ≠ targetCount)
             then
               print (RowCountsDiffer tableName sourceCount targetCount) ;;
               mret (set_DifferentTables
                       (ComparisonSummary.DifferentTables summary ++ [tableName])
                       (set_DifferentRowCounts
                          (<[tableName := (sourceCount, targetCount)]>
                             (ComparisonSummary.DifferentRowCounts summary))
                          summary))
             else mret summary);
          verifyTables adapter sourceDB targetDB totalTables (i + 1) rest
            (lastPercentReported, summary)
      end
  end.

Section Main.
Context {R : MapRange}.

(** The data-differences part of [main]: from [summary := ComparisonSummary{..}]
    to [fmt.Println("Progress: 100%")].  Returns the summary together with
    the four results of [compareDatabases]. *)
Definition main_dataDifferences (adapter : DatabaseAdapter) (sourceDB targetDB : DB)
    (sourceSchemas targetSchemas : gmap string TableSchema.t)
    : IO (ComparisonSummary.t
          * (list string * list string * list string * gmap string (list string))) :=
  let summary := ComparisonSummary.mk [] ∅ 0 false in
  let '(missingTables, extraTables, commonTables, schemaDifferences) :=
    compareDatabases sourceSchemas targetSchemas in
  print DataDifferencesHeader ;;
  print (ComparingTables (Z.of_nat (length commonTables))) ;;
  let totalTables := Z.of_nat (length commonTables) in
  let lastPercentReported := -1 in
  let summary := foldl schemaDiffStep summary (rangeOf schemaDifferences) in
  '(_, summary) ←
    verifyTables adapter sourceDB targetDB totalTables 0 commonTables
      (lastPercentReported, summary);
  print ProgressComplete ;;
  mret (summary, (missingTables, extraTables, commonTables, schemaDifferences)).

End Main.

(** The percentages printed by the progress lines of a run, in order; the
    closing line counts as 100. *)
Definition progressPercents (out : list Line) : list Z :=
  omap (fun l => match l with
                 | Progress p => Some p
                 | ProgressComplete => Some 100
                 | _ => None
                 end) out.

(** ** Example inputs *)

Definition col (name type nullable : string) : ColumnSchema.t :=
  ColumnSchema.mk name type nullable EmptyString (NullString.mk EmptyString false) EmptyString.

Definition usersV1 : TableSchema.t :=
  TableSchema.mk "users" [col "id" "int" "NO"; col "email" "varchar(255)" "YES"] [] [] ["id"].

Definition usersV2 : TableSchema.t :=
  TableSchema.mk "users" [col "id" "bigint" "NO"; col "email" "varchar(255)" "YES"] [] [] ["id"].

(** A database that answers every count query with [n] and every other
    query with NULL. *)
Definition constDB (n : Z) : DB :=
  {| scanInt := fun _ => Ok n;
     scanNamedNullInt64 := fun q => Ok (q, None);
     scanNullString := fun _ => Ok None |}.

(** Digits without the zeros at their end. *)
Fixpoint trimZeros (digits : list ascii) : list ascii :=
  match digits with
  | [] => []
  | d :: rest =>
      match trimZeros rest with
      | [] => if Ascii.eqb d "0" then [] else [d]
      | kept => d :: kept
      end
  end.

(** [strconv.FormatFloat(f, 'g', -1, 64)] of a float that holds the integer
    [v] exactly ([|v| < 2^53]): the plain digits below a million, and from
    a million on the shortest mantissa with an exponent of two digits at
    least, as in [1e+06] and [1.234567e+06]. *)
Definition formatFloat_g (v : Z) : string :=
  let sign := if bool_decide (v < 0) then "-" else EmptyString in
  if bool_decide (Z.abs v < 10 ^ 6) then sign +:+ pretty (Z.abs v)
  else
    match list_ascii_of_string (pretty (Z.abs v)) with
    | [] => EmptyString
    | d :: rest =>
        let exponent := length rest in
        sign
        +:+ String d (match trimZeros rest with
                      | [] => EmptyString
                      | fraction => "." +:+ string_of_list_ascii fraction
                      end)
        +:+ "e+" +:+ (if bool_decide (exponent < 10)%nat then "0" else EmptyString)
        +:+ pretty (Z.of_nat exponent)
    end.

(** [QueryRow(q).Scan(&n)] with [n] an [int64], when the driver hands over
    the [float64] that holds the integer [v]: [database/sql] formats the
    float as above and parses the text with [strconv.ParseInt], which takes
    a sign and digits only, so the scan fails from a million on. *)
Definition scanFloatAsInt64 (column : string) (v : Z) : result Z :=
  if bool_decide (Z.abs v < 10 ^ 6) then Ok v
  else Err ("sql: Scan error on column index 0, name " +:+ dquote +:+ column +:+ dquote
            +:+ ": converting driver.Value type float64 (" +:+ dquote
            +:+ formatFloat_g v +:+ dquote +:+ ") to a int64: invalid syntax").

(** A SQLite database whose tables all hold [count] rows with row
    identifiers adding up to [sum].  [COUNT( * )] is an INTEGER;
    [total(rowid)] is a REAL, which [CompareTableDataByChecksum] scans into
    an [int64]. *)
Definition sqliteDB (count sum : Z) : DB :=
  {| scanInt := fun q => if String.prefix "SELECT COUNT" q then Ok count
                         else scanFloatAsInt64 "total(rowid)" sum;
     scanNamedNullInt64 := fun _ => Err "near CHECKSUM: syntax error";
     scanNullString := fun _ => Err "no such function: MD5" |}.

(** Two versions of a table: [legacy] was dropped, [nickname] added, [id]
    widened, [email] made mandatory, and the key declared in the other
    order. *)
Definition accountsSource : TableSchema.t :=
  TableSchema.mk "accounts"
    [col "id" "int" "NO"; col "email" "varchar(255)" "YES"; col "legacy" "text" "YES"]
    [] [] ["id"; "email"].

Definition accountsTarget : TableSchema.t :=
  TableSchema.mk "accounts"
    [col "id" "bigint" "NO"; col "email" "varchar(255)" "NO"; col "nickname" "text" "YES"]
    [] [] ["email"; "id"].

(** The schemas of the end-to-end scenario: [users] and [orders] in the
    source, [users] and [products] in the target, [users] identical. *)
Definition scenarioSource : gmap string TableSchema.t :=
  <["users" := usersV1]> (<["orders" := usersV1]> ∅).

Definition scenarioTarget : gmap string TableSchema.t :=
  <["users" := usersV1]> (<["products" := usersV1]> ∅).

(** ** Vocabulary of the properties *)

(** Number of elements of [l] satisfying [p]. *)
Definition count_if {A} (p : A -> bool) (l : list A) : nat :=
  length (List.filter p l).

(** The column a difference entry is about, if it is about one. *)
Definition Difference_column (d : Difference) : option string :=
  match d with
  | ColumnOnlyInSource _ c | ColumnDataType _ c _ _
  | ColumnNullable _ c _ _ | ColumnOnlyInTarget _ c => Some c
  | PrimaryKeysDiffer _ _ _ => None
  end.

Definition aboutColumn (c : string) (d : Difference) : bool :=
  bool_decide (Difference_column d = Some c).

Definition isOnlyInSource (c : string) (d : Difference) : bool :=
  match d with ColumnOnlyInSource _ c' => bool_decide (c' = c) | _ => false end.

Definition isOnlyInTarget (c : string) (d : Difference) : bool :=
  match d with ColumnOnlyInTarget _ c' => bool_decide (c' = c) | _ => false end.

Definition isDataType (c : string) (d : Difference) : bool :=
  match d with ColumnDataType _ c' _ _ => bool_decide (c' = c) | _ => false end.

Definition isNullable (c : string) (d : Difference) : bool :=
  match d with ColumnNullable _ c' _ _ => bool_decide (c' = c) | _ => false end.

Definition isPrimaryKeys (d : Difference) : bool :=
  match d with PrimaryKeysDiffer _ _ _ => true | _ => false end.

(** The entries one iteration of the loop over [sourceColumns] appends. *)
Definition sourceColumnEntries (tableName : string)
    (targetColumns : gmap string ColumnSchema.t)
    (entry : string * ColumnSchema.t) : list Difference :=
  (sourceColumnStep tableName targetColumns (false, []) entry).2.

(** The entries one iteration of the loop over [targetColumns] appends. *)
Definition targetColumnEntries (tableName : string)
    (sourceColumns : gmap string ColumnSchema.t)
    (entry : string * ColumnSchema.t) : list Difference :=
  (targetColumnStep tableName sourceColumns (false, []) entry).2.

(** The same table with other indexes and foreign keys. *)
Definition withIndexesAndKeys (s : TableSchema.t)
    (indexes : list IndexSchema.t) (fks : list ForeignKeySchema.t) : TableSchema.t :=
  TableSchema.mk (TableSchema.Name s) (TableSchema.Columns s) indexes fks
    (TableSchema.PrimaryKeys s).

Definition columnNames (s : TableSchema.t) : list string :=
  ColumnSchema.Name <$> TableSchema.Columns s.

Section Vocabulary.
Context {R : MapRange}.

(** What [compareDatabases] records in [schemaDifferences] for a table of
    the source: the entries of [compareTableSchema], when the table is also
    in the target and the comparison reports differences. *)
Definition tableDiff (sourceSchemas targetSchemas : gmap string TableSchema.t)
    (tableName : string) : option (list string) :=
  match targetSchemas !! tableName with
  | None => None
  | Some _ =>
      let r := compareTableSchema tableName
                 (goIndex TableSchema.zero sourceSchemas tableName)
                 (goIndex TableSchema.zero targetSchemas tableName) in
      if r.1 then Some r.2 else None
  end.

End Vocabulary.

(** The percentage computed at index [i] of [totalTables] tables. *)
Definition currentPercentAt (totalTables i : Z) : Z :=
  Z.quot (int_wrap (i * 100)) totalTables.

(** Both count queries of a table succeed, with different counts. *)
Definition rowCountsDiffer (adapter : DatabaseAdapter) (sourceDB targetDB : DB)
    (tableName : string) : bool :=
  match scanInt sourceDB (countQuery adapter tableName),
        scanInt targetDB (countQuery adapter tableName) with
  | Ok sourceCount, Ok targetCount => bool_decide (sourceCount ≠ targetCount)
  | _, _ => false
  end.

(** How many times a string is listed. *)
Definition occurrences (item : string) (l : list string) : nat :=
  count_if (fun x => bool_decide (x = item)) l.

(** The table a difference entry names. *)
Definition Difference_table (d : Difference) : string :=
  match d with
  | ColumnOnlyInSource t _ | ColumnDataType t _ _ _ | ColumnNullable t _ _ _
  | ColumnOnlyInTarget t _ | PrimaryKeysDiffer t _ _ => t
  end.

(** The last character of a string. *)
Definition lastChar (s : string) : option ascii :=
  last (String.list_ascii_of_string s).

(** * The rest of the program *)

(** ** Go's [strings] package *)

(** [strings.HasPrefix(s, prefix)]. *)
Definition hasPrefix (s prefix : string) : bool := String.prefix prefix s.

(** [strings.Contains(s, substr)]. *)
Fixpoint strContains (s substr : string) : bool :=
  String.prefix substr s
  || match s with
     | EmptyString => false
     | String _ rest => strContains rest substr
     end.

(** [s[n:]], for [n] within the string. *)
Fixpoint sliceFrom (n : nat) (s : string) : string :=
  match n, s with
  | O, _ => s
  | S n', String _ rest => sliceFrom n' rest
  | S _, EmptyString => EmptyString
  end.

(** The text before and after the first occurrence of a one-byte
    separator, if it occurs. *)
Fixpoint strCut (sep : ascii) (s : string) : option (string * string) :=
  match s with
  | EmptyString => None
  | String c rest =>
      if bool_decide (c = sep) then Some (EmptyString, rest)
      else match strCut sep rest with
           | Some (before, after) => Some (String c before, after)
           | None => None
           end
  end.

(** [strings.SplitN(s, sep, 2)] for a one-byte [sep]. *)
Definition strSplitN2 (sep : ascii) (s : string) : list string :=
  match strCut sep s with
  | Some (before, after) => [before; after]
  | None => [s]
  end.

(** [strings.Split(s, sep)] for a one-byte [sep]. *)
Fixpoint strSplit (sep : ascii) (s : string) : list string :=
  match s with
  | EmptyString => [EmptyString]
  | String c rest =>
      if bool_decide (c = sep) then EmptyString :: strSplit sep rest
      else match strSplit sep rest with
           | first :: others => String c first :: others
           | [] => [String c EmptyString]
           end
  end.

(** [l[i]] of a slice of strings, where the code has checked the length. *)
Definition at_ (l : list string) (i : nat) : string := default EmptyString (l !! i).

(** ** Connection strings *)

(** [GetConnectStringFromURL] of the three adapters. *)
Definition GetConnectStringFromURL (a : DatabaseAdapter) (url : string) : string :=
  match a with
  | MySQLAdapter => if hasPrefix url "mysql://" then sliceFrom 8 url else url
  | PostgreSQLAdapter => url
  | SQLiteAdapter => if hasPrefix url "sqlite://" then sliceFrom 9 url else url
  end.

(** The data source name [MySQLAdapter.Connect] hands to [sql.Open]. *)
Definition MySQL_Connect_dsn (connectionString : string) : string :=
  if negb (strContains connectionString "tcp(") && strContains connectionString "@"
  then
    let parts := strSplitN2 "@" connectionString in
    if bool_decide (length parts = 2%nat) then
      let userPass := at_ parts 0 in
      let hostDBPart := at_ parts 1 in
      let hostPortDB := strSplitN2 "/" hostDBPart in
      if bool_decide (length hostPortDB = 2%nat) then
        let hostPort := at_ hostPortDB 0 in
        let dbname := at_ hostPortDB 1 in
        userPass +:+ "@tcp(" +:+ hostPort +:+ ")/" +:+ dbname
      else connectionString
    else connectionString
  else connectionString.

(** The data source name each adapter's [Connect] hands to [sql.Open]. *)
Definition Connect_dsn (a : DatabaseAdapter) (connectionString : string) : string :=
  match a with
  | MySQLAdapter => MySQL_Connect_dsn connectionString
  | PostgreSQLAdapter | SQLiteAdapter => connectionString
  end.

(** The driver name each adapter's [Connect] hands to [sql.Open]. *)
Definition Connect_driver (a : DatabaseAdapter) : string :=
  match a with
  | MySQLAdapter => "mysql"
  | PostgreSQLAdapter => "postgres"
  | SQLiteAdapter => "sqlite3"
  end.

(** The URL scheme [GetConnectStringFromURL] removes, by adapter; the
    PostgreSQL driver takes the URL as it is. *)
Definition urlScheme (a : DatabaseAdapter) : option string :=
  match a with
  | MySQLAdapter => Some "mysql://"
  | PostgreSQLAdapter => None
  | SQLiteAdapter => Some "sqlite://"
  end.

(** ** Multi-row queries *)

(** What [db.Query(text, args...)] and the loop over [rows.Next()] with
    [rows.Scan(..)] deliver: the query fails, or it yields rows, each of
    which scans or fails to scan. *)
Definition Rows (A : Type) : Type := result (list (result A)).

(** A [*sql.DB] as the schema extraction sees it: the rows of a query, by
    the shape of the destinations the rows are scanned into.  Each answer
    depends on the text of the query and on its arguments. *)
Record Catalog := {
  (* one string: the table lists, the PostgreSQL primary-key columns *)
  rowsName : string -> list string -> Rows string;
  (* MySQL DESCRIBE: Field, Type, Null, Key, Default, Extra *)
  rowsDescribe : string -> list string
                 -> Rows (string * string * string * string * NullString.t * string);
  (* MySQL SHOW INDEX: Table, Non_unique, Key_name, Column_name; the other
     ten columns are scanned and dropped *)
  rowsShowIndex : string -> list string -> Rows (string * Z * string * string);
  (* MySQL and PostgreSQL foreign keys: name, column, referenced table and
     column *)
  rowsForeignKey : string -> list string -> Rows (string * string * string * string);
  (* PostgreSQL columns: name, data type, is_nullable, default, extra *)
  rowsColumn : string -> list string
               -> Rows (string * string * string * NullString.t * string);
  (* PostgreSQL indexes: index name, column name, is_unique *)
  rowsIndex : string -> list string -> Rows (string * string * bool);
  (* SQLite table_info: cid, name, type, notnull, dflt_value, pk *)
  rowsTableInfo : string -> list string
                  -> Rows (Z * string * string * Z * NullString.t * Z);
  (* SQLite index_list: seq, name, unique, origin, partial *)
  rowsIndexList : string -> list string -> Rows (Z * string * Z * string * string);
  (* SQLite index_info: seqno, cid, name *)
  rowsIndexInfo : string -> list string -> Rows (Z * Z * string);
  (* SQLite foreign_key_list: id, seq, table, from, to, on_update,
     on_delete, match *)
  rowsForeignKeyList : string -> list string
                       -> Rows (Z * Z * string * string * string * string * string * string)
}.

(** A computation that logs the queries it issues, text and arguments. *)
Definition Queried (A : Type) : Type := list (string * list string) * A.

Definition Queried_ret {A} (a : A) : Queried A := ([], a).

Definition Queried_bind {A B} (m : Queried A) (k : A -> Queried B) : Queried B :=
  let '(log1, a) := m in
  let '(log2, b) := k a in
  (log1 ++ log2, b).

#[global] Instance Queried_mret : MRet Queried := @Queried_ret.
#[global] Instance Queried_mbind : MBind Queried := fun A B k m => Queried_bind m k.

(** [db.Query(text, args...)]. *)
Definition query {A} (answer : string -> list string -> Rows A)
    (text : string) (args : list string) : Queried (Rows A) :=
  ([(text, args)], answer text args).

(** [for rows.Next() { if err := rows.Scan(..); err != nil { return st, err };
    body }], where the body may itself return early with an error. *)
Fixpoint forRows {A S} (rows : list (result A))
    (body : S -> A -> Queried (S * option string)) (st : S)
    : Queried (S * option string) :=
  match rows with
  | [] => mret (st, None)
  | Err e :: _ => mret (st, Some e)
  | Ok a :: rest =>
      '(st, err) ← body st a;
      match err with
      | Some e => mret (st, Some e)
      | None => forRows rest body st
      end
  end.

(** ** The adapters: table lists *)

Definition tableListQuery (a : DatabaseAdapter) : string :=
  match a with
  | MySQLAdapter => "SHOW TABLES"
  | PostgreSQLAdapter =>
      "SELECT table_name FROM information_schema.tables WHERE table_schema='public' AND table_type='BASE TABLE'"
  | SQLiteAdapter =>
      "SELECT name FROM sqlite_master WHERE type='table' AND name NOT LIKE 'sqlite_%'"
  end.

(** Returns [(tables, err)]; the nil slice is the empty list.  The three
    adapters differ only in the query. *)
Definition GetTableList (a : DatabaseAdapter) (db : Catalog)
    : Queried (list string * option string) :=
  rows ← query (rowsName db) (tableListQuery a) [];
  match rows with
  | Err err => mret ([], Some err)
  | Ok rows =>
      '(tables, err) ← forRows rows (fun tables tableName =>
                                       mret (tables ++ [tableName], None)) [];
      match err with
      | Some err => mret ([], Some err)
      | None => mret (tables, None)
      end
  end.

(** ** The adapters: table schemas *)

Definition addColumn (c : ColumnSchema.t) (s : TableSchema.t) : TableSchema.t :=
  TableSchema.mk (TableSchema.Name s) (TableSchema.Columns s ++ [c])
    (TableSchema.Indexes s) (TableSchema.ForeignKeys s) (TableSchema.PrimaryKeys s).

Definition addPrimaryKey (k : string) (s : TableSchema.t) : TableSchema.t :=
  TableSchema.mk (TableSchema.Name s) (TableSchema.Columns s)
    (TableSchema.Indexes s) (TableSchema.ForeignKeys s) (TableSchema.PrimaryKeys s ++ [k]).

Definition addIndex (i : IndexSchema.t) (s : TableSchema.t) : TableSchema.t :=
  TableSchema.mk (TableSchema.Name s) (TableSchema.Columns s)
    (TableSchema.Indexes s ++ [i]) (TableSchema.ForeignKeys s) (TableSchema.PrimaryKeys s).

Definition addForeignKey (f : ForeignKeySchema.t) (s : TableSchema.t) : TableSchema.t :=
  TableSchema.mk (TableSchema.Name s) (TableSchema.Columns s)
    (TableSchema.Indexes s) (TableSchema.ForeignKeys s ++ [f]) (TableSchema.PrimaryKeys s).

Definition setColumns (cols : list ColumnSchema.t) (s : TableSchema.t) : TableSchema.t :=
  TableSchema.mk (TableSchema.Name s) cols
    (TableSchema.Indexes s) (TableSchema.ForeignKeys s) (TableSchema.PrimaryKeys s).

Definition setKey (key : string) (c : ColumnSchema.t) : ColumnSchema.t :=
  ColumnSchema.mk (ColumnSchema.Name c) (ColumnSchema.DataType c) (ColumnSchema.Nullable c)
    key (ColumnSchema.Default c) (ColumnSchema.Extra c).

(** The loops over a query's rows that the three [GetTableSchema] share in
    shape: run the query, return early if it fails, fold the rows. *)
Definition queryLoop {A} (answer : string -> list string -> Rows A)
    (text : string) (args : list string)
    (body : TableSchema.t -> A -> Queried (TableSchema.t * option string))
    (tableSchema : TableSchema.t) : Queried (TableSchema.t * option string) :=
  rows ← query answer text args;
  match rows with
  | Err err => mret (tableSchema, Some err)
  | Ok rows => forRows rows body tableSchema
  end.

(** [a; if err != nil { return tableSchema, err }; b]. *)
Definition andThen (a : Queried (TableSchema.t * option string))
    (b : TableSchema.t -> Queried (TableSchema.t * option string))
    : Queried (TableSchema.t * option string) :=
  '(tableSchema, err) ← a;
  match err with
  | Some e => mret (tableSchema, Some e)
  | None => b tableSchema
  end.

Definition MySQL_foreignKeyQuery (tableName : string) : string :=
  "SELECT CONSTRAINT_NAME, COLUMN_NAME, REFERENCED_TABLE_NAME, REFERENCED_COLUMN_NAME FROM INFORMATION_SCHEMA.KEY_COLUMN_USAGE WHERE TABLE_SCHEMA = DATABASE() AND TABLE_NAME = '"
    +:+ tableName +:+ "' AND REFERENCED_TABLE_NAME IS NOT NULL".

Definition MySQL_GetTableSchema (db : Catalog) (tableName : string)
    : Queried (TableSchema.t * option string) :=
  let tableSchema := TableSchema.mk tableName [] [] [] [] in
  andThen
    (queryLoop (rowsDescribe db) ("DESCRIBE `" +:+ tableName +:+ "`") []
       (fun tableSchema '(name, fieldType, null, key, defaultValue, extra) =>
          let col := ColumnSchema.mk name fieldType null key defaultValue extra in
          let tableSchema :=
            if bool_decide (key = "PRI") then addPrimaryKey name tableSchema
            else tableSchema in
          mret (addColumn col tableSchema, None))
       tableSchema)
    (fun tableSchema =>
  andThen
    (queryLoop (rowsShowIndex db) ("SHOW INDEX FROM `" +:+ tableName +:+ "`") []
       (fun tableSchema '(_, nonUnique, indexName, columnName) =>
          mret (addIndex (IndexSchema.mk indexName columnName nonUnique) tableSchema, None))
       tableSchema)
    (fun tableSchema =>
  queryLoop (rowsForeignKey db) (MySQL_foreignKeyQuery tableName) []
    (fun tableSchema '(name, columnName, referencedTable, referencedColumn) =>
       mret (addForeignKey
               (ForeignKeySchema.mk name columnName referencedTable referencedColumn)
               tableSchema, None))
    tableSchema)).

Definition PostgreSQL_columnsQuery : string :=
  "SELECT column_name, data_type, is_nullable, column_default, ''::text as extra FROM information_schema.columns WHERE table_schema = 'public' AND table_name = $1 ORDER BY ordinal_position".

Definition PostgreSQL_primaryKeysQuery : string :=
  "SELECT a.attname FROM pg_index i JOIN pg_attribute a ON a.attrelid = i.indrelid AND a.attnum = ANY(i.indkey) WHERE i.indrelid = $1::regclass AND i.indisprimary".

Definition PostgreSQL_indexesQuery : string :=
  "SELECT i.relname as index_name, a.attname as column_name, ix.indisunique as is_unique FROM pg_class t, pg_class i, pg_index ix, pg_attribute a WHERE t.oid = ix.indrelid AND i.oid = ix.indexrelid AND a.attrelid = t.oid AND a.attnum = ANY(ix.indkey) AND t.relkind = 'r' AND t.relname = $1".

Definition PostgreSQL_foreignKeysQuery : string :=
  "SELECT tc.constraint_name, kcu.column_name, ccu.table_name AS referenced_table, ccu.column_name AS referenced_column FROM information_schema.table_constraints tc JOIN information_schema.key_column_usage kcu ON tc.constraint_name = kcu.constraint_name AND tc.table_schema = kcu.table_schema JOIN information_schema.constraint_column_usage ccu ON ccu.constraint_name = tc.constraint_name AND ccu.table_schema = tc.table_schema WHERE tc.constraint_type = 'FOREIGN KEY' AND tc.table_name = $1".

(** [for i, col := range cols { if col.Name == pkColumn { cols[i].Key = "PRI" } }]. *)
Definition markPrimary (pkColumn : string) (cols : list ColumnSchema.t)
    : list ColumnSchema.t :=
  (fun col => if bool_decide (ColumnSchema.Name col = pkColumn)
              then setKey "PRI" col else col) <$> cols.

Definition PostgreSQL_GetTableSchema (db : Catalog) (tableName : string)
    : Queried (TableSchema.t * option string) :=
  let tableSchema := TableSchema.mk tableName [] [] [] [] in
  andThen
    (queryLoop (rowsColumn db) PostgreSQL_columnsQuery [tableName]
       (fun tableSchema '(name, dataType, nullable, defaultValue, extra) =>
          let col := ColumnSchema.mk name dataType nullable EmptyString defaultValue extra in
          mret (addColumn col tableSchema, None))
       tableSchema)
    (fun tableSchema =>
  andThen
    (queryLoop (rowsName db) PostgreSQL_primaryKeysQuery [tableName]
       (fun tableSchema pkColumn =>
          let tableSchema := addPrimaryKey pkColumn tableSchema in
          mret (setColumns (markPrimary pkColumn (TableSchema.Columns tableSchema))
                  tableSchema, None))
       tableSchema)
    (fun tableSchema =>
  andThen
    (queryLoop (rowsIndex db) PostgreSQL_indexesQuery [tableName]
       (fun tableSchema '(indexName, columnName, isUnique) =>
          let nonUnique := if negb isUnique then 1 else 0 in
          mret (addIndex (IndexSchema.mk indexName columnName nonUnique) tableSchema, None))
       tableSchema)
    (fun tableSchema =>
  queryLoop (rowsForeignKey db) PostgreSQL_foreignKeysQuery [tableName]
    (fun tableSchema '(name, columnName, referencedTable, referencedColumn) =>
       mret (addForeignKey
               (ForeignKeySchema.mk name columnName referencedTable referencedColumn)
               tableSchema, None))
    tableSchema))).

Definition SQLite_GetTableSchema (db : Catalog) (tableName : string)
    : Queried (TableSchema.t * option string) :=
  let tableSchema := TableSchema.mk tableName [] [] [] [] in
  andThen
    (queryLoop (rowsTableInfo db) ("PRAGMA table_info(" +:+ tableName +:+ ")") []
       (fun tableSchema '(cid, name, typeName, notNull, dfltValue, pk) =>
          let nullable := if bool_decide (notNull = 0) then "YES" else "NO" in
          let key := if bool_decide (pk > 0) then "PRI" else EmptyString in
          let col := ColumnSchema.mk name typeName nullable key dfltValue EmptyString in
          let tableSchema :=
            if bool_decide (pk > 0) then addPrimaryKey name tableSchema
            else tableSchema in
          mret (addColumn col tableSchema, None))
       tableSchema)
    (fun tableSchema =>
  andThen
    (queryLoop (rowsIndexList db) ("PRAGMA index_list(" +:+ tableName +:+ ")") []
       (fun tableSchema '(seq, indexName, unique, origin, partial) =>
          queryLoop (rowsIndexInfo db) ("PRAGMA index_info(" +:+ indexName +:+ ")") []
            (fun tableSchema '(seqno, cid, colName) =>
               mret (addIndex
                       (IndexSchema.mk indexName colName (int_wrap (1 - unique)))
                       tableSchema, None))
            tableSchema)
       tableSchema)
    (fun tableSchema =>
  queryLoop (rowsForeignKeyList db) ("PRAGMA foreign_key_list(" +:+ tableName +:+ ")") []
    (fun tableSchema '(id, seq, table, from, to, onUpdate, onDelete, match_) =>
       mret (addForeignKey
               (ForeignKeySchema.mk ("fk_" +:+ tableName +:+ "_" +:+ fmt_int id)
                  from table to)
               tableSchema, None))
    tableSchema)).

(** Method dispatch of [adapter.GetTableSchema]. *)
Definition GetTableSchema (a : DatabaseAdapter) :=
  match a with
  | MySQLAdapter => MySQL_GetTableSchema
  | PostgreSQLAdapter => PostgreSQL_GetTableSchema
  | SQLiteAdapter => SQLite_GetTableSchema
  end.

(** ** compare.go: all table schemas *)

(** [for _, table := range tables], over the local [schemas]; returns
    [(schemas, err)], the nil map of the error return being the empty
    map. *)
Fixpoint getAllTableSchemas_loop (adapter : DatabaseAdapter) (db : Catalog)
    (tables : list string) (schemas : gmap string TableSchema.t)
    : Queried (gmap string TableSchema.t * option string) :=
  match tables with
  | [] => mret (schemas, None)
  | table :: rest =>
      '(schema, err) ← GetTableSchema adapter db table;
      match err with
      | Some e => mret (∅, Some e)
      | None => getAllTableSchemas_loop adapter db rest (<[table := schema]> schemas)
      end
  end.

Definition getAllTableSchemas (adapter : DatabaseAdapter) (db : Catalog)
    (tables : list string)
    : Queried (gmap string TableSchema.t * option string) :=
  getAllTableSchemas_loop adapter db tables ∅.

(** ** util.go: database information *)

Module DatabaseInfo.
Record t := mk {
  Host : string;
  DatabaseName : string;
  TableCount : Z;
  TotalSize : Z
}.
End DatabaseInfo.

(** The host and database name [GetDatabaseInfo] reads off the connection
    string. *)
Definition connectionTarget (connectionString : string) : string * string :=
  if strContains connectionString "@" then
    let parts := strSplit "@" connectionString in
    if bool_decide (1 < length parts)%nat then
      let hostPart := strSplit "/" (at_ parts 1) in
      let host := at_ hostPart 0 in
      if bool_decide (1 < length hostPart)%nat
      then (host, at_ (strSplit "?" (at_ hostPart 1)) 0)
      else (host, EmptyString)
    else (EmptyString, EmptyString)
  else ("local", connectionString).

(** The size query [GetDatabaseInfo] picks by the type of the adapter. *)
Definition sizeQuery (a : DatabaseAdapter) : string :=
  match a with
  | MySQLAdapter =>
      "SELECT SUM(data_length + index_length) FROM information_schema.tables WHERE table_schema = DATABASE()"
  | PostgreSQLAdapter => "SELECT pg_database_size(current_database())"
  | SQLiteAdapter => "SELECT page_count * page_size FROM pragma_page_count(), pragma_page_size()"
  end.

(** Returns [(info, err)].  [catalog] and [db] are the two views of the one
    database handle. *)
Definition GetDatabaseInfo (adapter : DatabaseAdapter) (catalog : Catalog) (db : DB)
    (connectionString : string) : Queried (DatabaseInfo.t * option string) :=
  let '(host, databaseName) := connectionTarget connectionString in
  let info := DatabaseInfo.mk host databaseName 0 0 in
  '(tables, err) ← GetTableList adapter catalog;
  match err with
  | Some e => mret (info, Some e)
  | None =>
      let info := DatabaseInfo.mk host databaseName
                    (Z.of_nat (length tables)) 0 in
      size ← (([(sizeQuery adapter, [])], scanInt db (sizeQuery adapter))
               : Queried (result Z));
      match size with
      | Ok size => mret (DatabaseInfo.mk host databaseName
                           (Z.of_nat (length tables)) size, None)
      | Err _ => mret (info, None)
      end
  end.

(** ** Vocabulary of the further properties *)

(** The names of the columns marked as primary, in column order. *)
Definition primaryColumns (cols : list ColumnSchema.t) : list string :=
  ColumnSchema.Name <$> filter (fun c => ColumnSchema.Key c = "PRI") cols.

(** The text before the first occurrence of a separator, or all of it. *)
Definition before (sep : ascii) (s : string) : string :=
  match strCut sep s with
  | Some (b, _) => b
  | None => s
  end.

(** The rows of a result up to the first one that fails to scan, and the
    error of that row. *)
Fixpoint scanned {A} (rows : list (result A)) : list A * option string :=
  match rows with
  | [] => ([], None)
  | Err e :: _ => ([], Some e)
  | Ok a :: rest => let '(l, err) := scanned rest in (a :: l, err)
  end.

(** ** Further example inputs *)

(** A database in which every query succeeds without rows. *)
Definition emptyCatalog : Catalog :=
  {| rowsName := fun _ _ => Ok [];
     rowsDescribe := fun _ _ => Ok [];
     rowsShowIndex := fun _ _ => Ok [];
     rowsForeignKey := fun _ _ => Ok [];
     rowsColumn := fun _ _ => Ok [];
     rowsIndex := fun _ _ => Ok [];
     rowsTableInfo := fun _ _ => Ok [];
     rowsIndexList := fun _ _ => Ok [];
     rowsIndexInfo := fun _ _ => Ok [];
     rowsForeignKeyList := fun _ _ => Ok [] |}.

(** A SQLite database with the tables [users] and [orders], both with an
    [id] key and a nullable [note]; [orders] cannot be described. *)
Definition shopCatalog : Catalog :=
  {| rowsName := fun _ _ => Ok [Ok "users"; Ok "orders"];
     rowsDescribe := fun _ _ => Ok [];
     rowsShowIndex := fun _ _ => Ok [];
     rowsForeignKey := fun _ _ => Ok [];
     rowsColumn := fun _ _ => Ok [];
     rowsIndex := fun _ _ => Ok [];
     rowsTableInfo := fun q _ =>
       if bool_decide (q = "PRAGMA table_info(orders)") then Err "database is locked"
       else Ok [Ok (0, "id", "INTEGER", 1, NullString.mk EmptyString false, 1);
                Ok (1, "note", "TEXT", 0, NullString.mk EmptyString false, 0)];
     rowsIndexList := fun _ _ => Ok [Ok (0, "idx_note", 0, "c", "0")];
     rowsIndexInfo := fun _ _ => Ok [Ok (0, 1, "note")];
     rowsForeignKeyList := fun _ _ => Ok [] |}.

(** What [compareTableSchema] looks at in a column. *)
Definition comparedPart (c : ColumnSchema.t) : string * string :=
  (ColumnSchema.DataType c, ColumnSchema.Nullable c).

(** The uniqueness flag the index list gives to each (index name, column)
    pair. *)
Definition indexUniqueness (indexes : list IndexSchema.t)
    : gmap string (gmap string Z) :=
  (fun columns : gmap string IndexSchema.t => IndexSchema.NonUnique <$> columns)
    <$> indexMap indexes.

(** What one iteration of the row-count loop prints after its queries, and
    the summary it leaves, by the answer of [CompareRowCounts]. *)
Definition rowCountLines (tableName : string) (r : Z * Z * option string) : list Line :=
  match r with
  | (_, _, Some e) => [RowCountError tableName e]
  | (sourceCount, targetCount, None) =>
      if bool_decide (sourceCount ≠ targetCount)
      then [RowCountsDiffer tableName sourceCount targetCount] else []
  end.

Definition rowCountSummary (tableName : string) (r : Z * Z * option string)
    (summary : ComparisonSummary.t) : ComparisonSummary.t :=
  match r with
  | (_, _, Some e) => summary
  | (sourceCount, targetCount, None) =>
      if bool_decide (sourceCount ≠ targetCount)
      then set_DifferentTables
             (ComparisonSummary.DifferentTables summary ++ [tableName])
             (set_DifferentRowCounts
                (<[tableName := (sourceCount, targetCount)]>
                   (ComparisonSummary.DifferentRowCounts summary))
                summary)
      else summary
  end.

(** The row-count failures a run reports, table and error, in order. *)
Definition rowCountErrors (out : list Line) : list (string * string) :=
  omap (fun l => match l with RowCountError t e => Some (t, e) | _ => None end) out.

(** The counts of a table when both count queries succeed and differ. *)
Definition differingCounts (adapter : DatabaseAdapter) (sourceDB targetDB : DB)
    (tableName : string) : option (Z * Z) :=
  match scanInt sourceDB (countQuery adapter tableName),
        scanInt targetDB (countQuery adapter tableName) with
  | Ok sourceCount, Ok targetCount =>
      if bool_decide (sourceCount ≠ targetCount)
      then Some (sourceCount, targetCount) else None
  | _, _ => None
  end.

(** ** main: the comparison summary *)

(** One constructor per print statement of the summary, carrying its
    arguments. *)
Inductive SummaryLine :=
| MissingTablesList (missingTables : list string)
| ExtraTablesList (extraTables : list string)
| SummaryHeader
| NoDifferences
| FoundDifferences (n : Z)
| RowCountBullet (tableName : string) (source target : Z)
| MissingBullet (tableName : string)
| ExtraBullet (tableName : string)
| SchemaBullet (tableName first : string)
| MoreDifferences (n : Z)
| Finished.

Definition SummaryLine_render (l : SummaryLine) : string :=
  match l with
  | MissingTablesList ts => "Tables in source but not in target: " +:+ fmt_slice ts
  | ExtraTablesList ts => "Tables in target but not in source: " +:+ fmt_slice ts
  | SummaryHeader => newline +:+ "=== Comparison Summary ==="
  | NoDifferences => "No differences found between the databases."
  | FoundDifferences n => "Found differences in " +:+ fmt_int n +:+ " tables:"
  | RowCountBullet t s g =>
      "- " +:+ t +:+ " (row counts differ: source=" +:+ fmt_int s
        +:+ ", target=" +:+ fmt_int g +:+ ")"
  | MissingBullet t => "- " +:+ t +:+ " (exists in source but not in target)"
  | ExtraBullet t => "- " +:+ t +:+ " (exists in target but not in source)"
  | SchemaBullet t first => "- " +:+ t +:+ " (" +:+ first +:+ ")"
  | MoreDifferences n => "  (and " +:+ fmt_int n +:+ " more differences)"
  | Finished => newline +:+ "=== Database Comparison Finished ==="
  end.

Definition rowCountBullet (entry : string * (Z * Z)) : SummaryLine :=
  let '(tableName, (source, target)) := entry in
  RowCountBullet tableName source target.

(** Body of [for tableName, diffs := range schemaDifferences] in the
    summary. *)
Definition schemaBullets (differentRowCounts : gmap string (Z * Z))
    (entry : string * list string) : list SummaryLine :=
  let '(tableName, diffs) := entry in
  match differentRowCounts !! tableName with
  | Some _ => []
  | None =>
      match diffs with
      | [] => []
      | first :: _ =>
          SchemaBullet tableName first
          :: (if bool_decide (1 < length diffs)%nat
              then [MoreDifferences (Z.of_nat (length diffs) - 1)] else [])
      end
  end.

Section Summary.
Context {R : MapRange}.

(** The four loops of the [else] branch of the summary. *)
Definition summaryBullets (summary : ComparisonSummary.t)
    (missingTables extraTables : list string)
    (schemaDifferences : gmap string (list string)) : list SummaryLine :=
  (rowCountBullet <$> rangeOf (ComparisonSummary.DifferentRowCounts summary))
  ++ (MissingBullet <$> missingTables)
  ++ (ExtraBullet <$> extraTables)
  ++ flat_map (schemaBullets (ComparisonSummary.DifferentRowCounts summary))
       (rangeOf schemaDifferences).

(** [main] from [fmt.Println("\n=== Comparison Summary ===")] to its end. *)
Definition main_summary (summary : ComparisonSummary.t)
    (missingTables extraTables : list string)
    (schemaDifferences : gmap string (list string)) : list SummaryLine :=
  [SummaryHeader]
  ++ (if bool_decide (length (ComparisonSummary.DifferentTables summary) = 0%nat)
         && bool_decide (length extraTables = 0%nat)
         && bool_decide (size (ComparisonSummary.DifferentRowCounts summary) = 0%nat)
         && bool_decide (length missingTables = 0%nat)
      then [NoDifferences]
      else FoundDifferences
             (int_wrap (int_wrap (Z.of_nat (length (ComparisonSummary.DifferentTables summary))
                                  + Z.of_nat (length extraTables))
                        + Z.of_nat (length missingTables)))
           :: summaryBullets summary missingTables extraTables schemaDifferences)
  ++ [Finished].

(** The same part of the earlier [main] kept in the sources: it lists the
    missing and the extra tables before the summary, and decides and counts
    by [summary.DifferentTables] alone. *)
Definition main_summary_v1 (summary : ComparisonSummary.t)
    (missingTables extraTables : list string)
    (schemaDifferences : gmap string (list string)) : list SummaryLine :=
  (if bool_decide (0 < length missingTables)%nat
   then [MissingTablesList missingTables] else [])
  ++ (if bool_decide (0 < length extraTables)%nat
      then [ExtraTablesList extraTables] else [])
  ++ [SummaryHeader]
  ++ (if bool_decide (length (ComparisonSummary.DifferentTables summary) = 0%nat)
      then [NoDifferences]
      else FoundDifferences (Z.of_nat (length (ComparisonSummary.DifferentTables summary)))
           :: summaryBullets summary missingTables extraTables schemaDifferences)
  ++ [Finished].

(** What [main] prints after [Progress: 100%], from the two schema mappings
    and the two databases. *)
Definition main_report (adapter : DatabaseAdapter) (sourceDB targetDB : DB)
    (sourceSchemas targetSchemas : gmap string TableSchema.t) : list SummaryLine :=
  let '(summary, (missingTables, extraTables, _, schemaDifferences)) :=
    (main_dataDifferences adapter sourceDB targetDB sourceSchemas targetSchemas).2 in
  main_summary summary missingTables extraTables schemaDifferences.

Definition main_report_v1 (adapter : DatabaseAdapter) (sourceDB targetDB : DB)
    (sourceSchemas targetSchemas : gmap string TableSchema.t) : list SummaryLine :=
  let '(summary, (missingTables, extraTables, _, schemaDifferences)) :=
    (main_dataDifferences adapter sourceDB targetDB sourceSchemas targetSchemas).2 in
  main_summary_v1 summary missingTables extraTables schemaDifferences.

(** The tables with schema differences whose row counts differ as well. *)
Definition doublyDifferent (adapter : DatabaseAdapter) (sourceDB targetDB : DB)
    (sourceSchemas targetSchemas : gmap string TableSchema.t) : list string :=
  List.filter (fun t => bool_decide (is_Some (differingCounts adapter sourceDB targetDB t)))
    (rangeOf (compareDatabases sourceSchemas targetSchemas).2).*1.

End Summary.

(** The table each [- table (..)] line of a summary names, in order. *)
Definition bulletTables (out : list SummaryLine) : list string :=
  omap (fun l => match l with
                 | RowCountBullet t _ _ | MissingBullet t | ExtraBullet t
                 | SchemaBullet t _ => Some t
                 | _ => None
                 end) out.

(** The condition under which the summary of [main] says that nothing
    differs. *)
Definition nothingToReport (summary : ComparisonSummary.t)
    (missingTables extraTables : list string) : bool :=
  bool_decide (length (ComparisonSummary.DifferentTables summary) = 0%nat)
  && bool_decide (length extraTables = 0%nat)
  && bool_decide (size (ComparisonSummary.DifferentRowCounts summary) = 0%nat)
  && bool_decide (length missingTables = 0%nat).

(** * Properties *)

(** ** Ranging over a map *)

Section RangeFacts.
Context {R : MapRange}.

Lemma rangeOf_lookup {V} (m : gmap string V) (k : string) (v : V) :
  (k, v) ∈ rangeOf m ↔ m !! k = Some v.
Proof. by rewrite rangeOf_perm, elem_of_map_to_list. Qed.

Lemma rangeOf_keys {V} (m : gmap string V) (k : string) :
  k ∈ (rangeOf m).*1 ↔ is_Some (m !! k).
Proof.
  rewrite list_elem_of_fmap. split.
  - intros [[k' v] [-> Hin]]. apply rangeOf_lookup in Hin. by exists v.
  - intros [v Hv]. exists (k, v). split; [done|]. by apply rangeOf_lookup.
Qed.

Lemma rangeOf_NoDup {V} (m : gmap string V) : NoDup (rangeOf m).*1.
Proof. rewrite rangeOf_perm. apply NoDup_fst_map_to_list. Qed.

Lemma rangeOf_empty {V} : rangeOf (∅ : gmap string V) = [].
Proof.
  apply Permutation_nil_r. rewrite rangeOf_perm. by rewrite map_to_list_empty.
Qed.

Lemma rangeOf_singleton {V} (k : string) (v : V) :
  rangeOf ({[k := v]} : gmap string V) = [(k, v)].
Proof.
  apply Permutation_singleton_r. rewrite rangeOf_perm.
  by rewrite map_to_list_singleton.
Qed.

(** An early-exit search over a map does not depend on the order. *)
Lemma existsb_rangeOf {V} (p : string * V -> bool) (m : gmap string V) :
  existsb p (rangeOf m) = true ↔ ∃ k v, m !! k = Some v ∧ p (k, v) = true.
Proof.
  rewrite existsb_exists. split.
  - intros [[k v] [Hin Hp]]. exists k, v. split; [|done].
    apply rangeOf_lookup. by apply list_elem_of_In.
  - intros (k & v & Hkv & Hp). exists (k, v). split; [|done].
    apply list_elem_of_In. by apply rangeOf_lookup.
Qed.

End RangeFacts.

(** ** util.go *)

Lemma contains_spec (slice : list string) (item : string) :
  contains slice item = true ↔ item ∈ slice.
Proof.
  induction slice as [|a rest IH]; simpl.
  - split; [done|]. by intros ?%not_elem_of_nil.
  - rewrite elem_of_cons. case_bool_decide; subst.
    + split; auto.
    + rewrite IH. split; [auto|]. intros [?|?]; [congruence|done].
Qed.

Lemma sliceSet_fold (a : list string) (m : gmap string bool) (x : string) :
  foldl (fun m val => <[val := true]> m) m a !! x
  = if decide (x ∈ a) then Some true else m !! x.
Proof.
  revert m. induction a as [|y a IH]; intros m; cbn [foldl].
  - by rewrite decide_False by apply not_elem_of_nil.
  - rewrite IH. destruct (decide (x ∈ a)) as [Hin|Hnin].
    + rewrite decide_True; [done|]. by right.
    + destruct (decide (x = y)) as [->|Hne].
      * rewrite decide_True by left. apply lookup_insert_eq.
      * rewrite decide_False by (rewrite elem_of_cons; tauto).
        by apply lookup_insert_ne.
Qed.

Lemma sliceSet_lookup (a : list string) (x : string) :
  sliceSet a !! x = if decide (x ∈ a) then Some true else None.
Proof. unfold sliceSet. rewrite sliceSet_fold. by rewrite lookup_empty. Qed.

Lemma sliceSet_index (a : list string) (x : string) :
  goIndex false (sliceSet a) x = bool_decide (x ∈ a).
Proof.
  unfold goIndex. rewrite sliceSet_lookup.
  destruct (decide (x ∈ a)); simpl.
  - by rewrite bool_decide_eq_true_2.
  - by rewrite bool_decide_eq_false_2.
Qed.

Section UtilFacts.
Context {R : MapRange}.

(** Some element of [a] is not in [b]. *)
Lemma sliceSet_search (a b : list string) :
  existsb (fun '(val, _) => negb (goIndex false (sliceSet b) val)) (rangeOf (sliceSet a)) = true
  ↔ ∃ x, x ∈ a ∧ x ∉ b.
Proof.
  rewrite existsb_rangeOf. split.
  - intros (k & v & Hk & Hp). exists k.
    rewrite sliceSet_lookup in Hk. rewrite sliceSet_index in Hp.
    destruct (decide (k ∈ a)); [|done]. split; [done|].
    apply negb_true_iff in Hp. by apply bool_decide_eq_false in Hp.
  - intros (x & Ha & Hb). exists x, true. split.
    + rewrite sliceSet_lookup. by rewrite decide_True.
    + rewrite sliceSet_index. apply negb_true_iff. by apply bool_decide_eq_false.
Qed.

Lemma compareStringSlices_spec (a b : list string) :
  compareStringSlices a b = true
  ↔ length a = length b ∧ ∀ x, x ∈ a ↔ x ∈ b.
Proof.
  unfold compareStringSlices.
  destruct (Nat.eqb_spec (length a) (length b)) as [Hlen|Hlen]; simpl.
  2: { split; [done|]. by intros [? _]. }
  destruct (existsb _ (rangeOf (sliceSet a))) eqn:Ha.
  { apply sliceSet_search in Ha as (x & Hxa & Hxb).
    split; [done|]. intros [_ Hset]. by apply Hset in Hxa. }
  destruct (existsb _ (rangeOf (sliceSet b))) eqn:Hb.
  { apply sliceSet_search in Hb as (x & Hxb & Hxa).
    split; [done|]. intros [_ Hset]. by apply Hset in Hxb. }
  split; [|done]. intros _. split; [done|]. intros x. split; intros Hx.
  - destruct (decide (x ∈ b)) as [|Hn]; [done|].
    assert (existsb (fun '(val, _) => negb (goIndex false (sliceSet b) val))
              (rangeOf (sliceSet a)) = true) as Hc
      by (apply sliceSet_search; eauto).
    congruence.
  - destruct (decide (x ∈ a)) as [|Hn]; [done|].
    assert (existsb (fun '(val, _) => negb (goIndex false (sliceSet a) val))
              (rangeOf (sliceSet b)) = true) as Hc
      by (apply sliceSet_search; eauto).
    congruence.
Qed.

End UtilFacts.

(** ** Counting *)

Lemma count_if_app {A} (p : A -> bool) (l1 l2 : list A) :
  count_if p (l1 ++ l2) = (count_if p l1 + count_if p l2)%nat.
Proof. unfold count_if. by rewrite List.filter_app, length_app. Qed.

Lemma count_if_filter {A} (p q : A -> bool) (l : list A) :
  (∀ x, p x = true → q x = true) →
  count_if p (List.filter q l) = count_if p l.
Proof.
  intros Hpq. unfold count_if. induction l as [|x l IH]; [done|]. simpl.
  destruct (q x) eqn:Hq; simpl.
  - destruct (p x); simpl; by rewrite IH.
  - destruct (p x) eqn:Hp; [|done]. apply Hpq in Hp. congruence.
Qed.

(** ** Loops that append *)

(** In a list of keyed entries without repeated keys, the contributions
    selected by [p] come from the one entry whose key is [c], when only
    that key contributes. *)
Section KeyedContributions.
Context {V A : Type} (p : A -> bool) (f : string * V -> list A) (c : string).
Hypothesis others : ∀ k v, k ≠ c → List.filter p (f (k, v)) = [].

Lemma filter_flat_map_absent (l : list (string * V)) :
  c ∉ l.*1 → List.filter p (flat_map f l) = [].
Proof.
  induction l as [|[k v] l IH]; [done|]. simpl. intros Hc.
  apply not_elem_of_cons in Hc as [Hne Hc].
  rewrite List.filter_app, others by done. by apply IH.
Qed.

Lemma filter_flat_map_present (l : list (string * V)) (v : V) :
  NoDup l.*1 → (c, v) ∈ l →
  List.filter p (flat_map f l) = List.filter p (f (c, v)).
Proof.
  induction l as [|[k w] l IH]; simpl; intros Hnd Hin.
  - by apply not_elem_of_nil in Hin.
  - apply NoDup_cons in Hnd as [Hk Hnd]. rewrite List.filter_app.
    apply elem_of_cons in Hin as [Heq|Hin].
    + injection Heq as <- <-.
      by rewrite filter_flat_map_absent, app_nil_r.
    + assert (k ≠ c) as Hne.
      { intros ->. apply Hk. apply list_elem_of_fmap. by exists (c, v). }
      rewrite others by done. by apply IH.
Qed.

Lemma filter_range_key `{R : MapRange} (m : gmap string V) :
  List.filter p (flat_map f (rangeOf m))
  = match m !! c with
    | Some v => List.filter p (f (c, v))
    | None => []
    end.
Proof.
  destruct (m !! c) as [v|] eqn:Hc.
  - apply filter_flat_map_present; [apply rangeOf_NoDup|by apply rangeOf_lookup].
  - apply filter_flat_map_absent. rewrite rangeOf_keys, Hc. by intros [? ?].
Qed.

End KeyedContributions.

(** ** compareTableSchema *)

Lemma columnMap_fold (cols : list ColumnSchema.t) (m : gmap string ColumnSchema.t)
    (c : string) :
  is_Some (foldl (fun m col => <[ColumnSchema.Name col := col]> m) m cols !! c)
  ↔ c ∈ ColumnSchema.Name <$> cols ∨ is_Some (m !! c).
Proof.
  revert m. induction cols as [|col cols IH]; intros m; cbn [foldl fmap list_fmap].
  - split; [by right|]. intros [Hin|?]; [|done]. by apply not_elem_of_nil in Hin.
  - rewrite IH, elem_of_cons.
    destruct (decide (ColumnSchema.Name col = c)) as [->|Hne].
    + rewrite lookup_insert_eq. split; [|by intros _; right]. intros _. by left; left.
    + rewrite lookup_insert_ne by done. split.
      * intros [?|?]; [left; by right|by right].
      * intros [[?|?]|?]; [congruence|by left|by right].
Qed.

Lemma columnMap_is_Some (cols : list ColumnSchema.t) (c : string) :
  is_Some (columnMap cols !! c) ↔ c ∈ ColumnSchema.Name <$> cols.
Proof.
  unfold columnMap. rewrite columnMap_fold, lookup_empty.
  split; [|by left]. intros [?|[? ?]]; done.
Qed.

Lemma columnMap_None (cols : list ColumnSchema.t) (c : string) :
  columnMap cols !! c = None ↔ c ∉ ColumnSchema.Name <$> cols.
Proof. by rewrite <- columnMap_is_Some, eq_None_not_Some. Qed.

(** The map holds columns of the list under their own names. *)
Lemma columnMap_fold_Some (cols : list ColumnSchema.t) (m : gmap string ColumnSchema.t)
    (c : string) (x : ColumnSchema.t) :
  foldl (fun m col => <[ColumnSchema.Name col := col]> m) m cols !! c = Some x →
  (x ∈ cols ∧ ColumnSchema.Name x = c) ∨ m !! c = Some x.
Proof.
  revert m. induction cols as [|col cols IH]; intros m; cbn [foldl]; [by right|].
  intros [[Hin Hn]|Hm]%IH.
  - left. split; [by right|done].
  - destruct (decide (ColumnSchema.Name col = c)) as [<-|Hne].
    + rewrite lookup_insert_eq in Hm. injection Hm as <-. left. split; [by left|done].
    + rewrite lookup_insert_ne in Hm by done. by right.
Qed.

Lemma columnMap_Some (cols : list ColumnSchema.t) (c : string) (x : ColumnSchema.t) :
  columnMap cols !! c = Some x → x ∈ cols ∧ ColumnSchema.Name x = c.
Proof.
  intros [?|Hm]%columnMap_fold_Some; [done|]. by rewrite lookup_empty in Hm.
Qed.

(** With distinct column names the map holds every column of the list. *)
Lemma columnMap_NoDup (cols : list ColumnSchema.t) (x : ColumnSchema.t) :
  NoDup (ColumnSchema.Name <$> cols) → x ∈ cols →
  columnMap cols !! ColumnSchema.Name x = Some x.
Proof.
  intros Hnd Hx.
  assert (is_Some (columnMap cols !! ColumnSchema.Name x)) as [y Hy].
  { apply columnMap_is_Some, list_elem_of_fmap. by exists x. }
  rewrite Hy. f_equal.
  apply columnMap_Some in Hy as [Hy Hn].
  apply list_elem_of_lookup in Hx as [i Hi], Hy as [j Hj].
  assert (i = j) as ->; [|congruence].
  eapply NoDup_lookup; [done| |]; rewrite list_lookup_fmap.
  - by rewrite Hi.
  - rewrite Hj. simpl. by rewrite Hn.
Qed.

Lemma sourceColumnEntries_eq (tableName : string)
    (targetColumns : gmap string ColumnSchema.t) (k : string) (v : ColumnSchema.t) :
  sourceColumnEntries tableName targetColumns (k, v)
  = match targetColumns !! k with
    | None => [ColumnOnlyInSource tableName k]
    | Some w =>
        (if bool_decide (ColumnSchema.DataType v ≠ ColumnSchema.DataType w)
         then [ColumnDataType tableName k (ColumnSchema.DataType v) (ColumnSchema.DataType w)]
         else [])
        ++ (if bool_decide (ColumnSchema.Nullable v ≠ ColumnSchema.Nullable w)
            then [ColumnNullable tableName k (ColumnSchema.Nullable v) (ColumnSchema.Nullable w)]
            else [])
    end.
Proof.
  unfold sourceColumnEntries, sourceColumnStep, report.
  destruct (targetColumns !! k); [|done].
  by repeat case_bool_decide.
Qed.

Lemma targetColumnEntries_eq (tableName : string)
    (sourceColumns : gmap string ColumnSchema.t) (k : string) (v : ColumnSchema.t) :
  targetColumnEntries tableName sourceColumns (k, v)
  = match sourceColumns !! k with
    | None => [ColumnOnlyInTarget tableName k]
    | Some _ => []
    end.
Proof.
  unfold targetColumnEntries, targetColumnStep, report.
  by destruct (sourceColumns !! k).
Qed.

Lemma sourceColumnStep_snd (tableName : string)
    (targetColumns : gmap string ColumnSchema.t) (st : DiffState)
    (e : string * ColumnSchema.t) :
  (sourceColumnStep tableName targetColumns st e).2
  = st.2 ++ sourceColumnEntries tableName targetColumns e.
Proof.
  destruct e as [k v]. rewrite sourceColumnEntries_eq.
  unfold sourceColumnStep, report.
  destruct (targetColumns !! k); [|done].
  repeat case_bool_decide; simpl; by rewrite ?app_nil_r, <- ?app_assoc.
Qed.

Lemma targetColumnStep_snd (tableName : string)
    (sourceColumns : gmap string ColumnSchema.t) (st : DiffState)
    (e : string * ColumnSchema.t) :
  (targetColumnStep tableName sourceColumns st e).2
  = st.2 ++ targetColumnEntries tableName sourceColumns e.
Proof.
  destruct e as [k v]. rewrite targetColumnEntries_eq.
  unfold targetColumnStep, report.
  destruct (sourceColumns !! k); simpl; by rewrite ?app_nil_r.
Qed.

(** A loop whose body appends is a concatenation of what each iteration
    appends. *)
Lemma foldl_appends {S A B} (step : S -> A -> S) (proj : S -> list B)
    (each : A -> list B) (l : list A) (st : S) :
  (∀ st a, proj (step st a) = proj st ++ each a) →
  proj (foldl step st l) = proj st ++ flat_map each l.
Proof.
  intros Hstep. revert st. induction l as [|a l IH]; intros st; simpl.
  - by rewrite app_nil_r.
  - by rewrite IH, Hstep, <- app_assoc.
Qed.

Section TableSchemaFacts.
Context {R : MapRange}.

Lemma compareTableSchema_entries_eq (tableName : string) (s t : TableSchema.t) :
  (compareTableSchema_entries tableName s t).2
  = flat_map (sourceColumnEntries tableName (columnMap (TableSchema.Columns t)))
      (rangeOf (columnMap (TableSchema.Columns s)))
    ++ flat_map (targetColumnEntries tableName (columnMap (TableSchema.Columns s)))
         (rangeOf (columnMap (TableSchema.Columns t)))
    ++ (if compareStringSlices (TableSchema.PrimaryKeys s) (TableSchema.PrimaryKeys t)
        then []
        else [PrimaryKeysDiffer tableName (TableSchema.PrimaryKeys s)
                (TableSchema.PrimaryKeys t)]).
Proof.
  unfold compareTableSchema_entries.
  destruct (compareStringSlices _ _); simpl.
  - rewrite (foldl_appends _ snd _ _ _ (targetColumnStep_snd _ _)).
    rewrite (foldl_appends _ snd _ _ _ (sourceColumnStep_snd _ _)).
    simpl. by rewrite app_nil_r.
  - rewrite (foldl_appends _ snd _ _ _ (targetColumnStep_snd _ _)).
    rewrite (foldl_appends _ snd _ _ _ (sourceColumnStep_snd _ _)).
    simpl. by rewrite <- app_assoc.
Qed.

(** The entries about one column, in the order they are emitted. *)
Lemma compareTableSchema_about (tableName : string) (s t : TableSchema.t) (c : string) :
  List.filter (aboutColumn c) (compareTableSchema_entries tableName s t).2
  = match columnMap (TableSchema.Columns s) !! c,
          columnMap (TableSchema.Columns t) !! c with
    | Some v, Some w =>
        sourceColumnEntries tableName (columnMap (TableSchema.Columns t)) (c, v)
    | Some v, None => [ColumnOnlyInSource tableName c]
    | None, Some w => [ColumnOnlyInTarget tableName c]
    | None, None => []
    end.
Proof.
  rewrite compareTableSchema_entries_eq, !List.filter_app.
  rewrite (filter_range_key (aboutColumn c) _ c).
  2: { intros k v Hne. rewrite sourceColumnEntries_eq. unfold aboutColumn.
       destruct (_ !! k); repeat case_bool_decide; simpl;
         repeat case_bool_decide; congruence. }
  rewrite (filter_range_key (aboutColumn c) _ c).
  2: { intros k v Hne. rewrite targetColumnEntries_eq. unfold aboutColumn.
       destruct (_ !! k); simpl; repeat case_bool_decide; congruence. }
  assert (List.filter (aboutColumn c)
            (if compareStringSlices (TableSchema.PrimaryKeys s) (TableSchema.PrimaryKeys t)
             then []
             else [PrimaryKeysDiffer tableName (TableSchema.PrimaryKeys s)
                     (TableSchema.PrimaryKeys t)]) = []) as ->
    by by destruct (compareStringSlices _ _).
  rewrite app_nil_r. unfold aboutColumn.
  destruct (columnMap (TableSchema.Columns s) !! c) as [v|] eqn:Hs,
           (columnMap (TableSchema.Columns t) !! c) as [w|] eqn:Ht;
    rewrite ?sourceColumnEntries_eq, ?targetColumnEntries_eq, ?Hs, ?Ht;
    repeat case_bool_decide; simpl; repeat case_bool_decide; simpl; congruence.
Qed.

Lemma compareTableSchema_snd (tableName : string) (s t : TableSchema.t) :
  (compareTableSchema tableName s t).2
  = Difference_render <$> (compareTableSchema_entries tableName s t).2.
Proof.
  unfold compareTableSchema. by destruct (compareTableSchema_entries tableName s t).
Qed.

Lemma compareTableSchema_fst (tableName : string) (s t : TableSchema.t) :
  (compareTableSchema tableName s t).1 = (compareTableSchema_entries tableName s t).1.
Proof.
  unfold compareTableSchema. by destruct (compareTableSchema_entries tableName s t).
Qed.

End TableSchemaFacts.

(** ** Formatted entries *)

Lemma list_ascii_of_string_app (s t : string) :
  String.list_ascii_of_string (s +:+ t)
  = String.list_ascii_of_string s ++ String.list_ascii_of_string t.
Proof. induction s as [|a s IH]; simpl; [done|]. by rewrite IH. Qed.

Lemma list_ascii_of_string_inj (s t : string) :
  String.list_ascii_of_string s = String.list_ascii_of_string t → s = t.
Proof.
  intros Heq. rewrite <- (String.string_of_list_ascii_of_string s),
    <- (String.string_of_list_ascii_of_string t). by rewrite Heq.
Qed.

Lemma append_inv_tail (s1 s2 t : string) : s1 +:+ t = s2 +:+ t → s1 = s2.
Proof.
  intros Heq. apply list_ascii_of_string_inj.
  apply (f_equal String.list_ascii_of_string) in Heq.
  rewrite !list_ascii_of_string_app in Heq. by apply app_inv_tail in Heq.
Qed.

Lemma lastChar_app (s t : string) :
  lastChar (s +:+ t)
  = match lastChar t with Some c => Some c | None => lastChar s end.
Proof. unfold lastChar. by rewrite list_ascii_of_string_app, last_app. Qed.

(** No other entry about the same table is formatted like the
    "exists in source but not in target" entry of a column. *)
Lemma render_only_in_source (tableName c : string) (d : Difference) :
  Difference_table d = tableName →
  Difference_render d = Difference_render (ColumnOnlyInSource tableName c) →
  d = ColumnOnlyInSource tableName c.
Proof.
  destruct d as [t c'|t c' x y|t c' x y|t c'|t x y]; simpl; intros -> Heq.
  - injection Heq as Heq. apply (String.app_inj EmptyString) in Heq.
    apply (String.app_inj tableName) in Heq. apply (String.app_inj ".") in Heq.
    apply append_inv_tail in Heq. by subst.
  - apply (f_equal lastChar) in Heq. by rewrite !lastChar_app in Heq.
  - apply (f_equal lastChar) in Heq. by rewrite !lastChar_app in Heq.
  - apply (f_equal lastChar) in Heq. by rewrite !lastChar_app in Heq.
  - discriminate.
Qed.

Lemma render_only_in_target (tableName c : string) (d : Difference) :
  Difference_table d = tableName →
  Difference_render d = Difference_render (ColumnOnlyInTarget tableName c) →
  d = ColumnOnlyInTarget tableName c.
Proof.
  destruct d as [t c'|t c' x y|t c' x y|t c'|t x y]; simpl; intros -> Heq.
  - apply (f_equal lastChar) in Heq. by rewrite !lastChar_app in Heq.
  - apply (f_equal lastChar) in Heq. by rewrite !lastChar_app in Heq.
  - apply (f_equal lastChar) in Heq. by rewrite !lastChar_app in Heq.
  - injection Heq as Heq. apply (String.app_inj EmptyString) in Heq.
    apply (String.app_inj tableName) in Heq. apply (String.app_inj ".") in Heq.
    apply append_inv_tail in Heq. by subst.
  - discriminate.
Qed.

(** Counting formatted entries is counting the entries they come from. *)
Lemma occurrences_rendered (x : Difference) (q : Difference -> bool)
    (es : list Difference) :
  (∀ d, d ∈ es → Difference_render d = Difference_render x ↔ q d = true) →
  occurrences (Difference_render x) (Difference_render <$> es) = count_if q es.
Proof.
  unfold occurrences, count_if. induction es as [|d es IH]; intros Hq; [done|].
  rewrite fmap_cons. cbn [List.filter].
  assert (bool_decide (Difference_render d = Difference_render x) = q d) as ->.
  { destruct (q d) eqn:Hd.
    - apply bool_decide_eq_true. apply Hq; [by left|done].
    - apply bool_decide_eq_false. intros Heq. apply Hq in Heq; [congruence|by left]. }
  destruct (q d); cbn [length]; rewrite IH; try done.
  all: intros d' Hd'; apply Hq; by right.
Qed.

Section TableSchemaClaims.
Context {R : MapRange}.

(** Every entry names the table that was passed in. *)
Lemma compareTableSchema_entries_table (tableName : string) (s t : TableSchema.t)
    (d : Difference) :
  d ∈ (compareTableSchema_entries tableName s t).2 → Difference_table d = tableName.
Proof.
  rewrite compareTableSchema_entries_eq, !elem_of_app.
  rewrite !list_elem_of_In, !in_flat_map.
  intros [([k v] & _ & Hd)|[([k v] & _ & Hd)|Hd]].
  - rewrite sourceColumnEntries_eq in Hd.
    destruct (_ !! k); repeat case_bool_decide; simpl in Hd; by intuition subst.
  - rewrite targetColumnEntries_eq in Hd.
    destruct (_ !! k); simpl in Hd; by intuition subst.
  - destruct (compareStringSlices _ _); simpl in Hd; by intuition subst.
Qed.

Lemma occurrences_only_in_source (tableName : string) (s t : TableSchema.t) (c : string) :
  occurrences (Difference_render (ColumnOnlyInSource tableName c))
    (compareTableSchema tableName s t).2
  = count_if (isOnlyInSource c) (compareTableSchema_entries tableName s t).2.
Proof.
  rewrite compareTableSchema_snd. apply occurrences_rendered.
  intros d Hd%compareTableSchema_entries_table. split.
  - intros ->%(render_only_in_source tableName c); [|done].
    simpl. by apply bool_decide_eq_true.
  - destruct d; simpl in *; try done. by intros ->%bool_decide_eq_true; subst.
Qed.

Lemma occurrences_only_in_target (tableName : string) (s t : TableSchema.t) (c : string) :
  occurrences (Difference_render (ColumnOnlyInTarget tableName c))
    (compareTableSchema tableName s t).2
  = count_if (isOnlyInTarget c) (compareTableSchema_entries tableName s t).2.
Proof.
  rewrite compareTableSchema_snd. apply occurrences_rendered.
  intros d Hd%compareTableSchema_entries_table. split.
  - intros ->%(render_only_in_target tableName c); [|done].
    simpl. by apply bool_decide_eq_true.
  - destruct d; simpl in *; try done. by intros ->%bool_decide_eq_true; subst.
Qed.

Lemma count_about (q : Difference -> bool) (c : string) (es : list Difference) :
  (∀ d, q d = true → aboutColumn c d = true) →
  count_if q es = count_if q (List.filter (aboutColumn c) es).
Proof. intros Hq. symmetry. by apply count_if_filter. Qed.

Lemma isOnlyInSource_about (c : string) (d : Difference) :
  isOnlyInSource c d = true → aboutColumn c d = true.
Proof.
  destruct d; simpl; try done. unfold aboutColumn. simpl.
  intros ->%bool_decide_eq_true. by apply bool_decide_eq_true.
Qed.

Lemma isOnlyInTarget_about (c : string) (d : Difference) :
  isOnlyInTarget c d = true → aboutColumn c d = true.
Proof.
  destruct d; simpl; try done. unfold aboutColumn. simpl.
  intros ->%bool_decide_eq_true. by apply bool_decide_eq_true.
Qed.

Lemma isDataType_about (c : string) (d : Difference) :
  isDataType c d = true → aboutColumn c d = true.
Proof.
  destruct d; simpl; try done. unfold aboutColumn. simpl.
  intros ->%bool_decide_eq_true. by apply bool_decide_eq_true.
Qed.

Lemma isNullable_about (c : string) (d : Difference) :
  isNullable c d = true → aboutColumn c d = true.
Proof.
  destruct d; simpl; try done. unfold aboutColumn. simpl.
  intros ->%bool_decide_eq_true. by apply bool_decide_eq_true.
Qed.

(** C4. A column name that occurs only among the source columns yields
    exactly one "exists in source but not in target" entry and no "exists
    in target but not in source" entry for that column, and symmetrically
    for a name that occurs only among the target columns; the same counts
    hold for the formatted lines in the returned list.  For a name on
    both sides, with [v] and [w] the columns the two maps hold under it,
    there is one data-type entry exactly when the data types differ, one
    nullable entry exactly when the nullable markers differ, and no
    presence entry.  The entries are the arguments of the [Sprintf] calls
    whose results [compareTableSchema] returns, in order. *)
Theorem compareTableSchema_column_entries (tableName : string)
    (s t : TableSchema.t) (c : string) :
  let es := (compareTableSchema_entries tableName s t).2 in
  (compareTableSchema tableName s t).2 = Difference_render <$> es
  ∧ (c ∈ columnNames s → c ∉ columnNames t →
     (count_if (isOnlyInSource c) es = 1%nat ∧ count_if (isOnlyInTarget c) es = 0%nat)
     ∧ occurrences (Difference_render (ColumnOnlyInSource tableName c))
         (compareTableSchema tableName s t).2 = 1%nat
     ∧ occurrences (Difference_render (ColumnOnlyInTarget tableName c))
         (compareTableSchema tableName s t).2 = 0%nat)
  ∧ (c ∉ columnNames s → c ∈ columnNames t →
     (count_if (isOnlyInTarget c) es = 1%nat ∧ count_if (isOnlyInSource c) es = 0%nat)
     ∧ occurrences (Difference_render (ColumnOnlyInTarget tableName c))
         (compareTableSchema tableName s t).2 = 1%nat
     ∧ occurrences (Difference_render (ColumnOnlyInSource tableName c))
         (compareTableSchema tableName s t).2 = 0%nat)
  ∧ (∀ v w,
       columnMap (TableSchema.Columns s) !! c = Some v →
       columnMap (TableSchema.Columns t) !! c = Some w →
       count_if (isDataType c) es
         = (if bool_decide (ColumnSchema.DataType v ≠ ColumnSchema.DataType w)
            then 1 else 0)%nat
       ∧ count_if (isNullable c) es
         = (if bool_decide (ColumnSchema.Nullable v ≠ ColumnSchema.Nullable w)
            then 1 else 0)%nat
       ∧ count_if (isOnlyInSource c) es = 0%nat
       ∧ count_if (isOnlyInTarget c) es = 0%nat).
Proof.
  intros es. split; [|split; [|split]].
  - apply compareTableSchema_snd.
  - intros Hs%columnMap_is_Some Ht%columnMap_None. destruct Hs as [v Hs].
    rewrite occurrences_only_in_source, occurrences_only_in_target. fold es.
    rewrite (count_about _ c es (isOnlyInSource_about c)).
    rewrite (count_about _ c es (isOnlyInTarget_about c)).
    subst es. rewrite compareTableSchema_about, Hs, Ht.
    unfold count_if. simpl. by rewrite bool_decide_eq_true_2.
  - intros Hs%columnMap_None Ht%columnMap_is_Some. destruct Ht as [w Ht].
    rewrite occurrences_only_in_source, occurrences_only_in_target. fold es.
    rewrite (count_about _ c es (isOnlyInSource_about c)).
    rewrite (count_about _ c es (isOnlyInTarget_about c)).
    subst es. rewrite compareTableSchema_about, Hs, Ht.
    unfold count_if. simpl. by rewrite bool_decide_eq_true_2.
  - intros v w Hs Ht.
    rewrite (count_about _ c es (isOnlyInSource_about c)).
    rewrite (count_about _ c es (isOnlyInTarget_about c)).
    rewrite (count_about _ c es (isDataType_about c)).
    rewrite (count_about _ c es (isNullable_about c)).
    subst es. rewrite compareTableSchema_about, Hs, Ht.
    rewrite sourceColumnEntries_eq, Ht. unfold count_if.
    repeat case_bool_decide; simpl; by rewrite ?bool_decide_eq_true_2.
Qed.

(** C5. Primary-key lists that are permutations of each other compare
    equal, and [compareTableSchema] then emits no primary-key entry:
    none of its [Sprintf] calls is the primary-key one, and none of the
    returned strings is the primary-key line of the two tables. *)
Theorem primary_keys_order_independent (tableName : string) (s t : TableSchema.t) :
  TableSchema.PrimaryKeys s ≡ₚ TableSchema.PrimaryKeys t →
  compareStringSlices (TableSchema.PrimaryKeys s) (TableSchema.PrimaryKeys t) = true
  ∧ count_if isPrimaryKeys (compareTableSchema_entries tableName s t).2 = 0%nat
  ∧ Difference_render
      (PrimaryKeysDiffer tableName (TableSchema.PrimaryKeys s) (TableSchema.PrimaryKeys t))
    ∉ (compareTableSchema tableName s t).2.
Proof.
  intros Hperm.
  assert (compareStringSlices (TableSchema.PrimaryKeys s) (TableSchema.PrimaryKeys t) = true)
    as Heq.
  { apply compareStringSlices_spec. split; [by rewrite Hperm|].
    intros x. by rewrite Hperm. }
  assert (∀ d, d ∈ (compareTableSchema_entries tableName s t).2 → isPrimaryKeys d = false)
    as Hnone.
  { intros d. rewrite compareTableSchema_entries_eq, Heq, app_nil_r, elem_of_app.
    rewrite !list_elem_of_In, !in_flat_map.
    intros [([k v] & _ & Hd)|([k v] & _ & Hd)].
    - rewrite sourceColumnEntries_eq in Hd.
      destruct (_ !! k); repeat case_bool_decide; simpl in Hd; by intuition subst.
    - rewrite targetColumnEntries_eq in Hd.
      destruct (_ !! k); simpl in Hd; by intuition subst. }
  split; [done|]. split.
  - unfold count_if.
    induction (compareTableSchema_entries tableName s t).2 as [|d es IH]; [done|].
    simpl. rewrite (Hnone d) by left. apply IH. intros d' Hd'. apply Hnone. by right.
  - rewrite compareTableSchema_snd.
    intros (d & Hd & Hin)%list_elem_of_fmap. apply Hnone in Hin.
    destruct d; simpl in *; done.
Qed.

(** C10. [compareStringSlices] holds exactly for lists of equal length with
    the same set of elements; multiplicities are not compared, as for
    [a; a; b] and [a; b; b]. *)
Theorem compareStringSlices_length_and_set :
  (∀ a b : list string,
     compareStringSlices a b = true
     ↔ length a = length b ∧ (list_to_set a : gset string) = list_to_set b)
  ∧ compareStringSlices ["a"; "a"; "b"] ["a"; "b"; "b"] = true
  ∧ ¬ ["a"; "a"; "b"] ≡ₚ ["a"; "b"; "b"].
Proof.
  assert (∀ a b : list string,
     compareStringSlices a b = true
     ↔ length a = length b ∧ (list_to_set a : gset string) = list_to_set b) as Hspec.
  { intros a b. rewrite compareStringSlices_spec. split; intros [Hlen Hset].
    - split; [done|]. apply set_eq. intros x. by rewrite !elem_of_list_to_set.
    - split; [done|]. intros x.
      by rewrite <- (elem_of_list_to_set (C := gset string) x a), Hset,
                    elem_of_list_to_set. }
  split; [done|]. split.
  - apply Hspec. split; [done|]. apply set_eq. intros x.
    rewrite !elem_of_list_to_set, !elem_of_cons. tauto.
  - intros Hperm.
    assert (count_occ string_dec ["a"; "a"; "b"] "a" = count_occ string_dec ["a"; "b"; "b"] "a")
      as Hcount by (by apply Permutation_count_occ).
    vm_compute in Hcount. discriminate.
Qed.

End TableSchemaClaims.

(** ** compareDatabases *)

Section DatabaseFacts.
Context {R : MapRange}.

Lemma sourceTableStep_missing (src tgt : gmap string TableSchema.t) (st : DbState)
    (e : string * TableSchema.t) :
  (sourceTableStep src tgt st e).1.1
  = st.1.1 ++ (if decide (tgt !! e.1 = None) then [e.1] else []).
Proof.
  destruct st as [[ms cs] ds], e as [k v]. unfold sourceTableStep. simpl.
  destruct (tgt !! k) eqn:Hk; simpl.
  - destruct (compareTableSchema _ _ _) as [h d]. simpl. by rewrite app_nil_r.
  - done.
Qed.

Lemma sourceTableStep_common (src tgt : gmap string TableSchema.t) (st : DbState)
    (e : string * TableSchema.t) :
  (sourceTableStep src tgt st e).1.2
  = st.1.2 ++ (if decide (is_Some (tgt !! e.1)) then [e.1] else []).
Proof.
  destruct st as [[ms cs] ds], e as [k v]. unfold sourceTableStep. simpl.
  destruct (tgt !! k) eqn:Hk; [destruct (compareTableSchema _ _ _) as [h d]|];
    cbn [fst snd]; case_decide as Hd; rewrite ?app_nil_r; try done.
  destruct Hd. simpl. eauto.
Qed.

Lemma targetTableStep_extra (src : gmap string TableSchema.t) (extra : list string)
    (e : string * TableSchema.t) :
  targetTableStep src extra e
  = extra ++ (if decide (src !! e.1 = None) then [e.1] else []).
Proof.
  destruct e as [k v]. unfold targetTableStep. simpl.
  destruct (src !! k); simpl; [by rewrite app_nil_r|done].
Qed.

(** Selecting keys one by one is filtering the list of keys. *)
Lemma flat_map_select {V} (P : string → Prop) `{!∀ k, Decision (P k)}
    (l : list (string * V)) :
  flat_map (fun e : string * V => if decide (P e.1) then [e.1] else []) l
  = filter P l.*1.
Proof.
  induction l as [|[k v] l IH]; [done|]. cbn [flat_map fmap list_fmap].
  rewrite filter_cons, IH. simpl. by destruct (decide (P k)).
Qed.

Lemma compareDatabases_missing (src tgt : gmap string TableSchema.t) :
  (compareDatabases src tgt).1.1.1
  = filter (fun k => tgt !! k = None) (rangeOf src).*1.
Proof.
  unfold compareDatabases.
  pose proof (foldl_appends (sourceTableStep src tgt) (fun st : DbState => st.1.1) _
                (rangeOf src) ([], [], ∅) (sourceTableStep_missing src tgt)) as H.
  destruct (foldl _ _ _) as [[ms cs] ds]. simpl in *.
  rewrite H.
  pose proof (flat_map_select (V:=TableSchema.t) (fun k => tgt !! k = None)) as Hsel. apply Hsel.
Qed.

Lemma compareDatabases_common (src tgt : gmap string TableSchema.t) :
  (compareDatabases src tgt).1.2
  = filter (fun k => is_Some (tgt !! k)) (rangeOf src).*1.
Proof.
  unfold compareDatabases.
  pose proof (foldl_appends (sourceTableStep src tgt) (fun st : DbState => st.1.2) _
                (rangeOf src) ([], [], ∅) (sourceTableStep_common src tgt)) as H.
  destruct (foldl _ _ _) as [[ms cs] ds]. simpl in *.
  rewrite H.
  pose proof (flat_map_select (V:=TableSchema.t) (fun k => is_Some (tgt !! k))) as Hsel. apply Hsel.
Qed.

Lemma compareDatabases_extra (src tgt : gmap string TableSchema.t) :
  (compareDatabases src tgt).1.1.2
  = filter (fun k => src !! k = None) (rangeOf tgt).*1.
Proof.
  unfold compareDatabases.
  pose proof (foldl_appends (targetTableStep src) (fun st : list string => st) _
                (rangeOf tgt) [] (targetTableStep_extra src)) as H.
  destruct (foldl (sourceTableStep _ _) _ _) as [[ms cs] ds]. simpl in *.
  rewrite H.
  pose proof (flat_map_select (V:=TableSchema.t) (fun k => src !! k = None)) as Hsel. apply Hsel.
Qed.

Lemma sourceTableStep_diffs (src tgt : gmap string TableSchema.t) (st : DbState)
    (e : string * TableSchema.t) (k : string) :
  (sourceTableStep src tgt st e).2 !! k
  = if decide (e.1 = k)
    then match tableDiff src tgt k with Some d => Some d | None => st.2 !! k end
    else st.2 !! k.
Proof.
  destruct st as [[ms cs] ds], e as [k' v]. unfold sourceTableStep, tableDiff. simpl.
  destruct (decide (k' = k)) as [->|Hne].
  - destruct (tgt !! k); [|done].
    destruct (compareTableSchema _ _ _) as [[] d]; simpl; [|done].
    by rewrite lookup_insert_eq.
  - destruct (tgt !! k'); [|done].
    destruct (compareTableSchema _ _ _) as [[] d]; simpl; [|done].
    by rewrite lookup_insert_ne.
Qed.

Lemma foldl_sourceTableStep_diffs (src tgt : gmap string TableSchema.t)
    (l : list (string * TableSchema.t)) (st : DbState) (k : string) :
  (foldl (sourceTableStep src tgt) st l).2 !! k
  = if decide (k ∈ l.*1)
    then match tableDiff src tgt k with Some d => Some d | None => st.2 !! k end
    else st.2 !! k.
Proof.
  revert st. induction l as [|e l IH]; intros st; rewrite ?fmap_cons; cbn [foldl].
  - by rewrite decide_False by apply not_elem_of_nil.
  - rewrite IH, sourceTableStep_diffs.
    destruct (decide (k ∈ e.1 :: l.*1)) as [Hin|Hin],
             (decide (k ∈ l.*1)) as [Hl|Hl], (decide (e.1 = k)) as [He|He];
      rewrite elem_of_cons in Hin; try done;
      try (by destruct (tableDiff src tgt k)); exfalso; intuition congruence.
Qed.

(** The tables recorded with schema differences. *)
Lemma compareDatabases_diffs (src tgt : gmap string TableSchema.t) (k : string) :
  (compareDatabases src tgt).2 !! k
  = if decide (is_Some (src !! k)) then tableDiff src tgt k else None.
Proof.
  unfold compareDatabases.
  pose proof (foldl_sourceTableStep_diffs src tgt (rangeOf src) ([], [], ∅) k) as H.
  destruct (foldl _ _ _) as [[ms cs] ds]. simpl in *. rewrite H, lookup_empty.
  destruct (decide (k ∈ (rangeOf src).*1)) as [Hin|Hnin].
  - rewrite decide_True by (by apply rangeOf_keys). by destruct (tableDiff src tgt k).
  - by rewrite decide_False by (by rewrite <- rangeOf_keys).
Qed.

(** C3. The three lists of [compareDatabases] partition the table names of
    the two schema mappings: [missing] holds exactly the names of the
    source that the target lacks, [extra] exactly the names of the target
    that the source lacks, [common] exactly the names of both; no name is
    listed twice, within a list or across lists, and every name of either
    mapping is listed. *)
Theorem compareDatabases_partition (src tgt : gmap string TableSchema.t) :
  let missing := (compareDatabases src tgt).1.1.1 in
  let extra := (compareDatabases src tgt).1.1.2 in
  let common := (compareDatabases src tgt).1.2 in
  (∀ n, n ∈ missing ↔ n ∈ dom src ∧ (n ∉ dom tgt))
  ∧ (∀ n, n ∈ extra ↔ (n ∉ dom src) ∧ n ∈ dom tgt)
  ∧ (∀ n, n ∈ common ↔ n ∈ dom src ∧ n ∈ dom tgt)
  ∧ NoDup (missing ++ extra ++ common)
  ∧ (∀ n, n ∈ dom src ∪ dom tgt ↔ n ∈ missing ++ extra ++ common).
Proof.
  intros missing extra common.
  assert (∀ n, n ∈ missing ↔ n ∈ dom src ∧ (n ∉ dom tgt)) as Hm.
  { intros n. subst missing. rewrite compareDatabases_missing.
    rewrite list_elem_of_filter, rangeOf_keys, !elem_of_dom, eq_None_not_Some. tauto. }
  assert (∀ n, n ∈ extra ↔ (n ∉ dom src) ∧ n ∈ dom tgt) as He.
  { intros n. subst extra. rewrite compareDatabases_extra.
    rewrite list_elem_of_filter, rangeOf_keys, !elem_of_dom, eq_None_not_Some. tauto. }
  assert (∀ n, n ∈ common ↔ n ∈ dom src ∧ n ∈ dom tgt) as Hc.
  { intros n. subst common. rewrite compareDatabases_common.
    rewrite list_elem_of_filter, rangeOf_keys, !elem_of_dom. tauto. }
  split; [done|]. split; [done|]. split; [done|]. split.
  - apply NoDup_app. split; [|split].
    + subst missing. rewrite compareDatabases_missing.
      apply NoDup_filter, rangeOf_NoDup.
    + intros n [? ?]%Hm [[? ?]%He|[? ?]%Hc]%elem_of_app; done.
    + apply NoDup_app. split; [|split].
      * subst extra. rewrite compareDatabases_extra.
        apply NoDup_filter, rangeOf_NoDup.
      * intros n [? ?]%He [? ?]%Hc. done.
      * subst common. rewrite compareDatabases_common.
        apply NoDup_filter, rangeOf_NoDup.
  - intros n. rewrite !elem_of_app, elem_of_union, Hm, He, Hc.
    destruct (decide (n ∈ dom src)), (decide (n ∈ dom tgt)); tauto.
Qed.

End DatabaseFacts.

(** ** Logged computations *)

Lemma IO_bind_log {A B} (m : IO A) (k : A -> IO B) :
  (m ≫= k).1 = m.1 ++ (k m.2).1.
Proof.
  unfold mbind, IO_mbind, IO_bind. destruct m as [l a]. simpl.
  by destruct (k a).
Qed.

Lemma IO_bind_value {A B} (m : IO A) (k : A -> IO B) :
  (m ≫= k).2 = (k m.2).2.
Proof.
  unfold mbind, IO_mbind, IO_bind. destruct m as [l a]. simpl.
  by destruct (k a).
Qed.

Lemma stdout_bind {A B} (m : IO A) (k : A -> IO B) :
  stdout (m ≫= k) = stdout m ++ stdout (k m.2).
Proof. unfold stdout. by rewrite IO_bind_log, omap_app. Qed.

Lemma queries_bind {A B} (m : IO A) (k : A -> IO B) :
  queries (m ≫= k) = queries m ++ queries (k m.2).
Proof. unfold queries. by rewrite IO_bind_log, omap_app. Qed.

(** ** Indexes and foreign keys *)

Section IndexFacts.
Context {R : MapRange}.

Lemma compareIndexes_value (tableName : string) (si ti : list IndexSchema.t) :
  (compareIndexes tableName si ti).2 = false.
Proof. unfold compareIndexes. by rewrite !IO_bind_value. Qed.

Lemma compareForeignKeys_value (tableName : string) (sf tf : list ForeignKeySchema.t) :
  (compareForeignKeys tableName sf tf).2 = false.
Proof. unfold compareForeignKeys. by rewrite !IO_bind_value. Qed.

(** An index of the source that the target lacks is noticed on the console. *)
Lemma compareIndexes_notice (tableName : string) (idx : IndexSchema.t) :
  stdout (compareIndexes tableName [idx] [])
  = [IndexOnlyInSource (IndexSchema.Name idx) [IndexSchema.ColumnName idx] tableName].
Proof.
  unfold compareIndexes, indexMap, indexColumns. simpl.
  rewrite lookup_empty. simpl. rewrite !insert_empty.
  rewrite rangeOf_empty, rangeOf_singleton. simpl.
  rewrite lookup_empty. by rewrite rangeOf_singleton.
Qed.

(** A foreign key of the source that the target lacks is noticed on the
    console. *)
Lemma compareForeignKeys_notice (tableName : string) (fk : ForeignKeySchema.t) :
  stdout (compareForeignKeys tableName [fk] [])
  = [ForeignKeyOnlyInSource (ForeignKeySchema.Name fk) tableName
       (ForeignKeySchema.ColumnName fk) (ForeignKeySchema.ReferencedTable fk)
       (ForeignKeySchema.ReferencedColumn fk)].
Proof.
  unfold compareForeignKeys, fkMap. simpl. rewrite !insert_empty.
  rewrite rangeOf_empty, rangeOf_singleton. simpl.
  by rewrite lookup_empty.
Qed.

(** C6. [compareIndexes] and [compareForeignKeys] return [false] whatever
    the two lists are, also when they print notices about differences; and
    what [compareTableSchema] returns does not depend on the indexes and
    foreign keys of the two tables, so no finding about them reaches the
    difference list. *)
Theorem index_and_key_findings_not_returned (tableName : string) :
  (∀ si ti, (compareIndexes tableName si ti).2 = false)
  ∧ (∀ sf tf, (compareForeignKeys tableName sf tf).2 = false)
  ∧ (∀ idx, stdout (compareIndexes tableName [idx] []) ≠ []
            ∧ (compareIndexes tableName [idx] []).2 = false)
  ∧ (∀ fk, stdout (compareForeignKeys tableName [fk] []) ≠ []
           ∧ (compareForeignKeys tableName [fk] []).2 = false)
  ∧ (∀ s t si ti sf tf,
       compareTableSchema tableName (withIndexesAndKeys s si sf)
         (withIndexesAndKeys t ti tf)
       = compareTableSchema tableName s t).
Proof.
  split; [apply compareIndexes_value|]. split; [apply compareForeignKeys_value|].
  split; [|split].
  - intros idx. by rewrite compareIndexes_notice, compareIndexes_value.
  - intros fk. by rewrite compareForeignKeys_notice, compareForeignKeys_value.
  - done.
Qed.

End IndexFacts.

(** ** The adapters *)

(** C8. The three supported tags select their adapter without error; any
    other tag yields no adapter and the unsupported-type error. *)
Theorem GetAdapter_dispatch (dbType : string) :
  GetAdapter "mysql" = (Some MySQLAdapter, None)
  ∧ GetAdapter "postgres" = (Some PostgreSQLAdapter, None)
  ∧ GetAdapter "sqlite" = (Some SQLiteAdapter, None)
  ∧ (dbType ∉ ["mysql"; "postgres"; "sqlite"] →
     GetAdapter dbType = (None, Some ("unsupported database type: " +:+ dbType))).
Proof.
  split; [done|]. split; [done|]. split; [done|].
  intros Hn. unfold GetAdapter.
  repeat case_bool_decide; subst; try done; exfalso; apply Hn; set_solver.
Qed.

Lemma GetAdapter_dispatch_witness :
  GetAdapter "oracle" = (None, Some "unsupported database type: oracle").
Proof.
  apply (GetAdapter_dispatch "oracle").
  apply (bool_decide_unpack _). vm_compute. exact I.
Defined.

(** C1, as the code has it.  When both CHECKSUM TABLE answers are NULL,
    the MySQL adapter prints that checksums are not available and returns
    [true], that is, it reports the table as differing. *)
Theorem MySQL_checksum_both_null (sourceDB targetDB : DB) (tableName : string)
    (schema : TableSchema.t) (n1 n2 : string) :
  scanNamedNullInt64 sourceDB (checksumQuery tableName) = Ok (n1, None) →
  scanNamedNullInt64 targetDB (checksumQuery tableName) = Ok (n2, None) →
  MySQL_CompareTableDataByChecksum sourceDB targetDB tableName schema
  = ([QueryRow Source (checksumQuery tableName);
      QueryRow Target (checksumQuery tableName);
      Printf (ChecksumsNotAvailable tableName)],
     (true, None)).
Proof.
  intros Hs Ht. unfold MySQL_CompareTableDataByChecksum, queryNamedNullInt64.
  unfold mbind, IO_mbind, IO_bind. by rewrite Hs, Ht.
Qed.

Lemma MySQL_checksum_both_null_witness :
  MySQL_CompareTableDataByChecksum (constDB 100) (constDB 100) "users" usersV1
  = ([QueryRow Source "CHECKSUM TABLE `users`";
      QueryRow Target "CHECKSUM TABLE `users`";
      Printf (ChecksumsNotAvailable "users")],
     (true, None)).
Proof.
  apply (MySQL_checksum_both_null (constDB 100) (constDB 100) "users" usersV1
           "CHECKSUM TABLE `users`" "CHECKSUM TABLE `users`"); reflexivity.
Defined.

(** The PostgreSQL adapter in the same situation, both hashes NULL, prints
    that the hash is not available and returns [false]. *)
Lemma PostgreSQL_hash_both_null (sourceDB targetDB : DB) (tableName : string)
    (schema : TableSchema.t) :
  scanNullString sourceDB (hashQuery schema tableName) = Ok None →
  scanNullString targetDB (hashQuery schema tableName) = Ok None →
  (PostgreSQL_CompareTableDataByChecksum sourceDB targetDB tableName schema).2
  = (false, None).
Proof.
  intros Hs Ht. unfold PostgreSQL_CompareTableDataByChecksum, queryNullString.
  unfold mbind, IO_mbind, IO_bind, print. by rewrite Hs, Ht.
Qed.

(** In the MySQL adapter, equal valid checksums give [false] and different
    valid checksums give [true]. *)
Lemma MySQL_checksum_both_valid (sourceDB targetDB : DB) (tableName : string)
    (schema : TableSchema.t) (n1 n2 : string) (c1 c2 : Z) :
  scanNamedNullInt64 sourceDB (checksumQuery tableName) = Ok (n1, Some c1) →
  scanNamedNullInt64 targetDB (checksumQuery tableName) = Ok (n2, Some c2) →
  (MySQL_CompareTableDataByChecksum sourceDB targetDB tableName schema).2
  = (bool_decide (c1 ≠ c2), None).
Proof.
  intros Hs Ht. unfold MySQL_CompareTableDataByChecksum, queryNamedNullInt64.
  unfold mbind, IO_mbind, IO_bind. rewrite Hs, Ht. simpl.
  by case_bool_decide.
Qed.

(** The SQLite adapter counts the rows of both sides first.  When the
    counts differ it returns [true] and has issued the two count queries
    only.  When they are equal and both [total(rowid)] sums scan, it
    returns [true] exactly when the two sums differ. *)
Lemma SQLite_checksum_tiers (sourceDB targetDB : DB) (tableName : string)
    (schema : TableSchema.t) (sourceCount targetCount : Z) :
  scanInt sourceDB (countQuery SQLiteAdapter tableName) = Ok sourceCount →
  scanInt targetDB (countQuery SQLiteAdapter tableName) = Ok targetCount →
  let run := SQLite_CompareTableDataByChecksum sourceDB targetDB tableName schema in
  (sourceCount ≠ targetCount →
     run.2 = (true, None)
     ∧ queries run = [(Source, countQuery SQLiteAdapter tableName);
                      (Target, countQuery SQLiteAdapter tableName)])
  ∧ (sourceCount = targetCount →
     ∀ sourceSum targetSum,
       scanInt sourceDB (totalRowidQuery tableName) = Ok sourceSum →
       scanInt targetDB (totalRowidQuery tableName) = Ok targetSum →
       run.2 = (bool_decide (sourceSum ≠ targetSum), None)
       ∧ queries run = [(Source, countQuery SQLiteAdapter tableName);
                        (Target, countQuery SQLiteAdapter tableName);
                        (Source, totalRowidQuery tableName);
                        (Target, totalRowidQuery tableName)]).
Proof.
  intros Hs Ht run. subst run.
  unfold SQLite_CompareTableDataByChecksum, CompareRowCounts, queryInt, print.
  unfold mbind, mret, IO_mbind, IO_mret, IO_bind, IO_ret. rewrite Hs, Ht. simpl.
  split.
  - intros Hne. by rewrite bool_decide_eq_true_2.
  - intros Heq ss ts Hss Hts. rewrite bool_decide_eq_false_2 by (by intros ?).
    rewrite Hss, Hts. by case_bool_decide.
Qed.

Lemma SQLite_checksum_tiers_witness :
  ((SQLite_CompareTableDataByChecksum (sqliteDB 3 6) (sqliteDB 4 10) "users" usersV1).2
   = (true, None)
   ∧ length (queries (SQLite_CompareTableDataByChecksum (sqliteDB 3 6) (sqliteDB 4 10)
                        "users" usersV1)) = 2%nat)
  ∧ (SQLite_CompareTableDataByChecksum (sqliteDB 3 6) (sqliteDB 3 7) "users" usersV1).2
    = (true, None)
  ∧ (SQLite_CompareTableDataByChecksum (sqliteDB 3 6) (sqliteDB 3 6) "users" usersV1).2
    = (false, None).
Proof.
  split; [|split].
  - destruct (SQLite_checksum_tiers (sqliteDB 3 6) (sqliteDB 4 10) "users" usersV1 3 4
                eq_refl eq_refl) as [Hdiff _].
    destruct (Hdiff ltac:(lia)) as [Hv Hq]. split; [exact Hv|]. by rewrite Hq.
  - destruct (SQLite_checksum_tiers (sqliteDB 3 6) (sqliteDB 3 7) "users" usersV1 3 3
                eq_refl eq_refl) as [_ Hsame].
    apply (Hsame eq_refl 6 7 eq_refl eq_refl).
  - destruct (SQLite_checksum_tiers (sqliteDB 3 6) (sqliteDB 3 6) "users" usersV1 3 3
                eq_refl eq_refl) as [_ Hsame].
    apply (Hsame eq_refl 6 6 eq_refl eq_refl).
Defined.

(** The count and the sum a SQLite database answers with. *)
Lemma sqliteDB_count (count sum : Z) (tableName : string) :
  scanInt (sqliteDB count sum) (countQuery SQLiteAdapter tableName) = Ok count.
Proof. reflexivity. Qed.

Lemma sqliteDB_total (count sum : Z) (tableName : string) :
  scanInt (sqliteDB count sum) (totalRowidQuery tableName)
  = scanFloatAsInt64 "total(rowid)" sum.
Proof. reflexivity. Qed.

Lemma scanFloatAsInt64_large (column : string) (v : Z) :
  10 ^ 6 ≤ Z.abs v → ∃ e, scanFloatAsInt64 column v = Err e.
Proof.
  intros Hv. unfold scanFloatAsInt64.
  rewrite bool_decide_eq_false_2 by lia. eauto.
Qed.

(** C7. On two SQLite tables with the same number of rows whose
    [total(rowid)] sums differ, the data check returns [false] together
    with a scan error, and prints no [row sums differ] line, as soon as one
    of the sums reaches a million: the sum is a REAL that is scanned into
    an [int64].  The second tier says [true] for differing sums only while
    both stay below a million. *)
Theorem SQLite_checksum_large_sums (count sourceSum targetSum : Z) (tableName : string)
    (schema : TableSchema.t) :
  sourceSum ≠ targetSum →
  10 ^ 6 ≤ Z.abs sourceSum ∨ 10 ^ 6 ≤ Z.abs targetSum →
  let run := SQLite_CompareTableDataByChecksum (sqliteDB count sourceSum)
               (sqliteDB count targetSum) tableName schema in
  run.2.1 = false ∧ is_Some run.2.2 ∧ RowSumsDiffer tableName ∉ stdout run.
Proof.
  intros _ Hlarge run. subst run.
  unfold SQLite_CompareTableDataByChecksum, CompareRowCounts, queryInt, print.
  unfold mbind, mret, IO_mbind, IO_mret, IO_bind, IO_ret.
  rewrite !sqliteDB_count, !sqliteDB_total. cbn [fst snd].
  rewrite (bool_decide_eq_false_2 (count ≠ count)) by (by intros ?). cbn [fst snd].
  destruct (scanFloatAsInt64 "total(rowid)" sourceSum) as [s|e] eqn:Hs.
  - destruct Hlarge as [Hlarge|Hlarge].
    + apply (scanFloatAsInt64_large "total(rowid)") in Hlarge as [e He]. congruence.
    + apply (scanFloatAsInt64_large "total(rowid)") in Hlarge as [e He]. rewrite He.
      cbn. repeat split; [by eauto|].
      rewrite !elem_of_cons, elem_of_nil. intros [?|[?|?]]; done.
  - cbn. repeat split; [by eauto|].
    rewrite !elem_of_cons, elem_of_nil. intros [?|[?|?]]; done.
Qed.

Lemma SQLite_checksum_large_sums_witness :
  let run := SQLite_CompareTableDataByChecksum (sqliteDB 1413 998991)
               (sqliteDB 1413 1000000) "users" usersV1 in
  run.2.1 = false ∧ is_Some run.2.2 ∧ RowSumsDiffer "users" ∉ stdout run.
Proof.
  apply (SQLite_checksum_large_sums 1413 998991 1000000 "users" usersV1); [lia|].
  right. vm_compute. discriminate.
Defined.

(** The run of the failing input of C7, evaluated: 1413 rows on each side,
    row identifiers adding up to 998991 and to 1000000. *)
Lemma SQLite_checksum_million :
  (SQLite_CompareTableDataByChecksum (sqliteDB 1413 998991) (sqliteDB 1413 1000000)
     "users" usersV1).2
  = (false,
     Some ("sql: Scan error on column index 0, name " +:+ dquote +:+ "total(rowid)"
           +:+ dquote +:+ ": converting driver.Value type float64 (" +:+ dquote
           +:+ "1e+06" +:+ dquote +:+ ") to a int64: invalid syntax"))
  ∧ (SQLite_CompareTableDataByChecksum (sqliteDB 1413 998991) (sqliteDB 1413 999999)
       "users" usersV1).2
    = (true, None)
  ∧ formatFloat_g 1234567 = "1.234567e+06"
  ∧ formatFloat_g (-25000000000) = "-2.5e+10".
Proof. vm_compute. done. Qed.

(** ** Progress of the data verification *)

Lemma int_wrap_le (z : Z) : 0 ≤ z → int_wrap z ≤ z.
Proof.
  intros Hz. unfold int_wrap.
  pose proof (Z.mod_le (z + 2 ^ 63) (2 ^ 64)). lia.
Qed.

Lemma int_wrap_small (z : Z) : - 2 ^ 63 ≤ z < 2 ^ 63 → int_wrap z = z.
Proof. intros Hz. unfold int_wrap. rewrite Z.mod_small; lia. Qed.

(** Before the last table the percentage is below 100, also if the
    multiplication wrapped. *)
Lemma currentPercentAt_lt_100 (totalTables i : Z) :
  0 ≤ i < totalTables → currentPercentAt totalTables i < 100.
Proof.
  intros Hi. unfold currentPercentAt.
  eapply Z.le_lt_trans.
  - apply (Z.quot_le_mono _ (i * 100)); [lia|]. apply int_wrap_le. lia.
  - apply Z.quot_lt_upper_bound; lia.
Qed.

Lemma CompareRowCounts_stdout (adapter : DatabaseAdapter) (sourceDB targetDB : DB)
    (tableName : string) :
  stdout (CompareRowCounts adapter sourceDB targetDB tableName) = [].
Proof.
  unfold CompareRowCounts, queryInt, mbind, IO_mbind, IO_bind.
  destruct (scanInt sourceDB _); [|done]. by destruct (scanInt targetDB _).
Qed.

Lemma progressPercents_app (out1 out2 : list Line) :
  progressPercents (out1 ++ out2) = progressPercents out1 ++ progressPercents out2.
Proof. apply omap_app. Qed.

(** One iteration of the loop, as far as the progress lines go. *)
Lemma verifyTables_cons_percents (adapter : DatabaseAdapter) (sourceDB targetDB : DB)
    (totalTables i : Z) (tableName : string) (rest : list string)
    (last : Z) (summary : ComparisonSummary.t) :
  ∃ summary',
    progressPercents
      (stdout (verifyTables adapter sourceDB targetDB totalTables i (tableName :: rest)
                 (last, summary)))
    = (if bool_decide (currentPercentAt totalTables i > last)
       then [currentPercentAt totalTables i] else [])
      ++ progressPercents
           (stdout (verifyTables adapter sourceDB targetDB totalTables (i + 1) rest
                      (if bool_decide (currentPercentAt totalTables i > last)
                       then currentPercentAt totalTables i else last,
                       summary'))).
Proof.
  cbn [verifyTables]. fold (currentPercentAt totalTables i).
  rewrite stdout_bind, progressPercents_app.
  destruct (bool_decide (currentPercentAt totalTables i > last)); cbn [snd].
  all: rewrite (stdout_bind (CompareRowCounts _ _ _ _)), CompareRowCounts_stdout;
    cbn [app].
  all: destruct (CompareRowCounts adapter sourceDB targetDB tableName).2
         as [[sourceCount targetCount] [e|]].
  all: try case_bool_decide.
  all: repeat (progress (rewrite ?stdout_bind, ?IO_bind_value; cbn beta)).
  all: eexists; simpl; reflexivity.
Qed.

Lemma verifyTables_progress (adapter : DatabaseAdapter) (sourceDB targetDB : DB)
    (totalTables : Z) (tables : list string) :
  ∀ (i last : Z) (summary : ComparisonSummary.t),
    0 ≤ i → i + Z.of_nat (length tables) ≤ totalTables →
    let ps := progressPercents
                (stdout (verifyTables adapter sourceDB targetDB totalTables i tables
                           (last, summary))) in
    StronglySorted Z.lt ps ∧ Forall (fun p => last < p < 100) ps.
Proof.
  induction tables as [|tableName rest IH]; intros i last summary Hi Hlen ps.
  - subst ps. simpl. split; constructor.
  - destruct (verifyTables_cons_percents adapter sourceDB targetDB totalTables i
                tableName rest last summary) as [summary' Heq].
    subst ps. rewrite Heq. clear Heq.
    assert (currentPercentAt totalTables i < 100) as Hlt.
    { apply currentPercentAt_lt_100. simpl length in Hlen. lia. }
    specialize (IH (i + 1)
                  (if bool_decide (currentPercentAt totalTables i > last)
                   then currentPercentAt totalTables i else last)
                  summary').
    destruct IH as [Hsorted Hall]; [lia|simpl length in Hlen; lia|].
    case_bool_decide as Hgt; simpl.
    + split.
      * constructor; [done|]. eapply Forall_impl; [exact Hall|]. simpl. lia.
      * constructor; [lia|]. eapply Forall_impl; [exact Hall|]. simpl. lia.
    + done.
Qed.

Lemma StronglySorted_snoc (ps : list Z) (top : Z) :
  StronglySorted Z.lt ps → Forall (fun p => p < top) ps →
  StronglySorted Z.lt (ps ++ [top]).
Proof.
  induction 1 as [|p ps Hsorted IH Hall]; intros Htop; simpl.
  - repeat constructor.
  - apply Forall_cons in Htop as [Hp Htop]. constructor; [by apply IH|].
    apply Forall_app. split; [done|]. by repeat constructor.
Qed.

Section ProgressClaims.
Context {R : MapRange}.

(** The summary the row-count loop starts from: the tables with schema
    differences, in the order the map yields them. *)
Lemma main_dataDifferences_stdout (adapter : DatabaseAdapter) (sourceDB targetDB : DB)
    (sourceSchemas targetSchemas : gmap string TableSchema.t) :
  let commonTables := (compareDatabases sourceSchemas targetSchemas).1.2 in
  let schemaDifferences := (compareDatabases sourceSchemas targetSchemas).2 in
  stdout (main_dataDifferences adapter sourceDB targetDB sourceSchemas targetSchemas)
  = [DataDifferencesHeader; ComparingTables (Z.of_nat (length commonTables))]
    ++ stdout (verifyTables adapter sourceDB targetDB (Z.of_nat (length commonTables)) 0
                 commonTables
                 (-1, foldl schemaDiffStep (ComparisonSummary.mk [] ∅ 0 false)
                        (rangeOf schemaDifferences)))
    ++ [ProgressComplete].
Proof.
  unfold main_dataDifferences.
  destruct (compareDatabases sourceSchemas targetSchemas)
    as [[[missingTables extraTables] commonTables] schemaDifferences].
  cbn [fst snd].
  rewrite stdout_bind, stdout_bind, stdout_bind.
  destruct (verifyTables _ _ _ _ _ _ _) as [log [lastPercent summary']].
  cbn [snd]. by rewrite stdout_bind.
Qed.

(** C9. The percentages of the progress lines of a run, the closing 100
    included, are strictly increasing, and the closing line is the last
    line printed.  This holds for every list of common tables, also when
    the multiplication [i * 100] wraps around. *)
Theorem progress_strictly_increasing (adapter : DatabaseAdapter) (sourceDB targetDB : DB) :
  (∀ (commonTables : list string) (summary : ComparisonSummary.t),
     let loop := verifyTables adapter sourceDB targetDB
                   (Z.of_nat (length commonTables)) 0 commonTables (-1, summary) in
     StronglySorted Z.lt (progressPercents (stdout loop ++ [ProgressComplete]))
     ∧ Forall (fun p => 0 ≤ p < 100) (progressPercents (stdout loop)))
  ∧ (∀ sourceSchemas targetSchemas : gmap string TableSchema.t,
       let run := main_dataDifferences adapter sourceDB targetDB
                    sourceSchemas targetSchemas in
       StronglySorted Z.lt (progressPercents (stdout run))
       ∧ last (progressPercents (stdout run)) = Some 100
       ∧ last (stdout run) = Some ProgressComplete).
Proof.
  assert (∀ (commonTables : list string) (summary : ComparisonSummary.t),
     let loop := verifyTables adapter sourceDB targetDB
                   (Z.of_nat (length commonTables)) 0 commonTables (-1, summary) in
     StronglySorted Z.lt (progressPercents (stdout loop ++ [ProgressComplete]))
     ∧ Forall (fun p => 0 ≤ p < 100) (progressPercents (stdout loop))) as Hloop.
  { intros commonTables summary loop. subst loop.
    destruct (verifyTables_progress adapter sourceDB targetDB
                (Z.of_nat (length commonTables)) commonTables 0 (-1) summary)
      as [Hsorted Hall]; [lia|lia|].
    split.
    - rewrite progressPercents_app. apply StronglySorted_snoc; [done|].
      eapply Forall_impl; [exact Hall|]. simpl. lia.
    - eapply Forall_impl; [exact Hall|]. simpl. lia. }
  split; [exact Hloop|].
  intros sourceSchemas targetSchemas run. subst run.
  rewrite main_dataDifferences_stdout.
  set (commonTables := (compareDatabases sourceSchemas targetSchemas).1.2).
  set (summary := foldl schemaDiffStep _ _).
  destruct (Hloop commonTables summary) as [Hsorted _].
  split; [|split].
  - exact Hsorted.
  - rewrite !progressPercents_app. simpl. apply last_snoc.
  - by rewrite app_assoc, last_snoc.
Qed.

End ProgressClaims.

(** ** The differing-table list *)

Lemma CompareRowCounts_value (adapter : DatabaseAdapter) (sourceDB targetDB : DB)
    (tableName : string) :
  (CompareRowCounts adapter sourceDB targetDB tableName).2
  = match scanInt sourceDB (countQuery adapter tableName) with
    | Err e => (0, 0, Some e)
    | Ok sourceCount =>
        match scanInt targetDB (countQuery adapter tableName) with
        | Err e => (0, 0, Some e)
        | Ok targetCount => (sourceCount, targetCount, None)
        end
    end.
Proof.
  unfold CompareRowCounts, queryInt, mbind, IO_mbind, IO_bind.
  destruct (scanInt sourceDB _); [|done]. by destruct (scanInt targetDB _).
Qed.

(** The row-count loop appends the tables whose counts differ, in order. *)
Lemma verifyTables_DifferentTables (adapter : DatabaseAdapter) (sourceDB targetDB : DB)
    (totalTables : Z) (tables : list string) :
  ∀ (i last : Z) (summary : ComparisonSummary.t),
    ComparisonSummary.DifferentTables
      (verifyTables adapter sourceDB targetDB totalTables i tables (last, summary)).2.2
    = ComparisonSummary.DifferentTables summary
      ++ List.filter (rowCountsDiffer adapter sourceDB targetDB) tables.
Proof.
  induction tables as [|tableName rest IH]; intros i last summary.
  - simpl. by rewrite app_nil_r.
  - cbn [verifyTables List.filter]. unfold rowCountsDiffer at 1.
    rewrite IO_bind_value, IO_bind_value, CompareRowCounts_value.
    destruct (scanInt sourceDB (countQuery adapter tableName)) as [sourceCount|e].
    2: { by rewrite IO_bind_value, IH. }
    destruct (scanInt targetDB (countQuery adapter tableName)) as [targetCount|e].
    2: { by rewrite IO_bind_value, IH. }
    rewrite IO_bind_value, IH. case_bool_decide; simpl.
    + by rewrite <- app_assoc.
    + done.
Qed.

(** The loop over [schemaDifferences] appends the names not yet listed. *)
Lemma foldl_schemaDiffStep (l : list (string * list string)) :
  ∀ summary : ComparisonSummary.t,
    NoDup (ComparisonSummary.DifferentTables summary ++ l.*1) →
    ComparisonSummary.DifferentTables (foldl schemaDiffStep summary l)
    = ComparisonSummary.DifferentTables summary ++ l.*1.
Proof.
  induction l as [|[k d] l IH]; intros summary Hnd; rewrite ?fmap_cons; cbn [foldl].
  - by rewrite app_nil_r.
  - assert (contains (ComparisonSummary.DifferentTables summary) k = false) as Hk.
    { apply not_true_iff_false. rewrite contains_spec. intros Hin.
      apply NoDup_app in Hnd as (_ & Hdisj & _). apply (Hdisj k Hin). by left. }
    unfold schemaDiffStep at 2. cbn [fst]. rewrite Hk. cbn [negb].
    rewrite IH; simpl; rewrite <- app_assoc; [done|].
    by rewrite fmap_cons in Hnd.
Qed.

Lemma occurrences_app (t : string) (l1 l2 : list string) :
  occurrences t (l1 ++ l2) = (occurrences t l1 + occurrences t l2)%nat.
Proof. apply count_if_app. Qed.

Lemma occurrences_NoDup (t : string) (l : list string) :
  NoDup l → occurrences t l = if decide (t ∈ l) then 1%nat else 0%nat.
Proof.
  unfold occurrences, count_if.
  induction 1 as [|x l Hx Hnd IH]; cbn [List.filter length].
  - destruct (decide (t ∈ [])) as [Hin|]; [|done]. by apply not_elem_of_nil in Hin.
  - destruct (decide (t ∈ x :: l)) as [Hcons|Hcons], (decide (t ∈ l)) as [Hl|Hl];
      rewrite elem_of_cons in Hcons; case_bool_decide as Heq; subst;
      cbn [length]; rewrite ?IH; try done; exfalso; intuition congruence.
Qed.

Lemma NoDup_List_filter {A} (p : A -> bool) (l : list A) :
  NoDup l → NoDup (List.filter p l).
Proof.
  induction 1 as [|x l Hx Hnd IH]; simpl; [constructor|].
  destruct (p x); [|done]. constructor; [|done].
  rewrite list_elem_of_In, filter_In, <- list_elem_of_In. tauto.
Qed.

Section SummaryFacts.
Context {R : MapRange}.

Lemma main_dataDifferences_DifferentTables (adapter : DatabaseAdapter)
    (sourceDB targetDB : DB) (sourceSchemas targetSchemas : gmap string TableSchema.t) :
  ComparisonSummary.DifferentTables
    (main_dataDifferences adapter sourceDB targetDB sourceSchemas targetSchemas).2.1
  = (rangeOf (compareDatabases sourceSchemas targetSchemas).2).*1
    ++ List.filter (rowCountsDiffer adapter sourceDB targetDB)
         (compareDatabases sourceSchemas targetSchemas).1.2.
Proof.
  unfold main_dataDifferences.
  destruct (compareDatabases sourceSchemas targetSchemas)
    as [[[missingTables extraTables] commonTables] schemaDifferences].
  cbn [fst snd]. rewrite !IO_bind_value.
  pose proof (verifyTables_DifferentTables adapter sourceDB targetDB
                (Z.of_nat (length commonTables)) commonTables 0 (-1)
                (foldl schemaDiffStep (ComparisonSummary.mk [] ∅ 0 false)
                   (rangeOf schemaDifferences))) as Hloop.
  destruct (verifyTables _ _ _ _ _ _ _) as [log [lastPercent summary']].
  cbn [snd] in *. rewrite IO_bind_value. cbn [snd fst mret IO_mret IO_ret].
  rewrite Hloop, foldl_schemaDiffStep; [done|].
  simpl. apply rangeOf_NoDup.
Qed.

(** How often a table is listed: once if [compareDatabases] recorded schema
    differences for it, and once more if it is a common table whose row
    counts differ. *)
Lemma DifferentTables_occurrences (adapter : DatabaseAdapter)
    (sourceDB targetDB : DB) (sourceSchemas targetSchemas : gmap string TableSchema.t)
    (tableName : string) :
  occurrences tableName
    (ComparisonSummary.DifferentTables
       (main_dataDifferences adapter sourceDB targetDB sourceSchemas targetSchemas).2.1)
  = ((if decide (is_Some ((compareDatabases sourceSchemas targetSchemas).2 !! tableName))
      then 1 else 0)
     + (if decide (tableName ∈ dom sourceSchemas ∧ tableName ∈ dom targetSchemas
                   ∧ rowCountsDiffer adapter sourceDB targetDB tableName = true)
        then 1 else 0))%nat.
Proof.
  rewrite main_dataDifferences_DifferentTables, occurrences_app.
  rewrite !occurrences_NoDup.
  2: { apply NoDup_List_filter. rewrite compareDatabases_common.
       apply NoDup_filter, rangeOf_NoDup. }
  2: { apply rangeOf_NoDup. }
  f_equal.
  - destruct (decide (tableName ∈ _)) as [Hin|Hnin];
      rewrite rangeOf_keys in *; by case_decide.
  - rewrite compareDatabases_common.
    destruct (decide (tableName ∈ _)) as [Hin|Hnin]; case_decide as Hd; try done.
    + destruct Hd. rewrite list_elem_of_In, filter_In, <- list_elem_of_In in Hin.
      destruct Hin as [Hin ?]. apply list_elem_of_filter in Hin as [? Hin].
      apply rangeOf_keys in Hin. by rewrite !elem_of_dom.
    + destruct Hnin. destruct Hd as (Hs & Ht & Hd).
      rewrite list_elem_of_In, filter_In, <- list_elem_of_In. split; [|done].
      apply list_elem_of_filter. rewrite rangeOf_keys, <- !elem_of_dom. done.
Qed.

End SummaryFacts.

Section SummaryClaims.
Context {R : MapRange}.

Lemma compareDatabases_diffs_common (sourceSchemas targetSchemas : gmap string TableSchema.t)
    (tableName : string) (s t : TableSchema.t) :
  sourceSchemas !! tableName = Some s → targetSchemas !! tableName = Some t →
  (compareDatabases sourceSchemas targetSchemas).2 !! tableName
  = if (compareTableSchema tableName s t).1
    then Some (compareTableSchema tableName s t).2 else None.
Proof.
  intros Hs Ht. rewrite compareDatabases_diffs, decide_True by (by rewrite Hs).
  unfold tableDiff, goIndex. by rewrite Hs, Ht.
Qed.

(** A common table whose row counts differ is listed once when its two
    schemas show no difference. *)
Lemma DifferentTables_listed_once (adapter : DatabaseAdapter) (sourceDB targetDB : DB)
    (sourceSchemas targetSchemas : gmap string TableSchema.t)
    (tableName : string) (s t : TableSchema.t) :
  sourceSchemas !! tableName = Some s → targetSchemas !! tableName = Some t →
  (compareTableSchema tableName s t).1 = false →
  rowCountsDiffer adapter sourceDB targetDB tableName = true →
  occurrences tableName
    (ComparisonSummary.DifferentTables
       (main_dataDifferences adapter sourceDB targetDB sourceSchemas targetSchemas).2.1)
  = 1%nat.
Proof.
  intros Hs Ht Hschema Hrows. rewrite DifferentTables_occurrences.
  rewrite (compareDatabases_diffs_common _ _ _ s t Hs Ht), Hschema.
  rewrite decide_False by (by intros [? ?]).
  rewrite decide_True; [done|]. rewrite !elem_of_dom, Hs, Ht. eauto.
Qed.

(** C2, as the code has it.  A common table whose schemas differ and whose
    row counts differ is appended to [DifferentTables] by the loop over
    [schemaDifferences] and again, without a [contains] check, by the
    row-count loop: it is listed twice. *)
Theorem DifferentTables_listed_twice (adapter : DatabaseAdapter) (sourceDB targetDB : DB)
    (sourceSchemas targetSchemas : gmap string TableSchema.t)
    (tableName : string) (s t : TableSchema.t) :
  sourceSchemas !! tableName = Some s → targetSchemas !! tableName = Some t →
  (compareTableSchema tableName s t).1 = true →
  rowCountsDiffer adapter sourceDB targetDB tableName = true →
  let summary :=
    (main_dataDifferences adapter sourceDB targetDB sourceSchemas targetSchemas).2.1 in
  occurrences tableName (ComparisonSummary.DifferentTables summary) = 2%nat
  ∧ ¬ NoDup (ComparisonSummary.DifferentTables summary).
Proof.
  intros Hs Ht Hschema Hrows summary.
  assert (occurrences tableName (ComparisonSummary.DifferentTables summary) = 2%nat)
    as Htwice.
  { subst summary. rewrite DifferentTables_occurrences.
    rewrite (compareDatabases_diffs_common _ _ _ s t Hs Ht), Hschema.
    rewrite decide_True by eauto.
    rewrite decide_True; [done|]. rewrite !elem_of_dom, Hs, Ht. eauto. }
  split; [done|]. intros Hnd.
  rewrite (occurrences_NoDup _ _ Hnd) in Htwice. by case_decide.
Qed.

End SummaryClaims.

(** ** The properties on the example tables *)

Lemma DifferentTables_listed_twice_witness :
  let summary :=
    (@main_dataDifferences canonicalRange MySQLAdapter (constDB 100) (constDB 101)
       {["users" := usersV1]} {["users" := usersV2]}).2.1 in
  occurrences "users" (ComparisonSummary.DifferentTables summary) = 2%nat
  ∧ ¬ NoDup (ComparisonSummary.DifferentTables summary).
Proof.
  apply (@DifferentTables_listed_twice canonicalRange MySQLAdapter
           (constDB 100) (constDB 101)
           {["users" := usersV1]} {["users" := usersV2]} "users" usersV1 usersV2);
    vm_compute; reflexivity.
Defined.

(** The run of the failing input of C2, evaluated. *)
Lemma DifferentTables_users_twice :
  ComparisonSummary.DifferentTables
    (@main_dataDifferences canonicalRange MySQLAdapter (constDB 100) (constDB 101)
       {["users" := usersV1]} {["users" := usersV2]}).2.1
  = ["users"; "users"].
Proof. vm_compute. reflexivity. Qed.

Lemma compareTableSchema_column_entries_witness :
  let es := (@compareTableSchema_entries canonicalRange "accounts"
               accountsSource accountsTarget).2 in
  ((count_if (isOnlyInSource "legacy") es = 1%nat
    ∧ count_if (isOnlyInTarget "legacy") es = 0%nat)
   ∧ occurrences "Column 'accounts.legacy' exists in source but not in target"
       (@compareTableSchema canonicalRange "accounts" accountsSource accountsTarget).2
     = 1%nat)
  ∧ ((count_if (isOnlyInTarget "nickname") es = 1%nat
      ∧ count_if (isOnlyInSource "nickname") es = 0%nat)
     ∧ occurrences "Column 'accounts.nickname' exists in target but not in source"
         (@compareTableSchema canonicalRange "accounts" accountsSource accountsTarget).2
       = 1%nat)
  ∧ (count_if (isDataType "id") es = 1%nat ∧ count_if (isNullable "id") es = 0%nat)
  ∧ (count_if (isDataType "email") es = 0%nat ∧ count_if (isNullable "email") es = 1%nat).
Proof.
  intros es. split; [|split; [|split]].
  - destruct (@compareTableSchema_column_entries canonicalRange "accounts"
                accountsSource accountsTarget "legacy") as (_ & Hsource & _ & _).
    destruct Hsource as (Hcount & Hline & _);
      [apply (bool_decide_unpack _); vm_compute; exact I
      |apply (bool_decide_unpack _); vm_compute; exact I|].
    split; [exact Hcount|exact Hline].
  - destruct (@compareTableSchema_column_entries canonicalRange "accounts"
                accountsSource accountsTarget "nickname") as (_ & _ & Htarget & _).
    destruct Htarget as (Hcount & Hline & _);
      [apply (bool_decide_unpack _); vm_compute; exact I
      |apply (bool_decide_unpack _); vm_compute; exact I|].
    split; [exact Hcount|exact Hline].
  - destruct (@compareTableSchema_column_entries canonicalRange "accounts"
                accountsSource accountsTarget "id") as (_ & _ & _ & Hboth).
    destruct (Hboth (col "id" "int" "NO") (col "id" "bigint" "NO") eq_refl eq_refl)
      as (Htype & Hnull & _).
    split; [exact Htype|exact Hnull].
  - destruct (@compareTableSchema_column_entries canonicalRange "accounts"
                accountsSource accountsTarget "email") as (_ & _ & _ & Hboth).
    destruct (Hboth (col "email" "varchar(255)" "YES") (col "email" "varchar(255)" "NO")
                eq_refl eq_refl) as (Htype & Hnull & _).
    split; [exact Htype|exact Hnull].
Defined.

Lemma primary_keys_order_independent_witness :
  @compareStringSlices canonicalRange ["id"; "email"] ["email"; "id"] = true
  ∧ count_if isPrimaryKeys
      (@compareTableSchema_entries canonicalRange "accounts"
         accountsSource accountsTarget).2 = 0%nat.
Proof.
  destruct (@primary_keys_order_independent canonicalRange "accounts"
              accountsSource accountsTarget (perm_swap "email" "id" []))
    as (Heq & Hnone & _).
  split; [exact Heq|exact Hnone].
Defined.

(** ** Runs of the model *)

Example scenario_tables :
  (@compareDatabases canonicalRange scenarioSource scenarioTarget).1
  = (["orders"], ["products"], ["users"]).
Proof. vm_compute. reflexivity. Qed.

Example scenario_no_schema_differences :
  map_to_list (@compareDatabases canonicalRange scenarioSource scenarioTarget).2 = [].
Proof. vm_compute. reflexivity. Qed.

Example scenario_console :
  Line_render <$> stdout (@main_dataDifferences canonicalRange SQLiteAdapter
                            (constDB 100) (constDB 100) scenarioSource scenarioTarget)
  = [newline +:+ "=== Data Differences ==="; "Comparing data for 1 tables...";
     "Progress: 0%"; "Progress: 100%"].
Proof. vm_compute. reflexivity. Qed.

(** The same comparison under two iteration orders: the entries are the
    same, their order is not. *)
Example accounts_entries :
  @compareTableSchema canonicalRange "accounts" accountsSource accountsTarget
  = (true,
     ["Column 'accounts.email' has different nullable property: source='YES', target='NO'";
      "Column 'accounts.id' has different data type: source='int', target='bigint'";
      "Column 'accounts.legacy' exists in source but not in target";
      "Column 'accounts.nickname' exists in target but not in source"]).
Proof. vm_compute. reflexivity. Qed.

Example accounts_entries_reversed :
  @compareTableSchema reversedRange "accounts" accountsSource accountsTarget
  = (true,
     ["Column 'accounts.legacy' exists in source but not in target";
      "Column 'accounts.id' has different data type: source='int', target='bigint'";
      "Column 'accounts.email' has different nullable property: source='YES', target='NO'";
      "Column 'accounts.nickname' exists in target but not in source"]).
Proof. vm_compute. reflexivity. Qed.

Example progress_of_seven_tables :
  progressPercents
    (stdout (verifyTables MySQLAdapter (constDB 1) (constDB 1) 7 0
               ["a"; "b"; "c"; "d"; "e"; "f"; "g"]
               (-1, ComparisonSummary.mk [] ∅ 0 false)))
  = [0; 14; 28; 42; 57; 71; 85].
Proof. vm_compute. reflexivity. Qed.

(** With more than a hundred tables some indexes repeat a percentage, which
    is then not printed again. *)
Example progress_skips_repeated_percent :
  progressPercents
    (stdout (verifyTables MySQLAdapter (constDB 1) (constDB 1) 300 0
               ["a"; "b"; "c"; "d"; "e"; "f"; "g"]
               (-1, ComparisonSummary.mk [] ∅ 0 false)))
  = [0; 1; 2].
Proof. vm_compute. reflexivity. Qed.

Example primary_keys_declared_in_other_order :
  @compareStringSlices canonicalRange ["a"; "b"] ["b"; "a"] = true.
Proof. vm_compute. reflexivity. Qed.

Example primary_keys_different :
  Difference_render <$> (@compareTableSchema_entries canonicalRange "t"
     (TableSchema.mk "t" [] [] [] ["a"; "b"]) (TableSchema.mk "t" [] [] [] ["a"; "c"])).2
  = ["Table 't' has different primary keys: source=[a b], target=[a c]"].
Proof. vm_compute. reflexivity. Qed.

(** * Properties of the rest of the program *)

(** ** Go's [strings] package *)

Lemma append_nil (s : string) : EmptyString +:+ s = s.
Proof. done. Qed.

Lemma append_cons (c : ascii) (a b : string) : String c a +:+ b = String c (a +:+ b).
Proof. done. Qed.

Lemma append_assoc (a b c : string) : (a +:+ b) +:+ c = a +:+ b +:+ c.
Proof. induction a as [|x a IH]; [done|]. by rewrite !append_cons, IH. Qed.

Lemma prefix_app (p s : string) : String.prefix p (p +:+ s) = true.
Proof.
  induction p as [|c p IH]; [by destruct s|].
  rewrite append_cons. simpl. by destruct (ascii_dec c c).
Qed.

Lemma prefix_cons_char (c x : ascii) (s : string) :
  String.prefix (String c EmptyString) (String x s) = bool_decide (x = c).
Proof.
  simpl. destruct (ascii_dec c x) as [->|Hne].
  - rewrite bool_decide_eq_true_2 by done. by destruct s.
  - by rewrite bool_decide_eq_false_2 by congruence.
Qed.

Lemma sliceFrom_app (p s : string) : sliceFrom (String.length p) (p +:+ s) = s.
Proof. induction p as [|c p IH]; [done|]. by rewrite append_cons. Qed.

Lemma prefix_split (p s : string) :
  String.prefix p s = true → s = p +:+ sliceFrom (String.length p) s.
Proof.
  revert s. induction p as [|c p IH]; intros s.
  - by destruct s.
  - destruct s as [|x s]; simpl; [done|].
    destruct (ascii_dec c x) as [->|]; [|done].
    intros Hp. change (String x s = String x (p +:+ sliceFrom (String.length p) s)).
    f_equal. by apply IH.
Qed.

Lemma strContains_unfold (s p : string) :
  strContains s p
  = String.prefix p s
    || match s with
       | EmptyString => false
       | String _ rest => strContains rest p
       end.
Proof. by destruct s. Qed.

Lemma strContains_prefix (p s : string) : strContains (p +:+ s) p = true.
Proof. by rewrite strContains_unfold, prefix_app. Qed.

Lemma strContains_app_r (a b p : string) :
  strContains b p = true → strContains (a +:+ b) p = true.
Proof.
  intros Hb. induction a as [|c a IH]; [done|].
  rewrite append_cons. cbn [strContains]. rewrite IH. apply orb_true_r.
Qed.

Lemma strContains_char (c : ascii) (s : string) :
  strContains s (String c EmptyString) = true ↔ c ∈ String.list_ascii_of_string s.
Proof.
  induction s as [|x s IH].
  - simpl. split; [done|]. by intros ?%not_elem_of_nil.
  - cbn [strContains String.list_ascii_of_string].
    rewrite prefix_cons_char, orb_true_iff, IH, bool_decide_eq_true, elem_of_cons.
    split; (intros [?|?]; [left|right]); done.
Qed.

Lemma strCut_None (c : ascii) (s : string) :
  strCut c s = None ↔ strContains s (String c EmptyString) = false.
Proof.
  induction s as [|x s IH]; [done|].
  cbn [strCut strContains]. rewrite prefix_cons_char.
  case_bool_decide; [done|]. simpl. rewrite <- IH.
  by destruct (strCut c s) as [[? ?]|].
Qed.

(** The first occurrence of the separator is where the text is cut. *)
Lemma strCut_app (c : ascii) (before after : string) :
  strContains before (String c EmptyString) = false →
  strCut c (before +:+ String c after) = Some (before, after).
Proof.
  induction before as [|x before IH]; intros Hb.
  - rewrite append_nil. simpl. by rewrite bool_decide_eq_true_2.
  - cbn [strContains] in Hb. rewrite prefix_cons_char in Hb.
    apply orb_false_iff in Hb as [Hx Hb].
    rewrite append_cons. cbn [strCut]. rewrite Hx. by rewrite IH.
Qed.

Lemma strCut_Some (c : ascii) (s before after : string) :
  strCut c s = Some (before, after) →
  s = before +:+ String c after ∧ strContains before (String c EmptyString) = false.
Proof.
  revert before. induction s as [|x s IH]; intros before; [done|].
  cbn [strCut]. case_bool_decide as Hx.
  - intros [= <- <-]. by subst.
  - destruct (strCut c s) as [[b a]|]; [|done]. intros [= <- <-].
    destruct (IH b eq_refl) as [-> Hb]. split; [done|].
    cbn [strContains]. rewrite prefix_cons_char, Hb.
    by rewrite bool_decide_eq_false_2.
Qed.

(** ** Connection strings *)

(** X1. [GetConnectStringFromURL] removes the adapter's own URL scheme from
    the front of the URL, exactly once, and leaves every other URL as it is;
    the PostgreSQL adapter changes nothing. *)
Theorem GetConnectStringFromURL_scheme (a : DatabaseAdapter) (url : string) :
  match urlScheme a with
  | Some scheme =>
      if hasPrefix url scheme
      then url = scheme +:+ GetConnectStringFromURL a url
      else GetConnectStringFromURL a url = url
  | None => GetConnectStringFromURL a url = url
  end.
Proof.
  destruct a; cbn [urlScheme GetConnectStringFromURL]; [|done|].
  - destruct (hasPrefix url "mysql://") eqn:Hp; [|done].
    by apply (prefix_split "mysql://").
  - destruct (hasPrefix url "sqlite://") eqn:Hp; [|done].
    by apply (prefix_split "sqlite://").
Qed.

(** X2. A MySQL connection string [user@host/db] without a [tcp(] wrapper,
    where [user] holds no [@] and [host] no [/], is rewritten into
    [user@tcp(host)/db]. *)
Theorem MySQL_Connect_dsn_wraps (userPass hostPort dbname : string) :
  strContains userPass "@" = false →
  strContains hostPort "/" = false →
  strContains (userPass +:+ "@" +:+ hostPort +:+ "/" +:+ dbname) "tcp(" = false →
  MySQL_Connect_dsn (userPass +:+ "@" +:+ hostPort +:+ "/" +:+ dbname)
  = userPass +:+ "@tcp(" +:+ hostPort +:+ ")/" +:+ dbname.
Proof.
  intros Hu Hh Htcp. unfold MySQL_Connect_dsn. rewrite Htcp.
  rewrite (strContains_app_r userPass _ "@") by apply strContains_prefix.
  cbn [negb andb]. unfold strSplitN2.
  change (userPass +:+ "@" +:+ hostPort +:+ "/" +:+ dbname)
    with (userPass +:+ String "@" (hostPort +:+ String "/" dbname)).
  rewrite (strCut_app "@" userPass) by done.
  unfold at_. simpl. rewrite (strCut_app "/" hostPort) by done.
  by simpl.
Qed.

Lemma MySQL_Connect_dsn_wraps_witness :
  MySQL_Connect_dsn "user:password@localhost:3306/dbname1"
  = "user:password@tcp(localhost:3306)/dbname1".
Proof.
  apply (MySQL_Connect_dsn_wraps "user:password" "localhost:3306" "dbname1");
    vm_compute; reflexivity.
Defined.

Lemma MySQL_Connect_dsn_cases (s : string) :
  MySQL_Connect_dsn s = s
  ∨ ∃ userPass hostPort dbname,
      MySQL_Connect_dsn s = userPass +:+ "@tcp(" +:+ hostPort +:+ ")/" +:+ dbname.
Proof.
  unfold MySQL_Connect_dsn, strSplitN2, at_.
  destruct (negb _ && _); [|by left].
  destruct (strCut "@" s) as [[u rest]|]; simpl; [|by left].
  destruct (strCut "/" rest) as [[h d]|]; simpl; [|by left].
  right. by exists u, h, d.
Qed.

(** X3. Rewriting a MySQL connection string is idempotent: a string that
    already has the [tcp(] wrapper is left alone, so is one without [@],
    and the rewritten string has the wrapper. *)
Theorem MySQL_Connect_dsn_idempotent (s : string) :
  MySQL_Connect_dsn (MySQL_Connect_dsn s) = MySQL_Connect_dsn s
  ∧ (strContains s "tcp(" = true ∨ strContains s "@" = false →
     MySQL_Connect_dsn s = s)
  ∧ (MySQL_Connect_dsn s ≠ s → strContains (MySQL_Connect_dsn s) "tcp(" = true).
Proof.
  assert (∀ x, strContains x "tcp(" = true ∨ strContains x "@" = false →
               MySQL_Connect_dsn x = x) as Hsame.
  { intros x [Hx|Hx]; unfold MySQL_Connect_dsn; rewrite Hx; [done|].
    by rewrite andb_false_r. }
  assert (MySQL_Connect_dsn s ≠ s → strContains (MySQL_Connect_dsn s) "tcp(" = true)
    as Hwrapped.
  { destruct (MySQL_Connect_dsn_cases s) as [->|(u & h & d & ->)]; [by intros []|].
    intros _. apply strContains_app_r.
    change ("@tcp(" +:+ h +:+ ")/" +:+ d) with ("@" +:+ "tcp(" +:+ h +:+ ")/" +:+ d).
    apply strContains_app_r, strContains_prefix. }
  split; [|split; [apply Hsame|exact Hwrapped]].
  destruct (decide (MySQL_Connect_dsn s = s)) as [Heq|Hne]; [by rewrite Heq, Heq|].
  apply Hsame. left. by apply Hwrapped.
Qed.

Lemma MySQL_Connect_dsn_idempotent_witness :
  MySQL_Connect_dsn "user:password@tcp(localhost:3306)/dbname1"
  = "user:password@tcp(localhost:3306)/dbname1"
  ∧ strContains (MySQL_Connect_dsn "user:password@localhost:3306/dbname1") "tcp(" = true.
Proof.
  destruct (MySQL_Connect_dsn_idempotent "user:password@tcp(localhost:3306)/dbname1")
    as (_ & Hsame & _).
  destruct (MySQL_Connect_dsn_idempotent "user:password@localhost:3306/dbname1")
    as (_ & _ & Hwrapped).
  split.
  - apply Hsame. left. vm_compute. reflexivity.
  - apply Hwrapped. vm_compute. discriminate.
Defined.

(** ** util.go: the ORDER BY clause *)

Lemma join_quoted_nonempty {A} (name : A → string) (l : list A) :
  l ≠ [] → join ", " ((fun x => dquote +:+ name x +:+ dquote) <$> l) ≠ EmptyString.
Proof.
  destruct l as [|x [|y l]]; [done| |]; intros _; rewrite !fmap_cons; cbn [join fmap list_fmap].
  - unfold dquote. by rewrite append_cons.
  - unfold dquote at 1. by rewrite append_cons.
Qed.

(** X4. The ORDER BY clause of the PostgreSQL hash query is empty exactly
    for a table with neither primary keys nor columns. *)
Theorem getOrderByClause_empty (schema : TableSchema.t) :
  getOrderByClause schema = EmptyString
  ↔ TableSchema.PrimaryKeys schema = [] ∧ TableSchema.Columns schema = [].
Proof.
  unfold getOrderByClause.
  destruct (TableSchema.PrimaryKeys schema) as [|k ks] eqn:Hk.
  - rewrite bool_decide_eq_false_2 by (simpl; lia).
    destruct (TableSchema.Columns schema) as [|c cs] eqn:Hc; [done|].
    split; [|by intros [_ ?]]. intros Hj.
    by apply (join_quoted_nonempty ColumnSchema.Name (c :: cs)) in Hj.
  - rewrite bool_decide_eq_true_2 by (simpl; lia).
    split; [|by intros [? _]]. intros Hj.
    by apply (join_quoted_nonempty id (k :: ks)) in Hj.
Qed.

(** ** util.go: database information *)

Lemma strSplit_cut (c : ascii) (s : string) :
  strSplit c s
  = match strCut c s with
    | Some (b, a) => b :: strSplit c a
    | None => [s]
    end.
Proof.
  induction s as [|x s IH]; [done|].
  cbn [strSplit strCut]. case_bool_decide; [done|].
  rewrite IH. by destruct (strCut c s) as [[b a]|].
Qed.

Lemma strSplit_head (c : ascii) (s : string) :
  at_ (strSplit c s) 0 = before c s.
Proof.
  rewrite strSplit_cut. unfold before. by destruct (strCut c s) as [[b a]|].
Qed.

Lemma strContains_char_app (c : ascii) (a b : string) :
  strContains (a +:+ b) (String c EmptyString) = false
  ↔ strContains a (String c EmptyString) = false
    ∧ strContains b (String c EmptyString) = false.
Proof.
  rewrite <- !not_true_iff_false, !strContains_char, list_ascii_of_string_app,
    elem_of_app. tauto.
Qed.

Lemma strContains_char_cons (c x : ascii) (s : string) :
  strContains (String x s) (String c EmptyString) = false
  ↔ x ≠ c ∧ strContains s (String c EmptyString) = false.
Proof.
  cbn [strContains]. rewrite prefix_cons_char, orb_false_iff, bool_decide_eq_false.
  tauto.
Qed.

Lemma before_app (c : ascii) (b a : string) :
  strContains b (String c EmptyString) = false → before c (b +:+ String c a) = b.
Proof. intros Hb. unfold before. by rewrite strCut_app. Qed.

Lemma before_absent (c : ascii) (s : string) :
  strContains s (String c EmptyString) = false → before c s = s.
Proof. intros Hs%strCut_None. unfold before. by rewrite Hs. Qed.

Lemma before_cons_eq (c : ascii) (s : string) : before c (String c s) = EmptyString.
Proof. unfold before. simpl. by rewrite bool_decide_eq_true_2. Qed.

Lemma before_cons_ne (c x : ascii) (s : string) :
  x ≠ c → before c (String x s) = String x (before c s).
Proof.
  intros Hx. unfold before. simpl. rewrite bool_decide_eq_false_2 by done.
  by destruct (strCut c s) as [[? ?]|].
Qed.

(** Cutting at [c1] first does not disturb a part that ends at [c2]. *)
Lemma before_before (c1 c2 : ascii) (b a : string) :
  strContains b (String c1 EmptyString) = false →
  strContains b (String c2 EmptyString) = false →
  before c2 (before c1 (b +:+ String c2 a)) = b.
Proof.
  induction b as [|x b IH]; intros H1 H2.
  - rewrite append_nil. destruct (decide (c2 = c1)) as [->|Hne].
    + by rewrite before_cons_eq.
    + by rewrite before_cons_ne, before_cons_eq.
  - apply strContains_char_cons in H1 as [Hx1 H1], H2 as [Hx2 H2].
    rewrite append_cons, before_cons_ne, before_cons_ne by done.
    by rewrite IH.
Qed.

(** Where [GetDatabaseInfo] finds the host and the database name. *)
Lemma connectionTarget_eq (s : string) :
  connectionTarget s
  = match strCut "@" s with
    | None => ("local", s)
    | Some (_, rest) =>
        match strCut "/" (before "@" rest) with
        | None => (before "@" rest, EmptyString)
        | Some (host, tail) => (host, before "?" (before "/" tail))
        end
    end.
Proof.
  unfold connectionTarget.
  destruct (strCut "@" s) as [[user rest]|] eqn:Hcut.
  - assert (strContains s "@" = true) as ->.
    { apply not_false_iff_true. rewrite <- strCut_None. by rewrite Hcut. }
    rewrite (strSplit_cut "@" s), Hcut.
    assert (at_ (user :: strSplit "@" rest) 1 = before "@" rest) as ->
      by apply (strSplit_head "@" rest).
    assert (length (user :: strSplit "@" rest) = S (length (strSplit "@" rest))) as ->
      by done.
    rewrite bool_decide_eq_true_2.
    2: { rewrite (strSplit_cut "@" rest). destruct (strCut "@" rest) as [[? ?]|]; simpl; lia. }
    rewrite (strSplit_head "/"), (strSplit_cut "/" (before "@" rest)).
    destruct (strCut "/" (before "@" rest)) as [[host tail]|] eqn:Hslash.
    + unfold before at 1. rewrite Hslash.
      rewrite bool_decide_eq_true_2.
      2: { rewrite (strSplit_cut "/" tail). destruct (strCut "/" tail) as [[? ?]|]; simpl; lia. }
      assert (at_ (host :: strSplit "/" tail) 1 = before "/" tail) as ->
        by apply (strSplit_head "/" tail).
      by rewrite strSplit_head.
    + rewrite bool_decide_eq_false_2 by (simpl; lia).
      unfold before at 1. by rewrite Hslash.
  - apply strCut_None in Hcut. by rewrite Hcut.
Qed.

(** X5. From [user@host/db], also when [?params] follow, [GetDatabaseInfo]
    takes [host] as the host and [db] as the database name, provided the
    parts hold no further separator; every connection string without [@],
    whatever else it holds, is taken as a local database named by the
    whole string. *)
Theorem connectionTarget_standard (user host db params : string) :
  strContains user "@" = false →
  strContains host "@" = false → strContains host "/" = false →
  strContains db "@" = false → strContains db "/" = false →
  strContains db "?" = false →
  connectionTarget (user +:+ "@" +:+ host +:+ "/" +:+ db) = (host, db)
  ∧ (strContains params "@" = false →
     connectionTarget (user +:+ "@" +:+ host +:+ "/" +:+ db +:+ "?" +:+ params)
     = (host, db))
  ∧ ∀ path, strContains path "@" = false → connectionTarget path = ("local", path).
Proof.
  intros Hu Hha Hhs Hda Hds Hdq. split; [|split].
  - rewrite connectionTarget_eq.
    change (user +:+ "@" +:+ host +:+ "/" +:+ db)
      with (user +:+ String "@" (host +:+ String "/" db)).
    rewrite strCut_app by done.
    rewrite (before_absent "@").
    2: { apply strContains_char_app. split; [done|]. by apply strContains_char_cons. }
    rewrite strCut_app by done.
    by rewrite (before_absent "/"), (before_absent "?").
  - intros Hp. rewrite connectionTarget_eq.
    change (user +:+ "@" +:+ host +:+ "/" +:+ db +:+ "?" +:+ params)
      with (user +:+ String "@" (host +:+ String "/" (db +:+ String "?" params))).
    rewrite strCut_app by done.
    rewrite (before_absent "@").
    2: { apply strContains_char_app. split; [done|]. apply strContains_char_cons.
         split; [done|]. apply strContains_char_app. split; [done|].
         by apply strContains_char_cons. }
    rewrite strCut_app by done.
    by rewrite before_before.
  - intros path Hpath. unfold connectionTarget. by rewrite Hpath.
Qed.


Lemma connectionTarget_standard_witness :
  connectionTarget "user:password@localhost:3306/dbname1" = ("localhost:3306", "dbname1")
  ∧ connectionTarget "user:password@localhost:3306/dbname1?sslmode=disable"
    = ("localhost:3306", "dbname1")
  ∧ connectionTarget "path/to/db1.db" = ("local", "path/to/db1.db")
  ∧ connectionTarget "file:db1.db?mode=ro" = ("local", "file:db1.db?mode=ro").
Proof.
  destruct (connectionTarget_standard "user:password" "localhost:3306" "dbname1"
              "sslmode=disable" eq_refl eq_refl eq_refl eq_refl eq_refl eq_refl)
    as (Hplain & Hparams & Hlocal).
  split; [exact Hplain|]. split; [exact (Hparams eq_refl)|].
  split; [exact (Hlocal "path/to/db1.db" eq_refl)
         |exact (Hlocal "file:db1.db?mode=ro" eq_refl)].
Defined.

(** ** Logged queries *)

Lemma Queried_bind_log {A B} (m : Queried A) (k : A -> Queried B) :
  (m ≫= k).1 = m.1 ++ (k m.2).1.
Proof.
  unfold mbind, Queried_mbind, Queried_bind. destruct m as [l a]. simpl.
  by destruct (k a).
Qed.

Lemma Queried_bind_value {A B} (m : Queried A) (k : A -> Queried B) :
  (m ≫= k).2 = (k m.2).2.
Proof.
  unfold mbind, Queried_mbind, Queried_bind. destruct m as [l a]. simpl.
  by destruct (k a).
Qed.

(** A loop whose body issues no query and cannot fail collects the rows up
    to the first that does not scan. *)
Lemma forRows_pure {A S} (f : S -> A -> S) (rows : list (result A)) (st : S) :
  forRows rows (fun st a => mret (f st a, None)) st
  = ([], (foldl f st (scanned rows).1, (scanned rows).2)).
Proof.
  revert st. induction rows as [|[a|e] rows IH]; intros st; [done| |done].
  cbn [forRows scanned]. unfold mbind, Queried_mbind, Queried_bind, mret, Queried_mret,
    Queried_ret. cbn. rewrite IH. by destruct (scanned rows).
Qed.

(** ** The adapters: table lists *)

Lemma GetTableList_log (a : DatabaseAdapter) (db : Catalog) :
  (GetTableList a db).1 = [(tableListQuery a, [])].
Proof.
  unfold GetTableList, query. rewrite Queried_bind_log. cbn [fst snd].
  destruct (rowsName db (tableListQuery a) []) as [rows|e]; [|done].
  rewrite (forRows_pure (fun tables tableName => tables ++ [tableName])).
  unfold mbind, Queried_mbind, Queried_bind. cbn. by destruct (scanned rows).2.
Qed.

(** X6. [GetTableList] issues the adapter's one query.  It returns the
    names of the rows in order; when the query fails, or a row does not
    scan, it returns no table at all and the error. *)
Theorem GetTableList_rows (a : DatabaseAdapter) (db : Catalog) :
  (GetTableList a db).1 = [(tableListQuery a, [])]
  ∧ (GetTableList a db).2
    = match rowsName db (tableListQuery a) [] with
      | Err e => ([], Some e)
      | Ok rows =>
          match (scanned rows).2 with
          | Some e => ([], Some e)
          | None => ((scanned rows).1, None)
          end
      end.
Proof.
  split; [apply GetTableList_log|].
  unfold GetTableList, query. rewrite Queried_bind_value. cbn [fst snd].
  destruct (rowsName db (tableListQuery a) []) as [rows|e]; [|done].
  rewrite (forRows_pure (fun tables tableName => tables ++ [tableName])).
  assert (∀ (l acc : list string), foldl (fun tables tableName => tables ++ [tableName]) acc l
                                   = acc ++ l) as Hfold.
  { induction l as [|x l IH]; intros acc; simpl; [by rewrite app_nil_r|].
    by rewrite IH, <- app_assoc. }
  rewrite Hfold. unfold mbind, Queried_mbind, Queried_bind. cbn.
  by destruct (scanned rows).2.
Qed.

(** X7. [GetDatabaseInfo] reads host and database name off the connection
    string in every case.  A failing table list is returned as the error,
    with zero counts and before any size query; a failing size query is not
    an error and leaves the size at zero. *)
Theorem GetDatabaseInfo_errors (adapter : DatabaseAdapter) (catalog : Catalog) (db : DB)
    (connectionString : string) :
  let run := GetDatabaseInfo adapter catalog db connectionString in
  let list := GetTableList adapter catalog in
  (DatabaseInfo.Host run.2.1, DatabaseInfo.DatabaseName run.2.1)
  = connectionTarget connectionString
  ∧ match list.2.2 with
    | Some e =>
        run.2.2 = Some e
        ∧ DatabaseInfo.TableCount run.2.1 = 0 ∧ DatabaseInfo.TotalSize run.2.1 = 0
        ∧ run.1 = [(tableListQuery adapter, [])]
    | None =>
        run.2.2 = None
        ∧ DatabaseInfo.TableCount run.2.1 = Z.of_nat (length list.2.1)
        ∧ DatabaseInfo.TotalSize run.2.1
          = match scanInt db (sizeQuery adapter) with Ok size => size | Err _ => 0 end
        ∧ run.1 = [(tableListQuery adapter, []); (sizeQuery adapter, [])]
    end.
Proof.
  intros run list. subst run list. unfold GetDatabaseInfo.
  destruct (connectionTarget connectionString) as [host databaseName].
  rewrite Queried_bind_log, Queried_bind_value, GetTableList_log.
  destruct (GetTableList adapter catalog).2 as [tables [e|]]; cbn [fst snd]; [done|].
  rewrite Queried_bind_log, Queried_bind_value. cbn [fst snd].
  by destruct (scanInt db (sizeQuery adapter)).
Qed.

(** ** The adapters: table schemas *)

(** What holds before a loop over rows and is kept by its body holds for
    the schema the loop returns, with or without an error. *)
Lemma forRows_invariant {A S} (P : S → Prop) (rows : list (result A))
    (body : S -> A -> Queried (S * option string)) (st : S) :
  P st → (∀ st a, P st → P (body st a).2.1) → P (forRows rows body st).2.1.
Proof.
  intros Hst Hbody. revert st Hst.
  induction rows as [|[a|e] rows IH]; intros st Hst; [done| |done].
  cbn [forRows]. rewrite Queried_bind_value.
  specialize (Hbody st a Hst).
  destruct (body st a).2 as [st' [e|]]; cbn [fst snd] in *; [done|]. by apply IH.
Qed.

Lemma queryLoop_invariant {A} (P : TableSchema.t → Prop)
    (answer : string -> list string -> Rows A) (text : string) (args : list string)
    (body : TableSchema.t -> A -> Queried (TableSchema.t * option string))
    (s : TableSchema.t) :
  P s → (∀ s a, P s → P (body s a).2.1) → P (queryLoop answer text args body s).2.1.
Proof.
  intros Hs Hbody. unfold queryLoop, query. rewrite Queried_bind_value. cbn [snd].
  destruct (answer text args) as [rows|e]; [|done]. by apply forRows_invariant.
Qed.

Lemma andThen_invariant (P : TableSchema.t → Prop)
    (a : Queried (TableSchema.t * option string))
    (b : TableSchema.t -> Queried (TableSchema.t * option string)) :
  P a.2.1 → (∀ s, P s → P (b s).2.1) → P (andThen a b).2.1.
Proof.
  intros Ha Hb. unfold andThen. rewrite Queried_bind_value.
  destruct a.2 as [s [e|]]; cbn [fst snd] in *; [done|]. by apply Hb.
Qed.

Lemma primaryColumns_snoc (cols : list ColumnSchema.t) (c : ColumnSchema.t) :
  primaryColumns (cols ++ [c])
  = primaryColumns cols
    ++ (if bool_decide (ColumnSchema.Key c = "PRI") then [ColumnSchema.Name c] else []).
Proof.
  unfold primaryColumns. rewrite filter_app, fmap_app. f_equal.
  rewrite filter_cons, filter_nil. by case_bool_decide; case_decide.
Qed.

Lemma primaryColumns_subseteq (cols : list ColumnSchema.t) :
  primaryColumns cols ⊆ ColumnSchema.Name <$> cols.
Proof.
  intros k (c & -> & Hc)%list_elem_of_fmap. apply list_elem_of_filter in Hc as [_ Hc].
  apply list_elem_of_fmap. by exists c.
Qed.

(** X8. The schema [SQLiteAdapter.GetTableSchema] returns, complete or cut
    short by an error, carries the table name; its primary keys are the
    names of the columns marked [PRI], in column order, so each of them is
    a column; every column is marked nullable [YES] or [NO]; and every
    foreign key is named [fk_<table>_<id>]. *)
Theorem SQLite_GetTableSchema_invariants (db : Catalog) (tableName : string) :
  let s := (SQLite_GetTableSchema db tableName).2.1 in
  TableSchema.Name s = tableName
  ∧ TableSchema.PrimaryKeys s = primaryColumns (TableSchema.Columns s)
  ∧ TableSchema.PrimaryKeys s ⊆ columnNames s
  ∧ Forall (fun c => (ColumnSchema.Nullable c = "YES" ∨ ColumnSchema.Nullable c = "NO")
                     ∧ (ColumnSchema.Key c = "PRI" ∨ ColumnSchema.Key c = EmptyString)
                     ∧ ColumnSchema.Extra c = EmptyString)
      (TableSchema.Columns s)
  ∧ Forall (fun fk => hasPrefix (ForeignKeySchema.Name fk) ("fk_" +:+ tableName +:+ "_")
                      = true)
      (TableSchema.ForeignKeys s).
Proof.
  set (P := fun s : TableSchema.t =>
    TableSchema.Name s = tableName
    ∧ TableSchema.PrimaryKeys s = primaryColumns (TableSchema.Columns s)
    ∧ Forall (fun c => (ColumnSchema.Nullable c = "YES" ∨ ColumnSchema.Nullable c = "NO")
                       ∧ (ColumnSchema.Key c = "PRI" ∨ ColumnSchema.Key c = EmptyString)
                       ∧ ColumnSchema.Extra c = EmptyString)
        (TableSchema.Columns s)
    ∧ Forall (fun fk => hasPrefix (ForeignKeySchema.Name fk) ("fk_" +:+ tableName +:+ "_")
                        = true)
        (TableSchema.ForeignKeys s)).
  assert (P (SQLite_GetTableSchema db tableName).2.1) as (Hn & Hk & Hc & Hf).
  { unfold SQLite_GetTableSchema.
    apply andThen_invariant; [|intros s0 Hs0; apply andThen_invariant].
    - apply queryLoop_invariant; [by repeat split|].
      intros s [[[[[cid name] typeName] notNull] dfltValue] pk] (Hn & Hk & Hc & Hf).
      unfold P. cbn [snd fst mret Queried_mret Queried_ret].
      destruct (bool_decide (pk > 0)), (bool_decide (notNull = 0));
        unfold addColumn, addPrimaryKey;
        cbn [TableSchema.Name TableSchema.Columns TableSchema.PrimaryKeys
             TableSchema.ForeignKeys];
        (split; [done|]); (split; [|split; [|done]]).
      all: try (rewrite primaryColumns_snoc, Hk; cbn [ColumnSchema.Key ColumnSchema.Name];
                case_bool_decide; [done|by rewrite ?app_nil_r]).
      all: apply Forall_app; split; [done|]; constructor; [|done]; simpl; auto.
    - apply queryLoop_invariant; [done|].
      intros s [[[[seq indexName] unique] origin] partial] Hs.
      apply queryLoop_invariant; [done|].
      by intros s' [[seqno cid] colName] (Hn & Hk & Hc & Hf).
    - intros s1 Hs1. apply queryLoop_invariant; [done|].
      intros s [[[[[[[id seq] table] from] to] onUpdate] onDelete] match_] (Hn & Hk & Hc & Hf).
      unfold P. cbn. repeat split; try done.
      apply Forall_app. split; [done|]. constructor; [|done].
      cbn [ForeignKeySchema.Name]. unfold hasPrefix.
      replace ("fk_" +:+ tableName +:+ "_" +:+ fmt_int id)
        with (("fk_" +:+ tableName +:+ "_") +:+ fmt_int id)
        by (by rewrite !append_assoc).
      apply prefix_app. }
  intros s. subst s. repeat split; try done.
  rewrite Hk. apply primaryColumns_subseteq.
Qed.

(** The schema read from the example catalog. *)
Lemma shopCatalog_users_schema :
  (SQLite_GetTableSchema shopCatalog "users").2
  = (TableSchema.mk "users"
       [ColumnSchema.mk "id" "INTEGER" "NO" "PRI" (NullString.mk EmptyString false) EmptyString;
        ColumnSchema.mk "note" "TEXT" "YES" EmptyString (NullString.mk EmptyString false)
          EmptyString]
       [IndexSchema.mk "idx_note" "note" 1] [] ["id"],
     None).
Proof. vm_compute. reflexivity. Qed.

(** X9. The schema [MySQLAdapter.GetTableSchema] returns, complete or cut
    short by an error, carries the table name, and its primary keys are the
    names of the columns whose key is [PRI], in column order; so each
    primary key is a column. *)
Theorem MySQL_GetTableSchema_invariants (db : Catalog) (tableName : string) :
  let s := (MySQL_GetTableSchema db tableName).2.1 in
  TableSchema.Name s = tableName
  ∧ TableSchema.PrimaryKeys s = primaryColumns (TableSchema.Columns s)
  ∧ TableSchema.PrimaryKeys s ⊆ columnNames s.
Proof.
  set (P := fun s : TableSchema.t =>
    TableSchema.Name s = tableName
    ∧ TableSchema.PrimaryKeys s = primaryColumns (TableSchema.Columns s)).
  assert (P (MySQL_GetTableSchema db tableName).2.1) as (Hn & Hk).
  { unfold MySQL_GetTableSchema.
    apply andThen_invariant; [|intros s0 Hs0; apply andThen_invariant].
    - apply queryLoop_invariant; [done|].
      intros s [[[[[name fieldType] null] key] defaultValue] extra] (Hn & Hk).
      unfold P. cbn [snd fst mret Queried_mret Queried_ret].
      unfold addColumn, addPrimaryKey.
      destruct (bool_decide (key = "PRI")) eqn:Hpri;
        cbn [TableSchema.Name TableSchema.Columns TableSchema.PrimaryKeys];
        (split; [done|]); rewrite primaryColumns_snoc, Hk;
        cbn [ColumnSchema.Key ColumnSchema.Name]; rewrite Hpri; [done|].
      by rewrite app_nil_r.
    - apply queryLoop_invariant; [done|].
      by intros s [[[t nonUnique] indexName] columnName] (Hn & Hk).
    - intros s1 Hs1. apply queryLoop_invariant; [done|].
      by intros s [[[name columnName] referencedTable] referencedColumn] (Hn & Hk). }
  intros s. subst s. repeat split; try done.
  rewrite Hk. apply primaryColumns_subseteq.
Qed.

Lemma andThen_phases (P Q : TableSchema.t → Prop)
    (a : Queried (TableSchema.t * option string))
    (b : TableSchema.t -> Queried (TableSchema.t * option string)) :
  P a.2.1 → (∀ s, P s → Q s) → (∀ s, P s → Q (b s).2.1) → Q (andThen a b).2.1.
Proof.
  intros Ha HPQ Hb. unfold andThen. rewrite Queried_bind_value.
  destruct a.2 as [s [e|]]; cbn [fst snd] in *; [by apply HPQ|]. by apply Hb.
Qed.

(** X10. In the schema [PostgreSQLAdapter.GetTableSchema] returns, complete
    or cut short by an error, a column has the key [PRI] exactly when its
    name is among the primary keys, and no key otherwise; and every index
    entry has [NonUnique] 0 or 1. *)
Theorem PostgreSQL_GetTableSchema_invariants (db : Catalog) (tableName : string) :
  let s := (PostgreSQL_GetTableSchema db tableName).2.1 in
  TableSchema.Name s = tableName
  ∧ Forall (fun c => ColumnSchema.Key c
                     = if decide (ColumnSchema.Name c ∈ TableSchema.PrimaryKeys s)
                       then "PRI" else EmptyString)
      (TableSchema.Columns s)
  ∧ Forall (fun i => IndexSchema.NonUnique i = 0 ∨ IndexSchema.NonUnique i = 1)
      (TableSchema.Indexes s).
Proof.
  set (P0 := fun s : TableSchema.t =>
    TableSchema.Name s = tableName ∧ TableSchema.PrimaryKeys s = []
    ∧ Forall (fun c => ColumnSchema.Key c = EmptyString) (TableSchema.Columns s)
    ∧ TableSchema.Indexes s = []).
  set (P := fun s : TableSchema.t =>
    TableSchema.Name s = tableName
    ∧ Forall (fun c => ColumnSchema.Key c
                       = if decide (ColumnSchema.Name c ∈ TableSchema.PrimaryKeys s)
                         then "PRI" else EmptyString)
        (TableSchema.Columns s)
    ∧ Forall (fun i => IndexSchema.NonUnique i = 0 ∨ IndexSchema.NonUnique i = 1)
        (TableSchema.Indexes s)).
  unfold PostgreSQL_GetTableSchema. apply (andThen_phases P0 P).
  - apply queryLoop_invariant; [by repeat split|].
    intros s [[[[name dataType] nullable] defaultValue] extra] (Hn & Hk & Hc & Hi).
    unfold P0. cbn. repeat split; try done.
    apply Forall_app. split; [done|]. by constructor.
  - intros s (Hn & Hk & Hc & Hi). unfold P. rewrite Hk, Hi.
    split; [done|]. split; [|constructor].
    eapply Forall_impl; [exact Hc|]. intros c ->.
    by rewrite decide_False by apply not_elem_of_nil.
  - intros s0 (Hn0 & Hk0 & Hc0 & Hi0).
    assert (P s0) as Hs0.
    { unfold P. rewrite Hk0, Hi0. split; [done|]. split; [|constructor].
      eapply Forall_impl; [exact Hc0|]. intros c ->.
      by rewrite decide_False by apply not_elem_of_nil. }
    apply andThen_invariant; [|intros s1 Hs1; apply andThen_invariant].
    + apply queryLoop_invariant; [done|].
      intros s pkColumn (Hn & Hc & Hi). unfold P. cbn. split; [done|]. split; [|done].
      unfold markPrimary. apply Forall_fmap. eapply Forall_impl; [exact Hc|].
      intros c Hkey. simpl.
      destruct (bool_decide (ColumnSchema.Name c = pkColumn)) eqn:Hpk; simpl.
      * apply bool_decide_eq_true in Hpk.
        rewrite decide_True; [done|]. apply elem_of_app. right. by apply list_elem_of_singleton.
      * apply bool_decide_eq_false in Hpk. rewrite Hkey.
        destruct (decide (ColumnSchema.Name c ∈ TableSchema.PrimaryKeys s)) as [Hin|Hnin].
        -- rewrite decide_True; [done|]. apply elem_of_app. by left.
        -- rewrite decide_False; [done|]. rewrite elem_of_app, list_elem_of_singleton. tauto.
    + apply queryLoop_invariant; [done|].
      intros s [[indexName columnName] isUnique] (Hn & Hc & Hi). unfold P. cbn.
      repeat split; try done. apply Forall_app. split; [done|]. constructor; [|done].
      simpl. destruct isUnique; auto.
    + intros s2 Hs2. apply queryLoop_invariant; [done|].
      by intros s [[[name columnName] referencedTable] referencedColumn] (Hn & Hc & Hi).
Qed.

(** ** compare.go: all table schemas *)

Lemma foldl_insert_lookup {V} (f : string → V) (tables : list string)
    (m : gmap string V) (k : string) :
  foldl (fun m t => <[t := f t]> m) m tables !! k
  = if decide (k ∈ tables) then Some (f k) else m !! k.
Proof.
  revert m. induction tables as [|t tables IH]; intros m; cbn [foldl].
  - destruct (decide (k ∈ [])) as [Hin|]; [|done]. by apply not_elem_of_nil in Hin.
  - rewrite IH.
    destruct (decide (k ∈ t :: tables)) as [Hin|Hin], (decide (k ∈ tables)) as [Hl|Hl];
      rewrite elem_of_cons in Hin; try done.
    + destruct Hin as [->|?]; [|done]. apply lookup_insert_eq.
    + destruct Hin. by right.
    + apply lookup_insert_ne. intros ->. apply Hin. by left.
Qed.

Lemma getAllTableSchemas_loop_success (adapter : DatabaseAdapter) (db : Catalog)
    (tables : list string) (schemas : gmap string TableSchema.t) :
  (∀ t, t ∈ tables → (GetTableSchema adapter db t).2.2 = None) →
  getAllTableSchemas_loop adapter db tables schemas
  = (concat ((fun t => (GetTableSchema adapter db t).1) <$> tables),
     (foldl (fun m t => <[t := (GetTableSchema adapter db t).2.1]> m) schemas tables,
      None)).
Proof.
  revert schemas. induction tables as [|t tables IH]; intros schemas Hok; [done|].
  cbn [getAllTableSchemas_loop]. rewrite fmap_cons. cbn [concat foldl].
  pose proof (Hok t ltac:(by left)) as Ht.
  unfold mbind, Queried_mbind, Queried_bind.
  destruct (GetTableSchema adapter db t) as [log [schema err]]. cbn [fst snd] in *.
  subst err. rewrite IH by (intros t' Ht'; apply Hok; by right). done.
Qed.

(** X11. When every table's schema is extracted without error,
    [getAllTableSchemas] returns no error and a map that holds, for exactly
    the listed tables, the schema the adapter returned for the table; the
    tables were queried in the order of the list. *)
Theorem getAllTableSchemas_success (adapter : DatabaseAdapter) (db : Catalog)
    (tables : list string) :
  (∀ t, t ∈ tables → (GetTableSchema adapter db t).2.2 = None) →
  let run := getAllTableSchemas adapter db tables in
  run.2.2 = None
  ∧ (∀ t, run.2.1 !! t
          = if decide (t ∈ tables) then Some (GetTableSchema adapter db t).2.1 else None)
  ∧ dom run.2.1 = list_to_set tables
  ∧ run.1 = concat ((fun t => (GetTableSchema adapter db t).1) <$> tables).
Proof.
  intros Hok run. subst run. unfold getAllTableSchemas.
  rewrite getAllTableSchemas_loop_success by done. cbn [fst snd].
  assert (∀ t, foldl (fun m t => <[t := (GetTableSchema adapter db t).2.1]> m)
                 (∅ : gmap string TableSchema.t) tables !! t
               = if decide (t ∈ tables) then Some (GetTableSchema adapter db t).2.1 else None)
    as Hlookup.
  { intros t. rewrite (foldl_insert_lookup (fun t => (GetTableSchema adapter db t).2.1)).
    by rewrite lookup_empty. }
  split; [done|]. split; [exact Hlookup|]. split; [|done].
  apply set_eq. intros t. rewrite elem_of_dom, Hlookup, elem_of_list_to_set.
  destruct (decide (t ∈ tables)); [by split; eauto|]. split; [by intros [? ?]|done].
Qed.

Lemma getAllTableSchemas_success_witness :
  (getAllTableSchemas SQLiteAdapter shopCatalog ["users"]).2.2 = None
  ∧ dom (getAllTableSchemas SQLiteAdapter shopCatalog ["users"]).2.1 = {["users"]}.
Proof.
  destruct (getAllTableSchemas_success SQLiteAdapter shopCatalog ["users"])
    as (Herr & _ & Hdom & _).
  - intros t Ht. apply list_elem_of_singleton in Ht as ->. vm_compute. reflexivity.
  - split; [exact Herr|]. rewrite Hdom. simpl. apply union_empty_r_L.
Defined.

Lemma getAllTableSchemas_loop_failure (adapter : DatabaseAdapter) (db : Catalog)
    (done_ rest : list string) (table e : string) (schemas : gmap string TableSchema.t) :
  (∀ t, t ∈ done_ → (GetTableSchema adapter db t).2.2 = None) →
  (GetTableSchema adapter db table).2.2 = Some e →
  getAllTableSchemas_loop adapter db (done_ ++ table :: rest) schemas
  = (concat ((fun t => (GetTableSchema adapter db t).1) <$> (done_ ++ [table])),
     (∅, Some e)).
Proof.
  intros Hok Hfail. revert schemas.
  induction done_ as [|t done_ IH]; intros schemas.
  - cbn [app getAllTableSchemas_loop fmap list_fmap concat].
    unfold mbind, Queried_mbind, Queried_bind.
    destruct (GetTableSchema adapter db table) as [log [schema err]]. cbn [fst snd] in *.
    subst err. done.
  - cbn [app getAllTableSchemas_loop]. rewrite fmap_cons. cbn [concat].
    pose proof (Hok t ltac:(by left)) as Ht.
    specialize (IH ltac:(intros t' Ht'; apply Hok; by right)).
    unfold mbind, Queried_mbind, Queried_bind.
    destruct (GetTableSchema adapter db t) as [log [schema err]]. cbn [fst snd] in *.
    subst err. by rewrite IH.
Qed.

(** X12. When the schema of a table cannot be extracted,
    [getAllTableSchemas] returns that error with an empty map, dropping the
    schemas already extracted, and does not query the tables after it. *)
Theorem getAllTableSchemas_failure (adapter : DatabaseAdapter) (db : Catalog)
    (done_ rest : list string) (table e : string) :
  (∀ t, t ∈ done_ → (GetTableSchema adapter db t).2.2 = None) →
  (GetTableSchema adapter db table).2.2 = Some e →
  let run := getAllTableSchemas adapter db (done_ ++ table :: rest) in
  run.2 = (∅, Some e)
  ∧ run.1 = concat ((fun t => (GetTableSchema adapter db t).1) <$> (done_ ++ [table])).
Proof.
  intros Hok Hfail run. subst run. unfold getAllTableSchemas.
  by rewrite (getAllTableSchemas_loop_failure _ _ _ _ _ e).
Qed.

Lemma getAllTableSchemas_failure_witness :
  (getAllTableSchemas SQLiteAdapter shopCatalog ["users"; "orders"; "items"]).2
  = (∅, Some "database is locked")
  ∧ length (getAllTableSchemas SQLiteAdapter shopCatalog ["users"; "orders"; "items"]).1
    = 5%nat.
Proof.
  destruct (getAllTableSchemas_failure SQLiteAdapter shopCatalog ["users"] ["items"]
              "orders" "database is locked") as [Hvalue Hlog].
  - intros t Ht. apply list_elem_of_singleton in Ht as ->. vm_compute. reflexivity.
  - vm_compute. reflexivity.
  - split; [exact Hvalue|]. cbn [app] in Hlog. rewrite Hlog. vm_compute. reflexivity.
Defined.

(** ** compare.go: more on table schemas *)

Lemma flat_map_nil_iff {A B} (f : A → list B) (l : list A) :
  flat_map f l = [] ↔ ∀ x, x ∈ l → f x = [].
Proof.
  induction l as [|a l IH]; simpl.
  - split; [|done]. by intros _ x ?%not_elem_of_nil.
  - rewrite app_nil, IH. split.
    + intros [Ha Hl] x [->|?]%elem_of_cons; auto.
    + intros H. split; [apply H; by left|]. intros x ?. apply H. by right.
Qed.

Lemma report_flag (d : Difference) (st : DiffState) :
  (report d st).1 = true ∧ (report d st).2 ≠ [].
Proof. split; [done|]. simpl. by destruct st.2. Qed.

Lemma sourceColumnStep_flag (tableName : string) (targetColumns : gmap string ColumnSchema.t)
    (st : DiffState) (e : string * ColumnSchema.t) :
  (st.1 = true ↔ st.2 ≠ []) →
  (sourceColumnStep tableName targetColumns st e).1 = true
  ↔ (sourceColumnStep tableName targetColumns st e).2 ≠ [].
Proof.
  intros Hst. destruct e as [k v]. unfold sourceColumnStep.
  destruct (targetColumns !! k) as [w|]; [|by split; intros; apply report_flag].
  repeat case_bool_decide; try done; by split; intros; apply report_flag.
Qed.

Lemma targetColumnStep_flag (tableName : string) (sourceColumns : gmap string ColumnSchema.t)
    (st : DiffState) (e : string * ColumnSchema.t) :
  (st.1 = true ↔ st.2 ≠ []) →
  (targetColumnStep tableName sourceColumns st e).1 = true
  ↔ (targetColumnStep tableName sourceColumns st e).2 ≠ [].
Proof.
  intros Hst. destruct e as [k v]. unfold targetColumnStep.
  destruct (sourceColumns !! k); [done|]. by split; intros; apply report_flag.
Qed.

Lemma foldl_flag {A} (step : DiffState → A → DiffState) (l : list A) (st : DiffState) :
  (∀ st a, (st.1 = true ↔ st.2 ≠ []) → (step st a).1 = true ↔ (step st a).2 ≠ []) →
  (st.1 = true ↔ st.2 ≠ []) →
  (foldl step st l).1 = true ↔ (foldl step st l).2 ≠ [].
Proof.
  intros Hstep. revert st. induction l as [|a l IH]; intros st Hst; [done|].
  simpl. apply IH. by apply Hstep.
Qed.

Section MoreTableSchema.
Context {R : MapRange}.

Lemma compareTableSchema_entries_flag (tableName : string) (s t : TableSchema.t) :
  (compareTableSchema_entries tableName s t).1 = true
  ↔ (compareTableSchema_entries tableName s t).2 ≠ [].
Proof.
  unfold compareTableSchema_entries.
  set (st2 := foldl (targetColumnStep _ _) _ _).
  assert (st2.1 = true ↔ st2.2 ≠ []) as Hst2.
  { subst st2. apply foldl_flag; [intros; by apply targetColumnStep_flag|].
    apply foldl_flag; [intros; by apply sourceColumnStep_flag|]. done. }
  destruct (compareStringSlices _ _); cbn [negb]; [done|].
  split; intros; apply report_flag.
Qed.

(** X13. [compareTableSchema] returns [true] exactly when the list of
    differences it returns is not empty. *)
Theorem compareTableSchema_flag (tableName : string) (s t : TableSchema.t) :
  (compareTableSchema tableName s t).1 = true
  ↔ (compareTableSchema tableName s t).2 ≠ [].
Proof.
  rewrite compareTableSchema_fst, compareTableSchema_snd, compareTableSchema_entries_flag.
  by destruct (compareTableSchema_entries tableName s t).2.
Qed.

Lemma sourceColumnEntries_nil (tableName : string)
    (targetColumns : gmap string ColumnSchema.t) (k : string) (v : ColumnSchema.t) :
  sourceColumnEntries tableName targetColumns (k, v) = []
  ↔ comparedPart <$> targetColumns !! k = Some (comparedPart v).
Proof.
  rewrite sourceColumnEntries_eq. unfold comparedPart.
  destruct (targetColumns !! k) as [w|]; simpl; [|done].
  repeat case_bool_decide; simpl; split; try done; try (intros [= ? ?]; congruence).
  intros _. congruence.
Qed.

Lemma targetColumnEntries_nil (tableName : string)
    (sourceColumns : gmap string ColumnSchema.t) (k : string) (v : ColumnSchema.t) :
  targetColumnEntries tableName sourceColumns (k, v) = []
  ↔ is_Some (sourceColumns !! k).
Proof.
  rewrite targetColumnEntries_eq.
  destruct (sourceColumns !! k); split; try done; try (by eauto); by intros [? ?].
Qed.

Lemma compareTableSchema_entries_nil (tableName : string) (s t : TableSchema.t) :
  (compareTableSchema_entries tableName s t).2 = []
  ↔ comparedPart <$> columnMap (TableSchema.Columns s)
    = comparedPart <$> columnMap (TableSchema.Columns t)
    ∧ compareStringSlices (TableSchema.PrimaryKeys s) (TableSchema.PrimaryKeys t) = true.
Proof.
  rewrite compareTableSchema_entries_eq, !app_nil, !flat_map_nil_iff.
  set (ms := columnMap (TableSchema.Columns s)).
  set (mt := columnMap (TableSchema.Columns t)).
  split.
  - intros (Hs & Ht & Hk). split; [|by destruct (compareStringSlices _ _)].
    apply map_eq. intros k. rewrite !lookup_fmap.
    destruct (ms !! k) as [v|] eqn:Hv.
    + apply rangeOf_lookup, Hs in Hv. apply sourceColumnEntries_nil in Hv.
      by rewrite Hv.
    + destruct (mt !! k) as [w|] eqn:Hw; [|done].
      apply rangeOf_lookup, Ht in Hw. apply targetColumnEntries_nil in Hw as [? Hw].
      congruence.
  - intros [Hmap ->]. split; [|split; [|done]].
    + intros [k v] Hv%rangeOf_lookup. apply sourceColumnEntries_nil.
      rewrite <- lookup_fmap, <- Hmap, lookup_fmap. by rewrite Hv.
    + intros [k w] Hw%rangeOf_lookup. apply targetColumnEntries_nil.
      assert (comparedPart <$> ms !! k = comparedPart <$> mt !! k) as Hk
        by (by rewrite <- !lookup_fmap, Hmap).
      rewrite Hw in Hk. by destruct (ms !! k).
Qed.

(** X14. [compareTableSchema] finds no difference exactly when the two
    column lists give every column name the same data type and nullable
    marker, the last column of a name counting, and the primary-key lists
    have equal length and the same elements.  Nothing else is compared:
    not the order of the columns, nor their key, default or extra, nor the
    indexes, foreign keys or table names.  A schema compared with itself
    shows no difference. *)
Theorem compareTableSchema_no_difference (tableName : string) (s t : TableSchema.t) :
  ((compareTableSchema tableName s t) = (false, [])
   ↔ comparedPart <$> columnMap (TableSchema.Columns s)
     = comparedPart <$> columnMap (TableSchema.Columns t)
     ∧ length (TableSchema.PrimaryKeys s) = length (TableSchema.PrimaryKeys t)
     ∧ ∀ k, k ∈ TableSchema.PrimaryKeys s ↔ k ∈ TableSchema.PrimaryKeys t)
  ∧ compareTableSchema tableName s s = (false, []).
Proof.
  assert (∀ s t, compareTableSchema tableName s t = (false, [])
                 ↔ (compareTableSchema_entries tableName s t).2 = []) as Hnil.
  { intros s' t'. pose proof (compareTableSchema_entries_flag tableName s' t') as Hflag.
    pose proof (compareTableSchema_fst tableName s' t') as Hfst.
    pose proof (compareTableSchema_snd tableName s' t') as Hsnd.
    destruct (compareTableSchema tableName s' t') as [b l].
    destruct (compareTableSchema_entries tableName s' t') as [b' l'].
    simpl in *. subst. split.
    - intros [= -> Hl]. by destruct l'.
    - intros ->. simpl. f_equal. apply not_true_iff_false. rewrite Hflag. by intros []. }
  split.
  - by rewrite Hnil, compareTableSchema_entries_nil, compareStringSlices_spec.
  - apply Hnil, compareTableSchema_entries_nil. split; [done|].
    by apply compareStringSlices_spec.
Qed.

End MoreTableSchema.

(** X15. The iteration order of the maps changes only the order of the
    differences [compareTableSchema] returns: under two orders the flag is
    the same and the lists are permutations of each other. *)
Theorem compareTableSchema_order (R1 R2 : MapRange) (tableName : string)
    (s t : TableSchema.t) :
  (@compareTableSchema R1 tableName s t).1 = (@compareTableSchema R2 tableName s t).1
  ∧ (@compareTableSchema R1 tableName s t).2 ≡ₚ (@compareTableSchema R2 tableName s t).2.
Proof.
  assert (∀ V (m : gmap string V), @rangeOf R1 V m ≡ₚ @rangeOf R2 V m) as Hrange.
  { intros V m. by rewrite !rangeOf_perm. }
  assert ((@compareTableSchema_entries R1 tableName s t).2
          ≡ₚ (@compareTableSchema_entries R2 tableName s t).2) as Hperm.
  { rewrite !compareTableSchema_entries_eq.
    assert (@compareStringSlices R1 (TableSchema.PrimaryKeys s) (TableSchema.PrimaryKeys t)
            = @compareStringSlices R2 (TableSchema.PrimaryKeys s) (TableSchema.PrimaryKeys t))
      as ->.
    { apply eq_true_iff_eq. by rewrite !compareStringSlices_spec. }
    repeat apply Permutation_app; [| |done]; apply Permutation_flat_map, Hrange. }
  split.
  - rewrite !compareTableSchema_fst. apply eq_true_iff_eq.
    rewrite !compareTableSchema_entries_flag.
    split; intros Hne Hnil; apply Hne.
    + rewrite Hnil in Hperm. by apply Permutation_nil_r in Hperm.
    + rewrite Hnil in Hperm. by apply Permutation_nil_l in Hperm.
  - rewrite !compareTableSchema_snd. by apply fmap_Permutation.
Qed.

(** ** compare.go: more on databases *)

Section MoreDatabases.
Context {R : MapRange}.

(** X16. [compareDatabases] records schema differences for a table exactly
    when the table is on both sides and [compareTableSchema] reports
    differences for its two schemas, and it records the list that call
    returned; so every recorded table is a common table and its list is not
    empty. *)
Theorem compareDatabases_schemaDifferences (src tgt : gmap string TableSchema.t)
    (k : string) :
  (∀ d, (compareDatabases src tgt).2 !! k = Some d
        ↔ ∃ s t, src !! k = Some s ∧ tgt !! k = Some t
                 ∧ compareTableSchema k s t = (true, d))
  ∧ (is_Some ((compareDatabases src tgt).2 !! k) →
     k ∈ (compareDatabases src tgt).1.2 ∧ (compareDatabases src tgt).2 !! k ≠ Some []).
Proof.
  assert (∀ d, (compareDatabases src tgt).2 !! k = Some d
        ↔ ∃ s t, src !! k = Some s ∧ tgt !! k = Some t
                 ∧ compareTableSchema k s t = (true, d)) as Hiff.
  { intros d. rewrite compareDatabases_diffs. unfold tableDiff, goIndex.
    destruct (src !! k) as [s|] eqn:Hs.
    2: { rewrite decide_False by (by intros [? ?]). split; [done|]. by intros (? & ? & ? & _). }
    rewrite decide_True by eauto.
    destruct (tgt !! k) as [t|] eqn:Ht; simpl.
    2: { split; [done|]. by intros (? & ? & _ & ? & _). }
    destruct (compareTableSchema k s t) as [[] l] eqn:Hc; simpl.
    - split.
      + intros [= <-]. by exists s, t.
      + intros (s' & t' & [= <-] & [= <-] & Hc'). congruence.
    - split; [done|]. intros (s' & t' & [= <-] & [= <-] & Hc'). congruence. }
  split; [exact Hiff|]. intros [d Hd]. split.
  - rewrite compareDatabases_common. apply Hiff in Hd as (s & t & Hs & Ht & _).
    apply list_elem_of_filter. split; [by rewrite Ht|]. apply rangeOf_keys. by rewrite Hs.
  - rewrite Hd. intros [= ->]. apply Hiff in Hd as (s & t & _ & _ & Hc).
    pose proof (compareTableSchema_fst k s t) as Hfst.
    pose proof (compareTableSchema_snd k s t) as Hsnd.
    pose proof (compareTableSchema_entries_flag k s t) as Hflag.
    rewrite Hc in Hfst, Hsnd. simpl in *. rewrite <- Hfst in Hflag.
    destruct (compareTableSchema_entries k s t).2; [|done]. by apply Hflag.
Qed.

(** X17. Exchanging source and target exchanges [missing] and [extra] and
    keeps the common tables, up to the order of the lists. *)
Theorem compareDatabases_swap (src tgt : gmap string TableSchema.t) :
  (compareDatabases src tgt).1.1.1 ≡ₚ (compareDatabases tgt src).1.1.2
  ∧ (compareDatabases src tgt).1.1.2 ≡ₚ (compareDatabases tgt src).1.1.1
  ∧ (compareDatabases src tgt).1.2 ≡ₚ (compareDatabases tgt src).1.2.
Proof.
  rewrite !compareDatabases_missing, !compareDatabases_extra, !compareDatabases_common.
  split; [done|]. split; [done|].
  apply NoDup_Permutation.
  - apply NoDup_filter, rangeOf_NoDup.
  - apply NoDup_filter, rangeOf_NoDup.
  - intros k. rewrite !list_elem_of_filter, !rangeOf_keys. tauto.
Qed.

(** X18. A database compared with itself has no missing and no extra
    table and no schema difference, and all its tables are common; in
    particular two empty databases yield four empty results. *)
Theorem compareDatabases_same (m : gmap string TableSchema.t) :
  (compareDatabases m m).1.1.1 = []
  ∧ (compareDatabases m m).1.1.2 = []
  ∧ (compareDatabases m m).1.2 = (rangeOf m).*1
  ∧ (compareDatabases m m).2 = ∅
  ∧ compareDatabases ∅ ∅ = ([], [], [], ∅).
Proof.
  assert (∀ l : list string, (∀ k, k ∈ l → is_Some (m !! k)) →
            filter (fun k => m !! k = None) l = []) as Hnone.
  { induction l as [|k l IH]; intros Hl; [done|].
    rewrite filter_cons, decide_False.
    - apply IH. intros ??. apply Hl. by right.
    - destruct (Hl k ltac:(by left)) as [? ->]. done. }
  assert (∀ l : list string, (∀ k, k ∈ l → is_Some (m !! k)) →
            filter (fun k => is_Some (m !! k)) l = l) as Hsome.
  { induction l as [|k l IH]; intros Hl; [done|].
    rewrite filter_cons, decide_True by (apply Hl; by left).
    f_equal. apply IH. intros ??. apply Hl. by right. }
  assert ((compareDatabases m m).2 = ∅) as Hdiffs.
  { apply map_eq. intros k. rewrite lookup_empty, compareDatabases_diffs.
    unfold tableDiff, goIndex. case_decide as Hk; [|done].
    destruct Hk as [s Hs]. rewrite Hs. simpl.
    assert (compareTableSchema k s s = (false, [])) as ->; [|done].
    pose proof (compareTableSchema_fst k s s) as Hfst.
    pose proof (compareTableSchema_snd k s s) as Hsnd.
    assert ((compareTableSchema_entries k s s).2 = []) as Hnil.
    { apply compareTableSchema_entries_nil. split; [done|]. by apply compareStringSlices_spec. }
    pose proof (compareTableSchema_entries_flag k s s) as Hflag.
    destruct (compareTableSchema k s s) as [b l]. simpl in *.
    rewrite Hnil in Hsnd, Hflag. subst l. f_equal.
    apply not_true_iff_false. rewrite Hfst, Hflag. by intros []. }
  rewrite compareDatabases_missing, compareDatabases_extra, compareDatabases_common.
  rewrite Hnone, Hsome by (intros k; apply rangeOf_keys).
  repeat split; try done.
  unfold compareDatabases. by rewrite !rangeOf_empty.
Qed.

End MoreDatabases.

(** ** compare.go: more on indexes and foreign keys *)

Lemma stdout_forEach {A} (l : list A) (body : A → IO unit) :
  stdout (forEach l body) = flat_map (fun x => stdout (body x)) l.
Proof.
  induction l as [|x l IH]; [done|].
  cbn [forEach flat_map]. by rewrite stdout_bind, IH.
Qed.

Lemma stdout_forEach_nil {A} (l : list A) (body : A → IO unit) :
  stdout (forEach l body) = [] ↔ ∀ x, x ∈ l → stdout (body x) = [].
Proof. by rewrite stdout_forEach, flat_map_nil_iff. Qed.

Lemma fkMap_dom (fks : list ForeignKeySchema.t) :
  dom (fkMap fks) = list_to_set (fkKey <$> fks).
Proof.
  unfold fkMap.
  assert (∀ m : gmap string ForeignKeySchema.t,
            dom (foldl (fun m fk => <[fkKey fk := fk]> m) m fks)
            = dom m ∪ list_to_set (fkKey <$> fks)) as Hfold.
  { induction fks as [|fk fks IH]; intros m; cbn [foldl].
    - simpl. by rewrite union_empty_r_L.
    - rewrite IH, dom_insert_L, fmap_cons. cbn [list_to_set].
      apply set_eq. intros x. rewrite !elem_of_union. tauto. }
  rewrite Hfold, dom_empty_L. by rewrite union_empty_l_L.
Qed.

Section MoreIndexes.
Context {R : MapRange}.

(** X19. [compareForeignKeys] prints nothing exactly when the two lists
    give the same set of composite keys [name_column_table_column].  As the
    parts are joined by underscores, different foreign keys can have the
    same composite key and are then taken for the same. *)
Theorem compareForeignKeys_silent (tableName : string)
    (sourceFKs targetFKs : list ForeignKeySchema.t) :
  (stdout (compareForeignKeys tableName sourceFKs targetFKs) = []
   ↔ (list_to_set (fkKey <$> sourceFKs) : gset string) = list_to_set (fkKey <$> targetFKs))
  ∧ stdout (compareForeignKeys tableName
              [ForeignKeySchema.mk "fk_a" "b" "t" "id"]
              [ForeignKeySchema.mk "fk" "a_b" "t" "id"]) = [].
Proof.
  assert (∀ sf tf, stdout (compareForeignKeys tableName sf tf) = []
                   ↔ (list_to_set (fkKey <$> sf) : gset string) = list_to_set (fkKey <$> tf))
    as Hiff.
  { intros sf tf. unfold compareForeignKeys.
    rewrite stdout_bind, stdout_bind, !app_nil, !stdout_forEach_nil.
    rewrite <- !fkMap_dom. cbn. split.
    - intros (Hs & Ht & _). apply set_eq. intros k. rewrite !elem_of_dom. split.
      + intros [fk Hfk]. specialize (Hs (k, fk) ltac:(by apply rangeOf_lookup)).
        cbn in Hs. by destruct (fkMap tf !! k).
      + intros [fk Hfk]. specialize (Ht (k, fk) ltac:(by apply rangeOf_lookup)).
        cbn in Ht. by destruct (fkMap sf !! k).
    - intros Hdom. split; [|split; [|done]].
      + intros [k fk] Hfk%rangeOf_lookup. cbn.
        assert (is_Some (fkMap tf !! k)) as [? ->]; [|done].
        apply elem_of_dom. rewrite <- Hdom. apply elem_of_dom. eauto.
      + intros [k fk] Hfk%rangeOf_lookup. cbn.
        assert (is_Some (fkMap sf !! k)) as [? ->]; [|done].
        apply elem_of_dom. rewrite Hdom. apply elem_of_dom. eauto. }
  split; [apply Hiff|]. by apply Hiff.
Qed.

(** What the loops over one index of both sides print. *)
Lemma index_columns_silent (name tableName : string)
    (sourceIdx targetIdx : gmap string IndexSchema.t) :
  stdout
    (forEach (rangeOf sourceIdx) (fun '(col, srcIdxCol) =>
       match targetIdx !! col with
       | None => print (IndexColumnOnlyInSource col name tableName)
       | Some tgtIdxCol =>
           if bool_decide (IndexSchema.NonUnique srcIdxCol ≠ IndexSchema.NonUnique tgtIdxCol)
           then print (IndexUniqueness name col tableName
                         (bool_decide (IndexSchema.NonUnique srcIdxCol = 0))
                         (bool_decide (IndexSchema.NonUnique tgtIdxCol = 0)))
           else mret tt
       end) ;;
     forEach (rangeOf targetIdx) (fun '(col, _) =>
       match sourceIdx !! col with
       | None => print (IndexColumnOnlyInTarget col name tableName)
       | Some _ => mret tt
       end)) = []
  ↔ IndexSchema.NonUnique <$> sourceIdx = IndexSchema.NonUnique <$> targetIdx.
Proof.
  rewrite stdout_bind, app_nil, !stdout_forEach_nil. split.
  - intros [Hs Ht]. apply map_eq. intros col. rewrite !lookup_fmap.
    destruct (sourceIdx !! col) as [sc|] eqn:Hsc.
    + specialize (Hs (col, sc) ltac:(by apply rangeOf_lookup)). cbn in Hs.
      destruct (targetIdx !! col) as [tc|]; [|done]. simpl.
      case_bool_decide as Hne; [done|]. congruence.
    + destruct (targetIdx !! col) as [tc|] eqn:Htc; [|done].
      specialize (Ht (col, tc) ltac:(by apply rangeOf_lookup)). cbn in Ht.
      by rewrite Hsc in Ht.
  - intros Hmap.
    assert (∀ col, IndexSchema.NonUnique <$> sourceIdx !! col
                   = IndexSchema.NonUnique <$> targetIdx !! col) as Hcol
      by (intros col; by rewrite <- !lookup_fmap, Hmap).
    split.
    + intros [col sc] Hsc%rangeOf_lookup. cbn. specialize (Hcol col). rewrite Hsc in Hcol.
      destruct (targetIdx !! col) as [tc|]; [|done]. injection Hcol as Hcol.
      by rewrite bool_decide_eq_false_2 by (by intros ?).
    + intros [col tc] Htc%rangeOf_lookup. cbn. specialize (Hcol col). rewrite Htc in Hcol.
      by destruct (sourceIdx !! col).
Qed.

(** X20. [compareIndexes] prints nothing exactly when the two lists give
    the same uniqueness to the same (index name, column) pairs, the last
    entry of a pair counting. *)
Theorem compareIndexes_silent (tableName : string)
    (sourceIndexes targetIndexes : list IndexSchema.t) :
  stdout (compareIndexes tableName sourceIndexes targetIndexes) = []
  ↔ indexUniqueness sourceIndexes = indexUniqueness targetIndexes.
Proof.
  unfold compareIndexes, indexUniqueness. rewrite stdout_bind, stdout_bind, !app_nil, !stdout_forEach_nil.
  set (ms := indexMap sourceIndexes). set (mt := indexMap targetIndexes). cbn. split.
  - intros (Hs & Ht & _). apply map_eq. intros name. rewrite !lookup_fmap.
    destruct (ms !! name) as [a|] eqn:Ha.
    + specialize (Hs (name, a) ltac:(by apply rangeOf_lookup)). cbn in Hs.
      destruct (mt !! name) as [b|]; [|done]. simpl. f_equal.
      by apply (index_columns_silent name tableName).
    + destruct (mt !! name) as [b|] eqn:Hb; [|done].
      specialize (Ht (name, b) ltac:(by apply rangeOf_lookup)). cbn in Ht.
      by rewrite Ha in Ht.
  - intros Hmap.
    assert (∀ name,
              (fun columns : gmap string IndexSchema.t => IndexSchema.NonUnique <$> columns)
                <$> ms !! name
              = (fun columns : gmap string IndexSchema.t => IndexSchema.NonUnique <$> columns)
                  <$> mt !! name) as Hname
      by (intros name; by rewrite <- !lookup_fmap, Hmap).
    split; [|split; [|done]].
    + intros [name a] Ha%rangeOf_lookup. cbn. specialize (Hname name). rewrite Ha in Hname.
      destruct (mt !! name) as [b|]; [|done]. injection Hname as Hname.
      by apply (index_columns_silent name tableName).
    + intros [name b] Hb%rangeOf_lookup. cbn. specialize (Hname name). rewrite Hb in Hname.
      by destruct (ms !! name).
Qed.

End MoreIndexes.

(** ** The adapters: data checks *)

(** X21. [CompareRowCounts] counts the source first.  If that query fails
    the target is not queried; whichever query fails, both counts are
    returned as zero together with the error, so a count obtained from the
    source is dropped when the target fails. *)
Theorem CompareRowCounts_errors (a : DatabaseAdapter) (sourceDB targetDB : DB)
    (tableName : string) :
  let q := countQuery a tableName in
  CompareRowCounts a sourceDB targetDB tableName
  = match scanInt sourceDB q, scanInt targetDB q with
    | Err e, _ => ([QueryRow Source q], (0, 0, Some e))
    | Ok _, Err e => ([QueryRow Source q; QueryRow Target q], (0, 0, Some e))
    | Ok sourceCount, Ok targetCount =>
        ([QueryRow Source q; QueryRow Target q], (sourceCount, targetCount, None))
    end.
Proof.
  intros q. subst q. unfold CompareRowCounts, queryInt, mbind, IO_mbind, IO_bind.
  destruct (scanInt sourceDB _); [|done]. by destruct (scanInt targetDB _).
Qed.

(** X22. The MySQL data check asks both databases for the checksum of the
    table, the source first.  A failing query ends it with [false] and the
    error, the target not being asked when the source fails.  Otherwise it
    returns [false] only when both checksums are present and equal, and
    [true] in every other case. *)
Theorem MySQL_checksum_table (sourceDB targetDB : DB) (tableName : string)
    (schema : TableSchema.t) :
  let q := checksumQuery tableName in
  let run := MySQL_CompareTableDataByChecksum sourceDB targetDB tableName schema in
  run.2
  = match scanNamedNullInt64 sourceDB q, scanNamedNullInt64 targetDB q with
    | Err e, _ => (false, Some e)
    | Ok _, Err e => (false, Some e)
    | Ok (_, Some c1), Ok (_, Some c2) => (bool_decide (c1 ≠ c2), None)
    | Ok _, Ok _ => (true, None)
    end
  ∧ queries run
    = match scanNamedNullInt64 sourceDB q with
      | Err _ => [(Source, q)]
      | Ok _ => [(Source, q); (Target, q)]
      end.
Proof.
  intros q run. subst q run.
  unfold MySQL_CompareTableDataByChecksum, queryNamedNullInt64, print.
  unfold mbind, IO_mbind, IO_bind.
  destruct (scanNamedNullInt64 sourceDB (checksumQuery tableName)) as [[n1 [c1|]]|e1];
    destruct (scanNamedNullInt64 targetDB (checksumQuery tableName)) as [[n2 [c2|]]|e2];
    try done.
  cbn. by case_bool_decide.
Qed.

(** X23. The PostgreSQL data check asks both databases for the hash of the
    table, the source first.  A failing query ends it with [false] and the
    error, the target not being asked when the source fails.  Otherwise it
    returns [true] exactly when the two answers differ, an absent hash
    being equal only to an absent hash. *)
Theorem PostgreSQL_hash_table (sourceDB targetDB : DB) (tableName : string)
    (schema : TableSchema.t) :
  let q := hashQuery schema tableName in
  let run := PostgreSQL_CompareTableDataByChecksum sourceDB targetDB tableName schema in
  run.2
  = match scanNullString sourceDB q, scanNullString targetDB q with
    | Err e, _ => (false, Some e)
    | Ok _, Err e => (false, Some e)
    | Ok h1, Ok h2 => (bool_decide (h1 ≠ h2), None)
    end
  ∧ queries run
    = match scanNullString sourceDB q with
      | Err _ => [(Source, q)]
      | Ok _ => [(Source, q); (Target, q)]
      end.
Proof.
  intros q run. subst q run.
  unfold PostgreSQL_CompareTableDataByChecksum, queryNullString, print.
  unfold mbind, IO_mbind, IO_bind.
  destruct (scanNullString sourceDB (hashQuery schema tableName)) as [[h1|]|e1];
    destruct (scanNullString targetDB (hashQuery schema tableName)) as [[h2|]|e2];
    try done.
  cbn. case_bool_decide as Hs; case_bool_decide as Hh; try done; congruence.
Qed.

(** X24. The SQLite data check returns [false] with the error as soon as a
    query fails: a failing count query, or, with equal counts, a failing
    sum query; no query is issued after the failing one. *)
Theorem SQLite_checksum_errors (sourceDB targetDB : DB) (tableName : string)
    (schema : TableSchema.t) :
  let c := countQuery SQLiteAdapter tableName in
  let t := totalRowidQuery tableName in
  let run := SQLite_CompareTableDataByChecksum sourceDB targetDB tableName schema in
  match scanInt sourceDB c, scanInt targetDB c with
  | Err e, _ => run.2 = (false, Some e) ∧ queries run = [(Source, c)]
  | Ok _, Err e => run.2 = (false, Some e) ∧ queries run = [(Source, c); (Target, c)]
  | Ok sourceCount, Ok targetCount =>
      if bool_decide (sourceCount ≠ targetCount) then run.2.2 = None
      else
        match scanInt sourceDB t, scanInt targetDB t with
        | Err e, _ =>
            run.2 = (false, Some e)
            ∧ queries run = [(Source, c); (Target, c); (Source, t)]
        | Ok _, Err e =>
            run.2 = (false, Some e)
            ∧ queries run = [(Source, c); (Target, c); (Source, t); (Target, t)]
        | Ok _, Ok _ => run.2.2 = None
        end
  end.
Proof.
  intros c t run. subst c t run.
  unfold SQLite_CompareTableDataByChecksum, CompareRowCounts, queryInt, print.
  unfold mbind, mret, IO_mbind, IO_mret, IO_bind, IO_ret.
  destruct (scanInt sourceDB (countQuery SQLiteAdapter tableName)) as [sc|e]; [|done].
  destruct (scanInt targetDB (countQuery SQLiteAdapter tableName)) as [tc|e]; [|done].
  cbn. case_bool_decide; [done|].
  destruct (scanInt sourceDB (totalRowidQuery tableName)) as [ss|e]; [|done].
  destruct (scanInt targetDB (totalRowidQuery tableName)) as [ts|e]; [|done].
  by case_bool_decide.
Qed.

(** ** main: more on the row-count loop *)

(** One iteration of the row-count loop, spelled out. *)
Lemma verifyTables_cons (adapter : DatabaseAdapter) (sourceDB targetDB : DB)
    (totalTables i : Z) (tableName : string) (rest : list string)
    (last : Z) (summary : ComparisonSummary.t) :
  let p := currentPercentAt totalTables i in
  let r := CompareRowCounts adapter sourceDB targetDB tableName in
  let next := verifyTables adapter sourceDB targetDB totalTables (i + 1) rest
                (if bool_decide (p > last) then p else last,
                 rowCountSummary tableName r.2 summary) in
  verifyTables adapter sourceDB targetDB totalTables i (tableName :: rest) (last, summary)
  = ((if bool_decide (p > last) then [Printf (Progress p)] else [])
     ++ r.1 ++ (Printf <$> rowCountLines tableName r.2) ++ next.1,
     next.2).
Proof.
  intros p r next. subst p r next.
  cbn [verifyTables]. fold (currentPercentAt totalTables i).
  unfold mbind, mret, IO_mbind, IO_mret, IO_bind, IO_ret, print.
  destruct (CompareRowCounts adapter sourceDB targetDB tableName)
    as [log [[sourceCount targetCount] [e|]]]; cbn [fst snd rowCountLines rowCountSummary].
  - destruct (bool_decide (currentPercentAt totalTables i > last));
      destruct (verifyTables _ _ _ _ _ _ _); cbn; by rewrite ?app_nil_r.
  - destruct (bool_decide (currentPercentAt totalTables i > last));
      destruct (bool_decide (sourceCount ≠ targetCount));
      destruct (verifyTables _ _ _ _ _ _ _); cbn; by rewrite ?app_nil_r.
Qed.

Lemma omap_Printf_queries (lines : list Line) :
  omap (fun e => match e with Printf _ => None | QueryRow s q => Some (s, q) end)
       (Printf <$> lines) = [].
Proof. by induction lines. Qed.

Lemma omap_Printf_stdout (lines : list Line) :
  omap (fun e => match e with Printf l => Some l | QueryRow _ _ => None end)
       (Printf <$> lines) = lines.
Proof. induction lines as [|l lines IH]; [done|]. cbn. by rewrite IH. Qed.

(** X25. A failing row count does not end the row-count loop: the loop
    asks for the counts of every common table, in order, whatever the
    earlier answers were, and it prints one error line for each table
    whose count failed. *)
Theorem verifyTables_continues (adapter : DatabaseAdapter) (sourceDB targetDB : DB)
    (totalTables : Z) (tables : list string) (i last : Z)
    (summary : ComparisonSummary.t) :
  let run := verifyTables adapter sourceDB targetDB totalTables i tables (last, summary) in
  queries run
  = flat_map (fun t => queries (CompareRowCounts adapter sourceDB targetDB t)) tables
  ∧ rowCountErrors (stdout run)
    = omap (fun t => match (CompareRowCounts adapter sourceDB targetDB t).2.2 with
                     | Some e => Some (t, e)
                     | None => None
                     end) tables.
Proof.
  intros run. subst run. revert i last summary.
  induction tables as [|t tables IH]; intros i last summary; [done|].
  rewrite verifyTables_cons. cbn zeta.
  destruct (IH (i + 1)
              (if bool_decide (currentPercentAt totalTables i > last)
               then currentPercentAt totalTables i else last)
              (rowCountSummary t (CompareRowCounts adapter sourceDB targetDB t).2 summary))
    as [IHq IHe].
  pose proof (CompareRowCounts_stdout adapter sourceDB targetDB t) as Hsilent.
  unfold rowCountErrors, queries, stdout in *. cbn [fst] in *.
  rewrite !omap_app, omap_Printf_queries, omap_Printf_stdout, Hsilent, ?omap_app, IHq, IHe.
  split.
  - cbn [flat_map]. by destruct (bool_decide (currentPercentAt totalTables i > last)).
  - cbn [omap list_omap].
    destruct (CompareRowCounts adapter sourceDB targetDB t).2 as [[sc tc] [e|]];
      cbn [snd rowCountLines]; destruct (bool_decide (currentPercentAt _ _ > _));
      try destruct (bool_decide (sc ≠ tc)); done.
Qed.

Lemma rowCountSummary_lookup (adapter : DatabaseAdapter) (sourceDB targetDB : DB)
    (tableName t : string) (summary : ComparisonSummary.t) :
  ComparisonSummary.DifferentRowCounts
    (rowCountSummary tableName
       (CompareRowCounts adapter sourceDB targetDB tableName).2 summary) !! t
  = if bool_decide (t = tableName)
    then match differingCounts adapter sourceDB targetDB tableName with
         | Some c => Some c
         | None => ComparisonSummary.DifferentRowCounts summary !! t
         end
    else ComparisonSummary.DifferentRowCounts summary !! t.
Proof.
  rewrite CompareRowCounts_value. unfold differingCounts, rowCountSummary.
  destruct (scanInt sourceDB _) as [sourceCount|e]; [|by case_bool_decide].
  destruct (scanInt targetDB _) as [targetCount|e]; [|by case_bool_decide].
  destruct (bool_decide (sourceCount ≠ targetCount)); [|by case_bool_decide].
  cbn [set_DifferentTables set_DifferentRowCounts ComparisonSummary.DifferentRowCounts].
  case_bool_decide as Heq.
  - subst. by rewrite lookup_insert_eq.
  - by rewrite lookup_insert_ne.
Qed.

(** The row counts recorded by the loop: those of the listed tables whose
    counts both arrive and differ, over what was recorded before. *)
Lemma verifyTables_DifferentRowCounts (adapter : DatabaseAdapter) (sourceDB targetDB : DB)
    (totalTables : Z) (tables : list string) (t : string) :
  ∀ (i last : Z) (summary : ComparisonSummary.t),
    ComparisonSummary.DifferentRowCounts
      (verifyTables adapter sourceDB targetDB totalTables i tables (last, summary)).2.2 !! t
    = match (if bool_decide (t ∈ tables)
             then differingCounts adapter sourceDB targetDB t else None) with
      | Some c => Some c
      | None => ComparisonSummary.DifferentRowCounts summary !! t
      end.
Proof.
  induction tables as [|tableName rest IH]; intros i last summary.
  - cbn [verifyTables]. rewrite bool_decide_eq_false_2; [done|]. apply not_elem_of_nil.
  - rewrite verifyTables_cons. cbn zeta. cbn [snd]. rewrite IH, rowCountSummary_lookup.
    destruct (decide (t = tableName)) as [->|Hne].
    + rewrite (bool_decide_eq_true_2 (tableName = tableName)) by done.
      rewrite (bool_decide_eq_true_2 (tableName ∈ tableName :: rest)) by left.
      destruct (bool_decide (tableName ∈ rest));
        by destruct (differingCounts adapter sourceDB targetDB tableName).
    + rewrite (bool_decide_eq_false_2 (t = tableName)) by done.
      assert (bool_decide (t ∈ tableName :: rest) = bool_decide (t ∈ rest)) as ->; [|done].
      apply bool_decide_ext. rewrite elem_of_cons. tauto.
Qed.

Lemma foldl_schemaDiffStep_DifferentRowCounts (l : list (string * list string)) :
  ∀ summary : ComparisonSummary.t,
    ComparisonSummary.DifferentRowCounts (foldl schemaDiffStep summary l)
    = ComparisonSummary.DifferentRowCounts summary.
Proof.
  induction l as [|e l IH]; intros summary; cbn [foldl]; [done|].
  rewrite IH. unfold schemaDiffStep. by destruct (negb _).
Qed.

Section ReportFacts.
Context {R : MapRange}.

Lemma main_dataDifferences_value (adapter : DatabaseAdapter) (sourceDB targetDB : DB)
    (sourceSchemas targetSchemas : gmap string TableSchema.t) :
  let r := compareDatabases sourceSchemas targetSchemas in
  (main_dataDifferences adapter sourceDB targetDB sourceSchemas targetSchemas).2
  = ((verifyTables adapter sourceDB targetDB (Z.of_nat (length r.1.2)) 0 r.1.2
        (-1, foldl schemaDiffStep (ComparisonSummary.mk [] ∅ 0 false) (rangeOf r.2))).2.2,
     r).
Proof.
  unfold main_dataDifferences.
  destruct (compareDatabases sourceSchemas targetSchemas)
    as [[[missingTables extraTables] commonTables] schemaDifferences].
  cbn [fst snd]. rewrite !IO_bind_value.
  destruct (verifyTables _ _ _ _ _ _ _) as [log [lastPercent summary']].
  cbn [snd]. by rewrite IO_bind_value.
Qed.

Lemma commonTables_iff (sourceSchemas targetSchemas : gmap string TableSchema.t)
    (t : string) :
  t ∈ (compareDatabases sourceSchemas targetSchemas).1.2
  ↔ is_Some (sourceSchemas !! t) ∧ is_Some (targetSchemas !! t).
Proof.
  rewrite compareDatabases_common, list_elem_of_filter, rangeOf_keys. tauto.
Qed.

Lemma main_dataDifferences_DifferentRowCounts (adapter : DatabaseAdapter)
    (sourceDB targetDB : DB) (sourceSchemas targetSchemas : gmap string TableSchema.t)
    (t : string) :
  ComparisonSummary.DifferentRowCounts
    (main_dataDifferences adapter sourceDB targetDB sourceSchemas targetSchemas).2.1 !! t
  = if decide (is_Some (sourceSchemas !! t) ∧ is_Some (targetSchemas !! t))
    then differingCounts adapter sourceDB targetDB t else None.
Proof.
  rewrite main_dataDifferences_value. cbn zeta. cbn [fst].
  rewrite verifyTables_DifferentRowCounts, foldl_schemaDiffStep_DifferentRowCounts.
  cbn [ComparisonSummary.DifferentRowCounts]. rewrite lookup_empty.
  destruct (decide _) as [Hc|Hc].
  - rewrite bool_decide_eq_true_2 by (by apply commonTables_iff).
    by destruct (differingCounts _ _ _ _).
  - rewrite bool_decide_eq_false_2; [done|]. by rewrite commonTables_iff.
Qed.

End ReportFacts.

(** X26. After the row-count loop of [main], [summary.DifferentRowCounts]
    holds a table exactly when the table is on both sides and its two count
    queries succeed with different counts, and it holds these two counts; a
    table whose count query fails is not recorded. *)
Theorem main_DifferentRowCounts `{R : MapRange} (adapter : DatabaseAdapter)
    (sourceDB targetDB : DB) (sourceSchemas targetSchemas : gmap string TableSchema.t)
    (t : string) (sourceCount targetCount : Z) :
  ComparisonSummary.DifferentRowCounts
    (main_dataDifferences adapter sourceDB targetDB sourceSchemas targetSchemas).2.1 !! t
  = Some (sourceCount, targetCount)
  ↔ is_Some (sourceSchemas !! t) ∧ is_Some (targetSchemas !! t)
    ∧ scanInt sourceDB (countQuery adapter t) = Ok sourceCount
    ∧ scanInt targetDB (countQuery adapter t) = Ok targetCount
    ∧ sourceCount ≠ targetCount.
Proof.
  rewrite main_dataDifferences_DifferentRowCounts. unfold differingCounts.
  destruct (decide _) as [[Hs Ht]|Hc].
  2: { split; [done|]. intros (? & ? & _). by destruct Hc. }
  destruct (scanInt sourceDB _) as [sc|e], (scanInt targetDB _) as [tc|e'];
    try (split; [done|]; intros (_ & _ & ? & ? & _); congruence).
  case_bool_decide as Hne.
  - split.
    + intros [= <- <-]. done.
    + intros (_ & _ & [= <-] & [= <-] & _). done.
  - split; [done|]. intros (_ & _ & [= <-] & [= <-] & ?). done.
Qed.

(** ** main: the comparison summary *)

Lemma int_wrap_add_l (a b : Z) : int_wrap (int_wrap a + b) = int_wrap (a + b).
Proof.
  unfold int_wrap. f_equal.
  replace ((a + 2 ^ 63) mod 2 ^ 64 - 2 ^ 63 + b + 2 ^ 63)
    with ((a + 2 ^ 63) mod 2 ^ 64 + b) by lia.
  rewrite Zplus_mod_idemp_l. f_equal. lia.
Qed.

Lemma bulletTables_app (l1 l2 : list SummaryLine) :
  bulletTables (l1 ++ l2) = bulletTables l1 ++ bulletTables l2.
Proof. apply omap_app. Qed.

Lemma bulletTables_rowCount (l : list (string * (Z * Z))) :
  bulletTables (rowCountBullet <$> l) = l.*1.
Proof.
  induction l as [|[k [s g]] l IH]; [done|].
  rewrite !fmap_cons. unfold bulletTables in *. cbn. by rewrite IH.
Qed.

Lemma bulletTables_missing (l : list string) : bulletTables (MissingBullet <$> l) = l.
Proof.
  induction l as [|k l IH]; [done|].
  rewrite fmap_cons. unfold bulletTables in *. cbn. by rewrite IH.
Qed.

Lemma bulletTables_extra (l : list string) : bulletTables (ExtraBullet <$> l) = l.
Proof.
  induction l as [|k l IH]; [done|].
  rewrite fmap_cons. unfold bulletTables in *. cbn. by rewrite IH.
Qed.

Lemma bulletTables_schema (differentRowCounts : gmap string (Z * Z))
    (l : list (string * list string)) :
  Forall (fun e => e.2 ≠ []) l →
  bulletTables (flat_map (schemaBullets differentRowCounts) l)
  = List.filter (fun k => bool_decide (differentRowCounts !! k = None)) l.*1.
Proof.
  induction 1 as [|[k d] l Hd _ IH]; [done|].
  rewrite fmap_cons. cbn [flat_map List.filter fst]. rewrite bulletTables_app, IH.
  unfold schemaBullets. destruct (differentRowCounts !! k) as [c|].
  { by rewrite (bool_decide_eq_false_2 (Some c = None)). }
  rewrite (bool_decide_eq_true_2 (None = None)) by done.
  destruct d as [|first rest]; [by destruct Hd|].
  unfold bulletTables. cbn [app omap list_omap]. destruct (bool_decide (1 < _)%nat); done.
Qed.

Lemma summaryBullets_plain (rowCounts : list (string * (Z * Z)))
    (differentRowCounts : gmap string (Z * Z)) (missingTables extraTables : list string)
    (schemaDifferences : list (string * list string)) (l : SummaryLine) :
  l ∈ (rowCountBullet <$> rowCounts)
      ++ (MissingBullet <$> missingTables) ++ (ExtraBullet <$> extraTables)
      ++ flat_map (schemaBullets differentRowCounts) schemaDifferences →
  l ≠ NoDifferences ∧ ∀ n, l ≠ FoundDifferences n.
Proof.
  rewrite !elem_of_app, !list_elem_of_fmap, list_elem_of_In, in_flat_map.
  intros [([k [s g]] & -> & _)|[(k & -> & _)|[(k & -> & _)|([k d] & _ & Hin)]]]; try done.
  unfold schemaBullets in Hin. destruct (_ !! k); [done|].
  destruct d as [|first rest]; [done|].
  destruct Hin as [<-|Hin]; [done|]. destruct (bool_decide _); [|done].
  by destruct Hin as [<-|[]].
Qed.

Lemma filter_complement_length {A} (p q : A -> bool) (l : list A) :
  (∀ x, x ∈ l → q x = negb (p x)) →
  length l = (length (List.filter p l) + length (List.filter q l))%nat.
Proof.
  induction l as [|x l IH]; intros Hpq; [done|].
  cbn [List.filter]. rewrite (Hpq x) by left.
  destruct (p x); cbn [negb length]; rewrite IH; try lia; intros; apply Hpq; by right.
Qed.

Lemma differingCounts_rowCountsDiffer (adapter : DatabaseAdapter) (sourceDB targetDB : DB)
    (t : string) :
  is_Some (differingCounts adapter sourceDB targetDB t)
  ↔ rowCountsDiffer adapter sourceDB targetDB t = true.
Proof.
  unfold differingCounts, rowCountsDiffer.
  destruct (scanInt sourceDB (countQuery adapter t)) as [sc|e],
           (scanInt targetDB (countQuery adapter t)) as [tc|e'];
    try (split; [by intros [? ?]|done]).
  destruct (bool_decide (sc ≠ tc)); split; try done; try (by eauto); by intros [? ?].
Qed.

Section SummaryReportFacts.
Context {R : MapRange}.

Lemma main_report_eq (adapter : DatabaseAdapter) (sourceDB targetDB : DB)
    (sourceSchemas targetSchemas : gmap string TableSchema.t) :
  main_report adapter sourceDB targetDB sourceSchemas targetSchemas
  = main_summary
      (main_dataDifferences adapter sourceDB targetDB sourceSchemas targetSchemas).2.1
      (compareDatabases sourceSchemas targetSchemas).1.1.1
      (compareDatabases sourceSchemas targetSchemas).1.1.2
      (compareDatabases sourceSchemas targetSchemas).2.
Proof.
  unfold main_report. rewrite main_dataDifferences_value. cbn zeta.
  by destruct (compareDatabases sourceSchemas targetSchemas) as [[[m e] c] sd].
Qed.

Lemma main_report_v1_eq (adapter : DatabaseAdapter) (sourceDB targetDB : DB)
    (sourceSchemas targetSchemas : gmap string TableSchema.t) :
  main_report_v1 adapter sourceDB targetDB sourceSchemas targetSchemas
  = main_summary_v1
      (main_dataDifferences adapter sourceDB targetDB sourceSchemas targetSchemas).2.1
      (compareDatabases sourceSchemas targetSchemas).1.1.1
      (compareDatabases sourceSchemas targetSchemas).1.1.2
      (compareDatabases sourceSchemas targetSchemas).2.
Proof.
  unfold main_report_v1. rewrite main_dataDifferences_value. cbn zeta.
  by destruct (compareDatabases sourceSchemas targetSchemas) as [[[m e] c] sd].
Qed.

(** What [compareDatabases] records for a table comes from a call of
    [compareTableSchema] that returned [true]. *)
Lemma schemaDifferences_Some (sourceSchemas targetSchemas : gmap string TableSchema.t)
    (k : string) (d : list string) :
  (compareDatabases sourceSchemas targetSchemas).2 !! k = Some d →
  ∃ s t, sourceSchemas !! k = Some s ∧ targetSchemas !! k = Some t
         ∧ (compareTableSchema k s t).1 = true ∧ d = (compareTableSchema k s t).2.
Proof.
  rewrite compareDatabases_diffs. destruct (decide _) as [[s Hs]|]; [|done].
  unfold tableDiff, goIndex. rewrite Hs. destruct (targetSchemas !! k) as [t|]; [|done].
  cbn [default]. cbv zeta. unfold id. destruct (compareTableSchema k s t).1 eqn:Hflag; [|done].
  intros [= <-]. by exists s, t.
Qed.

Lemma schemaDifferences_nonempty (sourceSchemas targetSchemas : gmap string TableSchema.t) :
  Forall (fun e : string * list string => e.2 ≠ [])
    (rangeOf (compareDatabases sourceSchemas targetSchemas).2).
Proof.
  apply Forall_forall. intros [k d] Hin. apply rangeOf_lookup in Hin.
  apply schemaDifferences_Some in Hin as (s & t & _ & _ & Hflag & ->). cbn [snd].
  rewrite compareTableSchema_fst, compareTableSchema_entries_flag in Hflag.
  rewrite compareTableSchema_snd. by destruct (compareTableSchema_entries k s t).2.
Qed.

Lemma schemaDifferences_common (sourceSchemas targetSchemas : gmap string TableSchema.t)
    (k : string) :
  is_Some ((compareDatabases sourceSchemas targetSchemas).2 !! k) →
  is_Some (sourceSchemas !! k) ∧ is_Some (targetSchemas !! k).
Proof.
  intros [d Hd]. apply schemaDifferences_Some in Hd as (s & t & Hs & Ht & _). eauto.
Qed.

Lemma missingTables_iff (sourceSchemas targetSchemas : gmap string TableSchema.t) (k : string) :
  k ∈ (compareDatabases sourceSchemas targetSchemas).1.1.1
  ↔ is_Some (sourceSchemas !! k) ∧ targetSchemas !! k = None.
Proof. rewrite compareDatabases_missing, list_elem_of_filter, rangeOf_keys. tauto. Qed.

Lemma extraTables_iff (sourceSchemas targetSchemas : gmap string TableSchema.t) (k : string) :
  k ∈ (compareDatabases sourceSchemas targetSchemas).1.1.2
  ↔ sourceSchemas !! k = None ∧ is_Some (targetSchemas !! k).
Proof. rewrite compareDatabases_extra, list_elem_of_filter, rangeOf_keys. tauto. Qed.

Lemma compareDatabases_NoDup (sourceSchemas targetSchemas : gmap string TableSchema.t) :
  NoDup (compareDatabases sourceSchemas targetSchemas).1.1.1
  ∧ NoDup (compareDatabases sourceSchemas targetSchemas).1.1.2
  ∧ NoDup (compareDatabases sourceSchemas targetSchemas).1.2.
Proof.
  rewrite compareDatabases_missing, compareDatabases_extra, compareDatabases_common.
  repeat split; apply NoDup_filter, rangeOf_NoDup.
Qed.

Lemma differentRowCounts_iff (adapter : DatabaseAdapter) (sourceDB targetDB : DB)
    (sourceSchemas targetSchemas : gmap string TableSchema.t) (t : string) :
  is_Some (ComparisonSummary.DifferentRowCounts
             (main_dataDifferences adapter sourceDB targetDB
                sourceSchemas targetSchemas).2.1 !! t)
  ↔ t ∈ (compareDatabases sourceSchemas targetSchemas).1.2
    ∧ rowCountsDiffer adapter sourceDB targetDB t = true.
Proof.
  rewrite main_dataDifferences_DifferentRowCounts, commonTables_iff,
    <- differingCounts_rowCountsDiffer.
  destruct (decide _) as [Hc|Hc]; [tauto|].
  split; [by intros [? ?]|tauto].
Qed.

End SummaryReportFacts.

Lemma nothingToReport_true (summary : ComparisonSummary.t)
    (missingTables extraTables : list string) :
  nothingToReport summary missingTables extraTables = true
  ↔ ComparisonSummary.DifferentTables summary = [] ∧ extraTables = []
    ∧ ComparisonSummary.DifferentRowCounts summary = ∅ ∧ missingTables = [].
Proof.
  unfold nothingToReport.
  rewrite !andb_true_iff, !bool_decide_eq_true, !length_zero_iff_nil, map_size_empty_iff.
  tauto.
Qed.

Lemma elem_of_List_filter {A} (p : A -> bool) (l : list A) (x : A) :
  x ∈ List.filter p l ↔ x ∈ l ∧ p x = true.
Proof. by rewrite !list_elem_of_In, filter_In. Qed.

Section SummaryReport.
Context {R : MapRange}.

Lemma main_summary_bulletTables (summary : ComparisonSummary.t)
    (missingTables extraTables : list string)
    (schemaDifferences : gmap string (list string)) :
  Forall (fun e : string * list string => e.2 ≠ []) (rangeOf schemaDifferences) →
  bulletTables (main_summary summary missingTables extraTables schemaDifferences)
  = if nothingToReport summary missingTables extraTables then []
    else (rangeOf (ComparisonSummary.DifferentRowCounts summary)).*1
         ++ missingTables ++ extraTables
         ++ List.filter
              (fun k => bool_decide (ComparisonSummary.DifferentRowCounts summary !! k = None))
              (rangeOf schemaDifferences).*1.
Proof.
  intros Hne. unfold main_summary.
  change (bool_decide _ && _ && _ && _) with (nothingToReport summary missingTables extraTables).
  destruct (nothingToReport summary missingTables extraTables); [done|].
  unfold summaryBullets. rewrite !bulletTables_app.
  change (FoundDifferences ?n :: ?l) with ([FoundDifferences n] ++ l).
  rewrite !bulletTables_app, bulletTables_rowCount, bulletTables_missing, bulletTables_extra,
    bulletTables_schema by done.
  change (bulletTables [SummaryHeader]) with (@nil string).
  change (bulletTables [Finished]) with (@nil string).
  change (bulletTables [FoundDifferences _]) with (@nil string).
  by rewrite app_nil_r.
Qed.

Lemma main_summary_NoDifferences (summary : ComparisonSummary.t)
    (missingTables extraTables : list string)
    (schemaDifferences : gmap string (list string)) :
  NoDifferences ∈ main_summary summary missingTables extraTables schemaDifferences
  ↔ nothingToReport summary missingTables extraTables = true.
Proof.
  unfold main_summary.
  change (bool_decide _ && _ && _ && _) with (nothingToReport summary missingTables extraTables).
  destruct (nothingToReport summary missingTables extraTables).
  - split; [done|]. intros _. right. left.
  - split; [|done]. rewrite !elem_of_app, !list_elem_of_singleton, elem_of_cons.
    intros [?|[[?|Hin]|?]]; try done.
    by apply summaryBullets_plain in Hin as [? _].
Qed.

Lemma main_summary_FoundDifferences (summary : ComparisonSummary.t)
    (missingTables extraTables : list string)
    (schemaDifferences : gmap string (list string)) (n : Z) :
  FoundDifferences n ∈ main_summary summary missingTables extraTables schemaDifferences →
  nothingToReport summary missingTables extraTables = false
  ∧ n = int_wrap (Z.of_nat (length (ComparisonSummary.DifferentTables summary))
                  + Z.of_nat (length extraTables) + Z.of_nat (length missingTables)).
Proof.
  unfold main_summary.
  change (bool_decide _ && _ && _ && _) with (nothingToReport summary missingTables extraTables).
  destruct (nothingToReport summary missingTables extraTables).
  - rewrite !elem_of_app, !list_elem_of_singleton. by intros [?|[?|?]].
  - rewrite !elem_of_app, !list_elem_of_singleton, elem_of_cons.
    intros [?|[[Heq|Hin]|?]]; try done.
    + injection Heq as ->. by rewrite int_wrap_add_l.
    + apply summaryBullets_plain in Hin as [_ Hin]. by destruct (Hin n).
Qed.

(** X28. No table is named by two bullet lines of the summary of [main],
    and the tables the bullet lines name are the missing ones, the extra
    ones, those with recorded schema differences and the common ones whose
    row counts differ. *)
Theorem main_report_bulletTables (adapter : DatabaseAdapter) (sourceDB targetDB : DB)
    (sourceSchemas targetSchemas : gmap string TableSchema.t) :
  let r := compareDatabases sourceSchemas targetSchemas in
  let report := main_report adapter sourceDB targetDB sourceSchemas targetSchemas in
  NoDup (bulletTables report)
  ∧ ∀ t, t ∈ bulletTables report
         ↔ t ∈ r.1.1.1 ∨ t ∈ r.1.1.2 ∨ is_Some (r.2 !! t)
           ∨ (t ∈ r.1.2 ∧ rowCountsDiffer adapter sourceDB targetDB t = true).
Proof.
  intros r report. subst r report.
  rewrite main_report_eq, main_summary_bulletTables by apply schemaDifferences_nonempty.
  pose proof (differentRowCounts_iff adapter sourceDB targetDB sourceSchemas targetSchemas)
    as Hcounts.
  pose proof (main_dataDifferences_DifferentTables adapter sourceDB targetDB
                sourceSchemas targetSchemas) as Hlisted.
  set (summary := (main_dataDifferences _ _ _ _ _).2.1) in *.
  pose proof (missingTables_iff sourceSchemas targetSchemas) as Hmissing.
  pose proof (extraTables_iff sourceSchemas targetSchemas) as Hextra.
  pose proof (commonTables_iff sourceSchemas targetSchemas) as Hcommon.
  pose proof (schemaDifferences_common sourceSchemas targetSchemas) as Hschema.
  destruct (compareDatabases_NoDup sourceSchemas targetSchemas) as (Hnm & Hne & _).
  destruct (nothingToReport summary _ _) eqn:Hclean.
  - apply nothingToReport_true in Hclean as (Hdt & He & Hrc & Hm).
    split; [constructor|]. intros t. split; [by intros ?%elem_of_nil|].
    rewrite Hm, He. rewrite Hdt in Hlisted. symmetry in Hlisted.
    apply app_eq_nil in Hlisted as [Hkeys _].
    intros [?%elem_of_nil|[?%elem_of_nil|[Hsd|Hrow]]]; try done.
    + apply rangeOf_keys in Hsd. rewrite Hkeys in Hsd. by apply elem_of_nil in Hsd.
    + apply Hcounts in Hrow. rewrite Hrc, lookup_empty in Hrow. by destruct Hrow.
  - clear Hclean Hlisted. split.
    + rewrite !NoDup_app. repeat split.
      * apply rangeOf_NoDup.
      * intros t Ht. apply rangeOf_keys in Ht.
        pose proof Ht as Hrow. apply Hcounts in Hrow as [Hc _]. apply Hcommon in Hc as [Hs Hg].
        rewrite !elem_of_app, elem_of_List_filter, Hmissing, Hextra, bool_decide_eq_true.
        intros [[_ Hn]|[[Hn _]|[_ Hn]]].
        -- rewrite Hn in Hg. by destruct Hg.
        -- rewrite Hn in Hs. by destruct Hs.
        -- rewrite Hn in Ht. by destruct Ht.
      * done.
      * intros t Ht. apply Hmissing in Ht as [Hs Hg].
        rewrite !elem_of_app, elem_of_List_filter, Hextra, rangeOf_keys.
        intros [[Hn _]|[Hsd _]].
        -- rewrite Hn in Hs. by destruct Hs.
        -- apply Hschema in Hsd as [_ Hg']. rewrite Hg in Hg'. by destruct Hg'.
      * done.
      * intros t Ht. apply Hextra in Ht as [Hs Hg].
        rewrite elem_of_List_filter, rangeOf_keys. intros [Hsd _].
        apply Hschema in Hsd as [Hs' _]. rewrite Hs in Hs'. by destruct Hs'.
      * apply NoDup_List_filter, rangeOf_NoDup.
    + intros t.
      rewrite !elem_of_app, elem_of_List_filter, !rangeOf_keys, bool_decide_eq_true, Hcounts.
      split; [tauto|]. intros [?|[?|[Hsd|?]]]; try tauto.
      destruct (ComparisonSummary.DifferentRowCounts summary !! t) as [c|] eqn:Hc; [|tauto].
      left. apply Hcounts. by rewrite Hc.
Qed.

End SummaryReport.

Section SummaryReportTheorems.
Context {R : MapRange}.

(** [summary.DifferentTables] stays empty exactly when no common table
    shows a schema difference or two different row counts. *)
Lemma DifferentTables_nil (adapter : DatabaseAdapter) (sourceDB targetDB : DB)
    (sourceSchemas targetSchemas : gmap string TableSchema.t) :
  ComparisonSummary.DifferentTables
    (main_dataDifferences adapter sourceDB targetDB sourceSchemas targetSchemas).2.1 = []
  ↔ ∀ t s g, sourceSchemas !! t = Some s → targetSchemas !! t = Some g →
             (compareTableSchema t s g).1 = false
             ∧ rowCountsDiffer adapter sourceDB targetDB t = false.
Proof.
  rewrite main_dataDifferences_DifferentTables. split.
  - intros [Hkeys Hrows]%app_eq_nil t s g Hs Hg. split.
    + destruct (compareTableSchema t s g).1 eqn:Hflag; [exfalso|done].
      pose proof (compareDatabases_diffs_common sourceSchemas targetSchemas t s g Hs Hg) as Hsd.
      rewrite Hflag in Hsd.
      assert (t ∈ (rangeOf (compareDatabases sourceSchemas targetSchemas).2).*1) as Hin.
      { apply rangeOf_keys. by rewrite Hsd. }
      rewrite Hkeys in Hin. by apply elem_of_nil in Hin.
    + destruct (rowCountsDiffer adapter sourceDB targetDB t) eqn:Hrow; [exfalso|done].
      assert (t ∈ List.filter (rowCountsDiffer adapter sourceDB targetDB)
                    (compareDatabases sourceSchemas targetSchemas).1.2) as Hin.
      { apply elem_of_List_filter. split; [|done]. apply commonTables_iff. eauto. }
      rewrite Hrows in Hin. by apply elem_of_nil in Hin.
  - intros Hsame.
    assert ((rangeOf (compareDatabases sourceSchemas targetSchemas).2).*1 = []) as ->.
    { apply elem_of_nil_inv. intros t [d Hd]%rangeOf_keys.
      apply schemaDifferences_Some in Hd as (s & g & Hs & Hg & Hflag & _).
      destruct (Hsame t s g Hs Hg) as [Hno _]. congruence. }
    apply elem_of_nil_inv. intros t [Hc Hrow]%elem_of_List_filter.
    apply commonTables_iff in Hc as [[s Hs] [g Hg]].
    destruct (Hsame t s g Hs Hg) as [_ Hno]. congruence.
Qed.

Lemma main_summary_v1_NoDifferences (summary : ComparisonSummary.t)
    (missingTables extraTables : list string)
    (schemaDifferences : gmap string (list string)) :
  NoDifferences ∈ main_summary_v1 summary missingTables extraTables schemaDifferences
  ↔ ComparisonSummary.DifferentTables summary = [].
Proof.
  unfold main_summary_v1. rewrite <- length_zero_iff_nil.
  rewrite !elem_of_app, !list_elem_of_singleton.
  destruct (decide (length (ComparisonSummary.DifferentTables summary) = 0%nat)) as [Hlen|Hlen].
  - rewrite (bool_decide_eq_true_2 _ Hlen).
    split; [done|]. intros _. right. right. right. left. by apply list_elem_of_singleton.
  - rewrite (bool_decide_eq_false_2 _ Hlen). split; [|done].
    intros [Hm|[He|[?|[Hin|?]]]]; try done.
    + destruct (bool_decide (0 < length missingTables)%nat);
        [by apply list_elem_of_singleton in Hm|by apply elem_of_nil in Hm].
    + destruct (bool_decide (0 < length extraTables)%nat);
        [by apply list_elem_of_singleton in He|by apply elem_of_nil in He].
    + apply elem_of_cons in Hin as [?|Hin]; [done|].
      by apply summaryBullets_plain in Hin as [? _].
Qed.

(** X27. The summary of [main] says [No differences found] exactly when
    the two sides hold the same tables and no table shows a schema
    difference or two different row counts; a table whose count query
    fails does not count as different. *)
Theorem main_report_no_differences (adapter : DatabaseAdapter) (sourceDB targetDB : DB)
    (sourceSchemas targetSchemas : gmap string TableSchema.t) :
  NoDifferences ∈ main_report adapter sourceDB targetDB sourceSchemas targetSchemas
  ↔ (∀ t, is_Some (sourceSchemas !! t) ↔ is_Some (targetSchemas !! t))
    ∧ ∀ t s g, sourceSchemas !! t = Some s → targetSchemas !! t = Some g →
               (compareTableSchema t s g).1 = false
               ∧ rowCountsDiffer adapter sourceDB targetDB t = false.
Proof.
  rewrite main_report_eq, main_summary_NoDifferences, nothingToReport_true, DifferentTables_nil.
  split.
  - intros (Hsame & He & _ & Hm). split; [|done]. intros t. split; intros Hin.
    + destruct (targetSchemas !! t) as [g|] eqn:Hg; [by eauto|exfalso].
      assert (t ∈ (compareDatabases sourceSchemas targetSchemas).1.1.1) as Hmiss
        by (by apply missingTables_iff).
      rewrite Hm in Hmiss. by apply elem_of_nil in Hmiss.
    + destruct (sourceSchemas !! t) as [s|] eqn:Hs; [by eauto|exfalso].
      assert (t ∈ (compareDatabases sourceSchemas targetSchemas).1.1.2) as Hext
        by (by apply extraTables_iff).
      rewrite He in Hext. by apply elem_of_nil in Hext.
  - intros [Hdom Hsame]. split; [done|]. repeat split.
    + apply elem_of_nil_inv. intros t [Hs Hg]%extraTables_iff.
      apply Hdom in Hg. rewrite Hs in Hg. by destruct Hg.
    + apply map_empty. intros t.
      destruct (ComparisonSummary.DifferentRowCounts _ !! t) as [c|] eqn:Hc; [exfalso|done].
      assert (is_Some (ComparisonSummary.DifferentRowCounts
                (main_dataDifferences adapter sourceDB targetDB
                   sourceSchemas targetSchemas).2.1 !! t)) as Hrow by (by rewrite Hc).
      apply differentRowCounts_iff in Hrow as [[[s Hs] [g Hg]]%commonTables_iff Hrow].
      destruct (Hsame t s g Hs Hg) as [_ Hno]. congruence.
    + apply elem_of_nil_inv. intros t [Hs Hg]%missingTables_iff.
      apply Hdom in Hs. rewrite Hg in Hs. by destruct Hs.
Qed.

(** X29. The number in [Found differences in N tables] is the number of
    bullet lines that name a table plus the number of tables that have both
    schema differences and differing row counts: such a table is counted
    twice and listed once. *)
Theorem main_report_count (adapter : DatabaseAdapter) (sourceDB targetDB : DB)
    (sourceSchemas targetSchemas : gmap string TableSchema.t) (n : Z) :
  let report := main_report adapter sourceDB targetDB sourceSchemas targetSchemas in
  FoundDifferences n ∈ report →
  n = int_wrap (Z.of_nat (length (bulletTables report))
                + Z.of_nat (length (doublyDifferent adapter sourceDB targetDB
                                      sourceSchemas targetSchemas))).
Proof.
  intros report. subst report.
  rewrite main_report_eq, main_summary_bulletTables by apply schemaDifferences_nonempty.
  intros [Hdirty ->]%main_summary_FoundDifferences. rewrite Hdirty.
  rewrite main_dataDifferences_DifferentTables. unfold doublyDifferent.
  pose proof (differentRowCounts_iff adapter sourceDB targetDB sourceSchemas targetSchemas)
    as Hcounts.
  pose proof (main_dataDifferences_DifferentRowCounts adapter sourceDB targetDB
                sourceSchemas targetSchemas) as Hlookup.
  set (summary := (main_dataDifferences _ _ _ _ _).2.1) in *.
  set (keys := (rangeOf (compareDatabases sourceSchemas targetSchemas).2).*1).
  assert (length (List.filter (rowCountsDiffer adapter sourceDB targetDB)
                    (compareDatabases sourceSchemas targetSchemas).1.2)
          = length (rangeOf (ComparisonSummary.DifferentRowCounts summary)).*1) as Hrows.
  { apply Permutation_length, NoDup_Permutation.
    - apply NoDup_List_filter, compareDatabases_NoDup.
    - apply rangeOf_NoDup.
    - intros t. by rewrite elem_of_List_filter, rangeOf_keys, Hcounts. }
  assert (length keys
          = (length (List.filter
                       (fun k => bool_decide
                                   (ComparisonSummary.DifferentRowCounts summary !! k = None))
                       keys)
             + length (List.filter
                         (fun t => bool_decide
                                     (is_Some (differingCounts adapter sourceDB targetDB t)))
                         keys))%nat) as Hkeys.
  { apply filter_complement_length. intros t Ht. subst keys.
    apply rangeOf_keys, schemaDifferences_common in Ht.
    rewrite Hlookup, decide_True by done.
    destruct (differingCounts adapter sourceDB targetDB t) as [c|].
    - rewrite bool_decide_eq_true_2 by eauto. by rewrite bool_decide_eq_false_2.
    - rewrite bool_decide_eq_false_2 by (by intros [? ?]). by rewrite bool_decide_eq_true_2. }
  f_equal. rewrite !length_app, Hrows, Hkeys. lia.
Qed.

(** X30. The earlier [main] kept in the sources says [No differences found]
    exactly when no common table shows a schema difference or two different
    row counts, whatever tables are missing from the target or extra in
    it. *)
Theorem main_report_v1_no_differences (adapter : DatabaseAdapter) (sourceDB targetDB : DB)
    (sourceSchemas targetSchemas : gmap string TableSchema.t) :
  NoDifferences ∈ main_report_v1 adapter sourceDB targetDB sourceSchemas targetSchemas
  ↔ ∀ t s g, sourceSchemas !! t = Some s → targetSchemas !! t = Some g →
             (compareTableSchema t s g).1 = false
             ∧ rowCountsDiffer adapter sourceDB targetDB t = false.
Proof.
  by rewrite main_report_v1_eq, main_summary_v1_NoDifferences, DifferentTables_nil.
Qed.

End SummaryReportTheorems.

Lemma main_report_count_witness :
  let report := @main_report canonicalRange MySQLAdapter (constDB 100) (constDB 101)
                  {["users" := usersV1]} {["users" := usersV2]} in
  FoundDifferences 2 ∈ report
  ∧ 2 = int_wrap (Z.of_nat (length (bulletTables report))
                  + Z.of_nat (length (@doublyDifferent canonicalRange MySQLAdapter
                                        (constDB 100) (constDB 101)
                                        {["users" := usersV1]} {["users" := usersV2]}))).
Proof.
  assert (FoundDifferences 2
          ∈ @main_report canonicalRange MySQLAdapter (constDB 100) (constDB 101)
              {["users" := usersV1]} {["users" := usersV2]}) as Hin.
  { vm_compute. apply list_elem_of_further, list_elem_of_here. }
  split; [exact Hin|].
  exact (@main_report_count canonicalRange MySQLAdapter (constDB 100) (constDB 101)
           {["users" := usersV1]} {["users" := usersV2]} 2 Hin).
Defined.
